(** * Console Tetris (tetris.cpp): a shallow embedding of the game core

    The development follows the C++ source function by function.
    Integers of type [int] and [long long] are modelled as [Z]; an
    arithmetic operation whose mathematical result does not fit the type
    is undefined behaviour in C++ and is a [Fault Overflow] here.  Indexing
    a [std::vector], a [std::array] or a [std::string] outside its bounds is
    undefined behaviour as well and is a [Fault OutOfBounds].  Loops whose
    termination is not structural carry a fuel argument and report
    [Fault OutOfFuel] when it runs out; the fuel that the model gives them
    is shown to be enough.  The values of [rand()], the characters on the
    standard input and the outcome of the clock test are inputs of the
    model; the terminal is not modelled. *)

From Stdlib Require Import ZArith List Lia Bool String Ascii.
From stdpp Require Import base list.

Local Open Scope Z_scope.

(** ** Results of C++ computations *)

Inductive fault : Type :=
| OutOfBounds
| Overflow
| OutOfFuel.

Inductive res (A : Type) : Type :=
| Ok (a : A)
| Fault (f : fault).

Arguments Ok {A} a.
Arguments Fault {A} f.

Definition bind {A B : Type} (m : res A) (k : A -> res B) : res B :=
  match m with
  | Ok a => k a
  | Fault f => Fault f
  end.

Notation "x <- m ;; k" := (bind m (fun x => k))
  (at level 100, m at next level, right associativity).

(** ** Machine integers *)

Definition INT_MIN : Z := -2147483648.
Definition INT_MAX : Z := 2147483647.
Definition LLONG_MIN : Z := -9223372036854775808.
Definition LLONG_MAX : Z := 9223372036854775807.

Definition in_int (z : Z) : bool := (INT_MIN <=? z) && (z <=? INT_MAX).
Definition in_llong (z : Z) : bool := (LLONG_MIN <=? z) && (z <=? LLONG_MAX).

Definition int_of (z : Z) : res Z := if in_int z then Ok z else Fault Overflow.
Definition llong_of (z : Z) : res Z := if in_llong z then Ok z else Fault Overflow.

Definition int_add (a b : Z) : res Z := int_of (a + b).
Definition int_sub (a b : Z) : res Z := int_of (a - b).
Definition int_mul (a b : Z) : res Z := int_of (a * b).
Definition llong_add (a b : Z) : res Z := llong_of (a + b).

(** ** Loops *)

(** The values [0, 1, ..., n-1] taken by the counter of
    [for(int i=0;i<n;++i)]. *)
Definition range (n : Z) : list Z := map Z.of_nat (seq 0 (Z.to_nat n)).

(** A [for] loop that updates a state. *)
Fixpoint for_each {S : Type} (l : list Z) (body : Z -> S -> res S) (s : S)
  : res S :=
  match l with
  | [] => Ok s
  | i :: l' => s' <- body i s ;; for_each l' body s'
  end.

(** A [for] loop that is left as soon as its body answers [true]
    ([return true] or [break] in the source). *)
Fixpoint for_any (l : list Z) (body : Z -> res bool) : res bool :=
  match l with
  | [] => Ok false
  | i :: l' => b <- body i ;; if b then Ok true else for_any l' body
  end.

(** ** Containers *)

(** [std::array<T,4>] *)
Definition arr4 (A : Type) : Type := (A * A * A * A)%type.

Definition get4 {A : Type} (a : arr4 A) (i : Z) : res A :=
  let '(a0, a1, a2, a3) := a in
  match i with
  | 0 => Ok a0
  | 1 => Ok a1
  | 2 => Ok a2
  | 3 => Ok a3
  | _ => Fault OutOfBounds
  end.

Definition set4 {A : Type} (a : arr4 A) (i : Z) (v : A) : res (arr4 A) :=
  let '(a0, a1, a2, a3) := a in
  match i with
  | 0 => Ok (v, a1, a2, a3)
  | 1 => Ok (a0, v, a2, a3)
  | 2 => Ok (a0, a1, v, a3)
  | 3 => Ok (a0, a1, a2, v)
  | _ => Fault OutOfBounds
  end.

(** [v[i]] on a [std::vector], read. *)
Definition vec_get {A : Type} (v : list A) (i : Z) : res A :=
  if 0 <=? i then
    match v !! Z.to_nat i with
    | Some x => Ok x
    | None => Fault OutOfBounds
    end
  else Fault OutOfBounds.

(** [v[i] = x] on a [std::vector]. *)
Definition vec_set {A : Type} (v : list A) (i : Z) (x : A) : res (list A) :=
  if (0 <=? i) && (i <? Z.of_nat (length v)) then Ok (<[Z.to_nat i := x]> v)
  else Fault OutOfBounds.

(** [s[i]] on a [std::string]: the character at [i]; at [i = s.size()]
    the null character; undefined beyond. *)
Definition str_get (s : string) (i : Z) : res ascii :=
  if 0 <=? i then
    match String.get (Z.to_nat i) s with
    | Some ch => Ok ch
    | None =>
      if i =? Z.of_nat (String.length s) then Ok Ascii.zero
      else Fault OutOfBounds
    end
  else Fault OutOfBounds.

(** ** Board size *)

Definition BOARD_W : Z := 10.
Definition BOARD_H : Z := 20.

(** ** Tetromino definitions *)

Definition TETROMINO : list (list string) :=
  [ (* I *) ["...."; "XXXX"; "...."; "...."];
    (* J *) ["X.."; "XXX"; "..."];
    (* L *) ["..X"; "XXX"; "..."];
    (* O *) ["XX"; "XX"];
    (* S *) [".XX"; "XX."; "..."];
    (* T *) [".X."; "XXX"; "..."];
    (* Z *) ["XX."; ".XX"; "..."] ]%string.

Record Piece : Type := mkPiece {
  cells : arr4 (arr4 Z);   (* 0 or 1 *)
  size : Z                 (* 2, 3 or 4 *)
}.

Definition zero_row : arr4 Z := (0, 0, 0, 0).
Definition zero_cells : arr4 (arr4 Z) := (zero_row, zero_row, zero_row, zero_row).

(** [p.cells[r][c]] *)
Definition cell_get (p : Piece) (r c : Z) : res Z :=
  row <- get4 (cells p) r ;; get4 row c.

(** [p.cells[r][c] = v] *)
Definition cell_set (p : Piece) (r c v : Z) : res Piece :=
  row <- get4 (cells p) r ;;
  row' <- set4 row c v ;;
  cs <- set4 (cells p) r row' ;;
  Ok (mkPiece cs (size p)).

Definition with_size (p : Piece) (n : Z) : Piece := mkPiece (cells p) n.

Definition is_X (ch : ascii) : bool := Ascii.eqb ch "X"%char.

(** The lambda [toPiece] of [initPieces]. *)
Definition toPiece (shape : list string) : res Piece :=
  let p := with_size (mkPiece zero_cells 0) (Z.of_nat (length shape)) in
  p <- for_each (range (size p)) (fun r p =>
         for_each (range (size p)) (fun c p =>
           line <- vec_get shape r ;;
           ch <- str_get line c ;;
           cell_set p r c (if is_X ch then 1 else 0)) p) p ;;
  let out := with_size (mkPiece zero_cells 0) 4 in
  out <- for_each (range 4) (fun r out =>
           for_each (range 4) (fun c out => cell_set out r c 0) out) out ;;
  for_each (range (size p)) (fun r out =>
    for_each (range (size p)) (fun c out =>
      v <- cell_get p r c ;; cell_set out r c v) out) out.

(** [initPieces] appends one normalised piece per tetromino to the global
    vector [pieces]; the argument is that vector before the call. *)
Fixpoint initPieces_loop (shapes : list (list string)) (acc : list Piece)
  : res (list Piece) :=
  match shapes with
  | [] => Ok acc
  | s :: shapes' => p <- toPiece s ;; initPieces_loop shapes' (acc ++ [p])
  end.

Definition initPieces (acc : list Piece) : res (list Piece) :=
  initPieces_loop TETROMINO acc.

(** The global [pieces] once [main] has called [initPieces]. *)
Definition pieces : list Piece :=
  match initPieces [] with
  | Ok ps => ps
  | Fault _ => []
  end.

(** One pass of the body of the [while] loop of [rotatePiece]. *)
Definition rotate_once (cur : Piece) : res Piece :=
  let nw := with_size (mkPiece zero_cells 0) 4 in
  for_each (range 4) (fun r nw =>
    for_each (range 4) (fun c nw =>
      v <- cell_get cur (3 - c) r ;; cell_set nw r c v) nw) nw.

(** [while(times--)] for a counter that starts at [times >= 0]. *)
Fixpoint rotate_loop (times : nat) (cur : Piece) : res Piece :=
  match times with
  | O => Ok cur
  | S t => nw <- rotate_once cur ;; rotate_loop t nw
  end.

(** Rotate 4x4 piece clockwise [times]; [%] of C++ truncates, as [Z.rem]. *)
Definition rotatePiece (p : Piece) (times : Z) : res Piece :=
  let times := Z.rem (Z.rem times 4 + 4) 4 in
  rotate_loop (Z.to_nat times) p.

(** ** Game state *)

Record Game : Type := mkGame {
  board : list (list Z);   (* 0 empty, >0 filled piece id *)
  curPieceId : Z;
  curRot : Z;              (* 0..3 *)
  curX : Z;
  curY : Z;                (* position of top-left of 4x4 block *)
  nextPieceId : Z;
  gameOver : bool;
  score : Z;               (* long long *)
  level : Z;
  linesCleared : Z
}.

Definition with_board (g : Game) (b : list (list Z)) : Game :=
  mkGame b (curPieceId g) (curRot g) (curX g) (curY g) (nextPieceId g)
         (gameOver g) (score g) (level g) (linesCleared g).
Definition with_curRot (g : Game) (v : Z) : Game :=
  mkGame (board g) (curPieceId g) v (curX g) (curY g) (nextPieceId g)
         (gameOver g) (score g) (level g) (linesCleared g).
Definition with_curX (g : Game) (v : Z) : Game :=
  mkGame (board g) (curPieceId g) (curRot g) v (curY g) (nextPieceId g)
         (gameOver g) (score g) (level g) (linesCleared g).
Definition with_curY (g : Game) (v : Z) : Game :=
  mkGame (board g) (curPieceId g) (curRot g) (curX g) v (nextPieceId g)
         (gameOver g) (score g) (level g) (linesCleared g).
Definition with_gameOver (g : Game) (v : bool) : Game :=
  mkGame (board g) (curPieceId g) (curRot g) (curX g) (curY g) (nextPieceId g)
         v (score g) (level g) (linesCleared g).

(** [b[r][c]] and [b[r][c] = v] on the board. *)
Definition board_get (b : list (list Z)) (r c : Z) : res Z :=
  row <- vec_get b r ;; vec_get row c.

Definition board_set (b : list (list Z)) (r c v : Z) : res (list (list Z)) :=
  row <- vec_get b r ;;
  row' <- vec_set row c v ;;
  vec_set b r row'.

(** ** Utilities *)

(** The body of the two nested loops of [collides] for the frame cell
    [(r, c)]; [true] stands for [return true]. *)
Definition collides_cell (g : Game) (p : Piece) (x y r c : Z) : res bool :=
  v <- cell_get p r c ;;
  if v =? 0 then Ok false
  else
    br <- int_add y r ;;
    bc <- int_add x c ;;
    if (bc <? 0) || (bc >=? BOARD_W) || (br >=? BOARD_H) then Ok true
    else if br >=? 0 then
      w <- board_get (board g) br bc ;;
      Ok (negb (w =? 0))
    else Ok false.

Definition collides (g : Game) (pieceId rot x y : Z) : res bool :=
  p0 <- vec_get pieces pieceId ;;
  p <- rotatePiece p0 rot ;;
  for_any (range 4) (fun r =>
    for_any (range 4) (fun c => collides_cell g p x y r c)).

(** The body of the two nested loops of [placePiece], on the board. *)
Definition place_cell (g : Game) (p : Piece) (r c : Z) (b : list (list Z))
  : res (list (list Z)) :=
  v <- cell_get p r c ;;
  if v =? 0 then Ok b
  else
    br <- int_add (curY g) r ;;
    bc <- int_add (curX g) c ;;
    if (br >=? 0) && (br <? BOARD_H) && (bc >=? 0) && (bc <? BOARD_W) then
      id1 <- int_add (curPieceId g) 1 ;;
      board_set b br bc id1
    else Ok b.

Definition placePiece (g : Game) : res Game :=
  p0 <- vec_get pieces (curPieceId g) ;;
  p <- rotatePiece p0 (curRot g) ;;
  b <- for_each (range 4) (fun r b =>
         for_each (range 4) (fun c b => place_cell g p r c b) b) (board g) ;;
  Ok (with_board g b).

(** The scan of row [r] in [clearLines]: [full] after the inner loop. *)
Definition row_full (b : list (list Z)) (r : Z) : res bool :=
  hole <- for_any (range BOARD_W) (fun c =>
            v <- board_get b r c ;; Ok (v =? 0)) ;;
  Ok (negb hole).

(** [for(int rr=r; rr>0; --rr) g.board[rr] = g.board[rr-1];] with the
    counter [rr] as the natural number [S m]. *)
Fixpoint shift_rows (rr : nat) (b : list (list Z)) : res (list (list Z)) :=
  match rr with
  | O => Ok b
  | S m =>
    row <- vec_get b (Z.of_nat m) ;;
    b' <- vec_set b (Z.of_nat (S m)) row ;;
    shift_rows m b'
  end.

(** The outer loop of [clearLines], entered with counter [r]; a cleared row
    is visited again ([++r] followed by the loop's [--r]). *)
Fixpoint clear_loop (fuel : nat) (r : Z) (b : list (list Z)) (cleared : Z)
  : res (list (list Z) * Z) :=
  match fuel with
  | O => Fault OutOfFuel
  | S fuel' =>
    if r >=? 0 then
      full <- row_full b r ;;
      if full then
        cleared' <- int_add cleared 1 ;;
        b1 <- shift_rows (Z.to_nat r) b ;;
        b2 <- vec_set b1 0 (replicate (Z.to_nat BOARD_W) 0) ;;
        r1 <- int_add r 1 ;;
        r2 <- int_sub r1 1 ;;
        clear_loop fuel' r2 b2 cleared'
      else
        r' <- int_sub r 1 ;;
        clear_loop fuel' r' b cleared
    else Ok (b, cleared)
  end.

Definition scoreTable : list Z := [0; 40; 100; 300; 1200].

(** Every pass of the outer loop either moves to the row above or removes a
    full row, and a board of [BOARD_H] rows has at most [BOARD_H] of each. *)
Definition clear_fuel : nat := Z.to_nat (2 * BOARD_H + 1).

(** The [for] loop of [clearLines] alone: the board and the local
    [cleared] when the loop is left. *)
Definition clearRows (b : list (list Z)) : res (list (list Z) * Z) :=
  clear_loop clear_fuel (BOARD_H - 1) b 0.

(** The block [if(cleared>0){ ... }] of [clearLines]. *)
Definition addScore (g : Game) (cleared : Z) : res Game :=
  if cleared >? 0 then
    t <- vec_get scoreTable cleared ;;
    d <- int_mul t (level g) ;;
    s <- llong_add (score g) d ;;
    l <- int_add (linesCleared g) cleared ;;
    lv <- int_add 1 (Z.quot l 10) ;;
    Ok (mkGame (board g) (curPieceId g) (curRot g) (curX g) (curY g)
               (nextPieceId g) (gameOver g) s lv l)
  else Ok g.

(** [clearLines] returns the game and the count of cleared rows. *)
Definition clearLines (g : Game) : res (Game * Z) :=
  bc <- clearRows (board g) ;;
  g' <- addScore (with_board g (fst bc)) (snd bc) ;;
  Ok (g', snd bc).

(** [spawnPiece]; [rnd] is the value that the call of [rand()] returns
    (between 0 and [RAND_MAX]). *)
Definition spawnPiece (rnd : Z) (g : Game) : res Game :=
  let g := mkGame (board g) (nextPieceId g) 0 (Z.quot BOARD_W 2 - 2) (-2)
                  (rnd mod Z.of_nat (length pieces))
                  (gameOver g) (score g) (level g) (linesCleared g) in
  c <- collides g (curPieceId g) (curRot g) (curX g) (curY g) ;;
  if c then Ok (with_gameOver g true) else Ok g.

(** ** The handlers of [main]

    The handlers are written inline in the input loop and after it; each
    one is given a name here. *)

(** Key [a]: [if(!collides(g, .., g.curX-1, g.curY)) g.curX--;] *)
Definition moveLeft (g : Game) : res Game :=
  x' <- int_sub (curX g) 1 ;;
  c <- collides g (curPieceId g) (curRot g) x' (curY g) ;;
  if negb c then x'' <- int_sub (curX g) 1 ;; Ok (with_curX g x'')
  else Ok g.

(** Key [d]: [if(!collides(g, .., g.curX+1, g.curY)) g.curX++;] *)
Definition moveRight (g : Game) : res Game :=
  x' <- int_add (curX g) 1 ;;
  c <- collides g (curPieceId g) (curRot g) x' (curY g) ;;
  if negb c then x'' <- int_add (curX g) 1 ;; Ok (with_curX g x'')
  else Ok g.

(** Key [w]: [int newRot = (g.curRot+1)%4; if(!collides(..)) g.curRot = newRot;] *)
Definition rotateCW (g : Game) : res Game :=
  r1 <- int_add (curRot g) 1 ;;
  let newRot := Z.rem r1 4 in
  c <- collides g (curPieceId g) newRot (curX g) (curY g) ;;
  if negb c then Ok (with_curRot g newRot) else Ok g.

(** [placePiece(g); clearLines(g); spawnPiece(g);] *)
Definition lockPiece (rnd : Z) (g : Game) : res Game :=
  g1 <- placePiece g ;;
  gc <- clearLines g1 ;;
  spawnPiece rnd (fst gc).

(** [while(!collides(g, .., g.curX, g.curY+1)) g.curY++;] *)
Fixpoint drop_loop (fuel : nat) (g : Game) : res Game :=
  match fuel with
  | O => Fault OutOfFuel
  | S fuel' =>
    y' <- int_add (curY g) 1 ;;
    c <- collides g (curPieceId g) (curRot g) (curX g) y' ;;
    if negb c then y'' <- int_add (curY g) 1 ;; drop_loop fuel' (with_curY g y'')
    else Ok g
  end.

(** A piece with a cell set collides once that cell is below the floor, so
    the loop above tests at most [BOARD_H - curY + 1] positions. *)
Definition drop_fuel (g : Game) : nat := S (Z.to_nat (BOARD_H - curY g)).

(** The state of [main]: the game, the flag [paused] and the number of
    calls of [rand()] made so far.  The clock [lastFall] is not part of it:
    its only use is the test [elapsed >= gravityInterval], whose outcome is
    an input of each pass (see [Frame]). *)
Record State : Type := mkState {
  game : Game;
  paused : bool;
  nrand : nat
}.

Definition with_game (st : State) (g : Game) : State :=
  mkState g (paused st) (nrand st).

(** [kbHit()] and [getChNonBlocking()] ask the terminal: the console
    queue through [_kbhit] and [_getch] in the [_WIN32] branch, [select] on
    the descriptor and [getchar] on the buffered stream in the other one.
    What they return is an input of the program.  The terminal is the list
    of the values that it returns to the successive calls, in the order of
    the calls, whichever of the two functions is called; a terminal with no
    answer left has nothing waiting: [kbHit()] returns 0 and
    [getChNonBlocking()] returns -1. *)
Definition kbHit (t : list Z) : Z * list Z :=
  match t with
  | [] => (0, [])
  | a :: t' => (a, t')
  end.

Definition getChNonBlocking (t : list Z) : Z * list Z :=
  match t with
  | [] => (-1, [])
  | a :: t' => (a, t')
  end.

(** What one pass of the outer loop of [main] receives from outside: the
    answers of the terminal to the calls of this pass and the outcome of the
    test [elapsed >= gravityInterval].  The clock and the floating-point
    interval are not modelled; the outcome of the test is any boolean.
    Drawing and sleeping do not touch the game and are left out. *)
Record Frame : Type := mkFrame {
  answers : list Z;
  fall_due : bool
}.

Section Main.

(** The sequence of values that the successive calls of [rand()] return. *)
Variable rand : nat -> Z.

(** The lock sequence of [main], drawing the next kind from [rand]. *)
Definition lock (st : State) : res State :=
  g <- lockPiece (rand (nrand st)) (game st) ;;
  Ok (mkState g (paused st) (S (nrand st))).

(** Key [s]: one row down, or lock. *)
Definition softDrop (st : State) : res State :=
  let g := game st in
  y' <- int_add (curY g) 1 ;;
  c <- collides g (curPieceId g) (curRot g) (curX g) y' ;;
  if negb c then y'' <- int_add (curY g) 1 ;; Ok (with_game st (with_curY g y''))
  else lock st.

(** Key space: down as far as possible, then lock. *)
Definition hardDrop (st : State) : res State :=
  g <- drop_loop (drop_fuel (game st)) (game st) ;;
  lock (with_game st g).

(** The fall of the piece when [elapsed >= gravityInterval]. *)
Definition gravityTick (st : State) : res State :=
  let g := game st in
  y' <- int_add (curY g) 1 ;;
  c <- collides g (curPieceId g) (curRot g) (curX g) y' ;;
  if negb c then y'' <- int_add (curY g) 1 ;; Ok (with_game st (with_curY g y''))
  else lock st.

(** The chain of [if]s on the key [ch]; the boolean of the result is
    [true] when the input loop is left by [break]. *)
Definition handleKey (ch : Z) (st : State) : res (State * bool) :=
  if (ch =? 113) || (ch =? 81) then                         (* q Q *)
    Ok (with_game st (with_gameOver (game st) true), true)
  else if (ch =? 112) || (ch =? 80) then                    (* p P *)
    Ok (mkState (game st) (negb (paused st)) (nrand st), false)
  else if negb (paused st) then
    if (ch =? 97) || (ch =? 65) then                        (* a A *)
      g <- moveLeft (game st) ;; Ok (with_game st g, false)
    else if (ch =? 100) || (ch =? 68) then                  (* d D *)
      g <- moveRight (game st) ;; Ok (with_game st g, false)
    else if (ch =? 115) || (ch =? 83) || (ch =? 66) then    (* s S B *)
      st' <- softDrop st ;; Ok (st', false)
    else if (ch =? 119) || (ch =? 87) || (ch =? 65) then    (* w W A *)
      g <- rotateCW (game st) ;; Ok (with_game st g, false)
    else if ch =? 32 then                                   (* space *)
      st' <- hardDrop st ;; Ok (st', false)
    else Ok (st, false)
  else Ok (st, false).

(** The key handled once the arrow sequence [ESC [ n2] has been read. *)
Definition arrowKey (n2 : Z) : Z :=
  if n2 =? 65 then 119            (* up: w *)
  else if n2 =? 66 then 115       (* down: s *)
  else if n2 =? 67 then 100       (* right: d *)
  else if n2 =? 68 then 97        (* left: a *)
  else 27.

Definition andThen (r : res (State * bool)) (k : State -> res State)
  : res State :=
  sb <- r ;; if snd sb then Ok (fst sb) else k (fst sb).

(** [while(kbHit()){ int ch = getChNonBlocking(); if(ch==-1) break; ... }]
    on the terminal [t]: the arrow sequence is read without asking
    [kbHit()] again, and the chain of [if]s then handles [ch]. *)
Fixpoint input_loop (fuel : nat) (t : list Z) (st : State) : res State :=
  match fuel with
  | O => Fault OutOfFuel
  | S fuel' =>
    let '(hit, t) := kbHit t in
    if hit =? 0 then Ok st
    else
      let '(ch, t) := getChNonBlocking t in
      if ch =? -1 then Ok st
      else
        let '(ch, t) :=
          if ch =? 27 then
            let '(n1, t) := getChNonBlocking t in
            if n1 =? 91 then
              let '(n2, t) := getChNonBlocking t in
              (arrowKey n2, t)
            else (ch, t)
          else (ch, t) in
        andThen (handleKey ch st) (input_loop fuel' t)
  end.

(** Every pass of the loop that goes on takes an answer from the
    terminal. *)
Definition inputLoop (t : list Z) (st : State) : res State :=
  input_loop (S (length t)) t st.

(** One pass of [while(true)] after the test of [g.gameOver]. *)
Definition frame (f : Frame) (st : State) : res State :=
  st1 <- inputLoop (answers f) st ;;
  if paused st1 then Ok st1
  else if fall_due f then gravityTick st1
  else Ok st1.


(** The game that [main] sets up before its loop.  The fields of the
    active piece are not initialised by [main]; [spawnPiece] assigns them
    before they are read. *)
Definition newGame : res State :=
  let g := mkGame (replicate (Z.to_nat BOARD_H) (replicate (Z.to_nat BOARD_W) 0))
                  0 0 0 0 (rand 0 mod Z.of_nat (length pieces)) false 0 1 0 in
  g <- spawnPiece (rand 1) g ;;
  Ok (mkState g false 2).

End Main.

(** ** Draw functions

    In the drawing code a [std::string] is the list of its characters. *)

(** [static const char *ch = "@#%*+xo";] *)
Definition glyphs : list ascii := list_ascii_of_string "@#%*+xo".

Definition blank : ascii := " "%char.

(** [pieceChar]: the one-character string drawn for the cell value [id]. *)
Definition pieceChar (id : Z) : res (list ascii) :=
  if id <=? 0 then Ok [blank]
  else
    i <- int_sub id 1 ;;
    let idx := Z.rem i 7 in
    ch <- vec_get glyphs idx ;;
    Ok [ch].

(** [out[r][c]] and [out[r][c] = ch] on the visual buffer of [drawGame]. *)
Definition buf_get (out : list (list ascii)) (r c : Z) : res ascii :=
  row <- vec_get out r ;; vec_get row c.

Definition buf_set (out : list (list ascii)) (r c : Z) (ch : ascii)
  : res (list (list ascii)) :=
  row <- vec_get out r ;;
  row' <- vec_set row c ch ;;
  vec_set out r row'.

(** The body of the loops that copy the board into the buffer. *)
Definition draw_board_cell (g : Game) (r c : Z) (out : list (list ascii))
  : res (list (list ascii)) :=
  v <- board_get (board g) r c ;;
  if v =? 0 then Ok out
  else
    s <- pieceChar v ;;
    ch <- vec_get s 0 ;;
    buf_set out r c ch.

(** The body of the loops that overlay the current piece. *)
Definition draw_piece_cell (g : Game) (p : Piece) (r c : Z)
           (out : list (list ascii)) : res (list (list ascii)) :=
  v <- cell_get p r c ;;
  if v =? 0 then Ok out
  else
    br <- int_add (curY g) r ;;
    bc <- int_add (curX g) c ;;
    if (br >=? 0) && (br <? BOARD_H) && (bc >=? 0) && (bc <? BOARD_W) then
      id1 <- int_add (curPieceId g) 1 ;;
      s <- pieceChar id1 ;;
      ch <- vec_get s 0 ;;
      buf_set out br bc ch
    else Ok out.

(** The visual buffer that [drawGame] builds before it prints: the board,
    then the current piece over it.  The printing itself (the frame, the
    status line and the preview of the next piece) is not modelled. *)
Definition drawBuffer (g : Game) : res (list (list ascii)) :=
  let out := replicate (Z.to_nat BOARD_H) (replicate (Z.to_nat BOARD_W) blank) in
  out <- for_each (range BOARD_H) (fun r out =>
           for_each (range BOARD_W) (fun c out => draw_board_cell g r c out) out)
           out ;;
  p0 <- vec_get pieces (curPieceId g) ;;
  p <- rotatePiece p0 (curRot g) ;;
  for_each (range 4) (fun r out =>
    for_each (range 4) (fun c out => draw_piece_cell g p r c out) out) out.

(** ** Vocabulary of the statements *)

(** The frame cell [(r, c)] of a piece, 0 outside the frame. *)
Definition cell (p : Piece) (r c : Z) : Z :=
  match cell_get p r c with
  | Ok v => v
  | Fault _ => 0
  end.

(** The sixteen frame cells in the order of the nested loops. *)
Definition frame_cells : list (Z * Z) := list_prod (range 4) (range 4).

(** Number of cells set in the frame. *)
Definition count_set (p : Piece) : nat :=
  length (List.filter (fun rc => negb (cell p (fst rc) (snd rc) =? 0)) frame_cells).

(** One clockwise rotation of the frame, written out cell by cell. *)
Definition rot_cells (cs : arr4 (arr4 Z)) : arr4 (arr4 Z) :=
  let '((a00, a01, a02, a03), (a10, a11, a12, a13),
        (a20, a21, a22, a23), (a30, a31, a32, a33)) := cs in
  ((a30, a20, a10, a00), (a31, a21, a11, a01),
   (a32, a22, a12, a02), (a33, a23, a13, a03)).

Definition rot1 (p : Piece) : Piece := mkPiece (rot_cells (cells p)) 4.

Definition valid_kind (id : Z) : Prop := 0 <= id < Z.of_nat (length pieces).

(** A board of [BOARD_H] rows of [BOARD_W] columns. *)
Definition well_formed (b : list (list Z)) : bool :=
  (Z.of_nat (length b) =? BOARD_H)
  && forallb (fun row => Z.of_nat (length row) =? BOARD_W) b.

Definition board_wf (b : list (list Z)) : Prop := well_formed b = true.

(** The content of the board at [(r, c)], 0 outside the board. *)
Definition at_board (b : list (list Z)) (r c : Z) : Z :=
  match board_get b r c with
  | Ok v => v
  | Fault _ => 0
  end.

(** The anchor [(x, y)] is such that the coordinates of the sixteen frame
    cells are values of type [int]. *)
Definition anchor_ok (x y : Z) : Prop :=
  INT_MIN <= x /\ x + 3 <= INT_MAX /\ INT_MIN <= y /\ y + 3 <= INT_MAX.

(** What [collides] tests for the frame cell [(r, c)]. *)
Definition hits (b : list (list Z)) (p : Piece) (x y r c : Z) : bool :=
  negb (cell p r c =? 0)
  && ((x + c <? 0) || (x + c >=? BOARD_W) || (y + r >=? BOARD_H)
      || ((y + r >=? 0) && negb (at_board b (y + r) (x + c) =? 0))).

(** The board cell [(row, col)] is under a cell set of the piece [p]
    anchored at [(x, y)]. *)
Definition covers (p : Piece) (x y row col : Z) : bool :=
  negb (cell p (row - y) (col - x) =? 0).

(** The frame cell [(r, c)] is set and lands on the board cell
    [(row, col)]; [painted] is the same for some cell of the rows [rs] and
    columns [cs] of the frame. *)
Definition stamp (p : Piece) (x y r c row col : Z) : bool :=
  negb (cell p r c =? 0) && (y + r =? row) && (x + c =? col).

Definition painted (p : Piece) (x y : Z) (rs cs : list Z) (row col : Z) : bool :=
  existsb (fun r => existsb (fun c => stamp p x y r c row col) cs) rs.

Definition full_row (row : list Z) : bool :=
  forallb (fun v => negb (v =? 0)) row.

Definition count_full (b : list (list Z)) : nat :=
  length (List.filter full_row b).

Definition empty_row : list Z := replicate (Z.to_nat BOARD_W) 0.

(** Number of cells filled in a row, in a board. *)
Definition filled_row (row : list Z) : Z :=
  Z.of_nat (length (List.filter (fun v => negb (v =? 0)) row)).

Definition filled (b : list (list Z)) : Z :=
  fold_right (fun row n => filled_row row + n) 0 b.

(** The board after the full rows are removed and as many empty rows are
    put on top. *)
Definition compacted (b : list (list Z)) : list (list Z) :=
  replicate (count_full b) empty_row
  ++ List.filter (fun row => negb (full_row row)) b.

(** What holds of the counters of every session: [main] starts with no
    line and level 1, and only [clearLines] assigns them. *)
Definition session_inv (g : Game) : Prop :=
  0 <= linesCleared g /\ level g = 1 + linesCleared g / 10.

(** The active piece is where the collision check accepts it. *)
Definition legal (g : Game) : Prop :=
  collides g (curPieceId g) (curRot g) (curX g) (curY g) = Ok false.

(** What holds of the game in every pass of the loop of [main]: the board
    has its dimensions and no full row, the kinds are those of the
    catalogue, the active piece is at a legal position, and the counters
    are those of a session. *)
Definition session_ok (g : Game) : Prop :=
  board_wf (board g) /\ count_full (board g) = 0%nat
  /\ valid_kind (curPieceId g) /\ valid_kind (nextPieceId g)
  /\ 0 <= curRot g < 4
  /\ -3 <= curX g <= BOARD_W - 1 /\ -2 <= curY g <= BOARD_H - 1
  /\ legal g
  /\ 0 <= score g /\ session_inv g.

(** Room for one more clear event in the counters. *)
Definition headroom (g : Game) : Prop :=
  linesCleared g + 4 <= INT_MAX
  /\ 1200 * level g <= INT_MAX
  /\ score g + 1200 * level g <= LLONG_MAX.

(** The game after a clear event: the board compacted, and for [n] rows
    cleared, [n] at least 1, the score, the lines and the level of
    [clearLines]. *)
Definition after_clear (g : Game) : Game :=
  let n := count_full (board g) in
  mkGame (compacted (board g)) (curPieceId g) (curRot g) (curX g) (curY g)
         (nextPieceId g) (gameOver g)
         (score g + nth n scoreTable 0 * level g)
         (if (n =? 0)%nat then level g
          else 1 + (linesCleared g + Z.of_nat n) / 10)
         (linesCleared g + Z.of_nat n).

(** The score, line and level arithmetic of [clearLines] for [n] cleared
    rows stays inside [int] and [long long]. *)
Definition progression_fits (g : Game) (n : nat) : Prop :=
  nth n scoreTable 0 * level g <= INT_MAX
  /\ LLONG_MIN <= score g
  /\ score g + nth n scoreTable 0 * level g <= LLONG_MAX
  /\ linesCleared g + Z.of_nat n <= INT_MAX.

(** Two boards for the examples: the empty one, and one whose bottom row
    lacks the four cells of columns 3 to 6; and a game in which an I piece
    lies flat in that gap. *)
Definition empty_board : list (list Z) :=
  replicate (Z.to_nat BOARD_H) empty_row.

Definition almost_board : list (list Z) :=
  replicate 19 empty_row ++ [[1; 1; 1; 0; 0; 0; 0; 1; 1; 1]].

Definition demo_game : Game := mkGame almost_board 0 0 3 18 5 false 0 1 0.

(** A board whose bottom row is full, in a game at level 3 with 25 lines;
    an O piece that overlaps the top edge of the empty board; a generator
    that always answers 0; and the state of [main] for [demo_game] once the
    key [q] has been handled. *)
Definition full_bottom_board : list (list Z) :=
  replicate 19 empty_row ++ [replicate 10 1].

Definition level3_game : Game :=
  mkGame full_bottom_board 2 1 4 0 6 false 1000 3 25.

Definition top_game : Game := mkGame empty_board 3 0 4 (-1) 0 false 0 1 0.

Definition rand0 : nat -> Z := fun _ => 0.


(** The operations of a session on the state of [main]. *)
Inductive Op : Type :=
| MoveLeft | MoveRight | RotateCW | SoftDrop | HardDrop | GravityTick.

Definition apply_op (rand : nat -> Z) (o : Op) (st : State) : res State :=
  match o with
  | MoveLeft => g <- moveLeft (game st) ;; Ok (with_game st g)
  | MoveRight => g <- moveRight (game st) ;; Ok (with_game st g)
  | RotateCW => g <- rotateCW (game st) ;; Ok (with_game st g)
  | SoftDrop => softDrop rand st
  | HardDrop => hardDrop rand st
  | GravityTick => gravityTick rand st
  end.

(** A key other than q, Q, p and P. *)
Definition quiet (ch : Z) : Prop :=
  ch <> 113 /\ ch <> 81 /\ ch <> 112 /\ ch <> 80.

(** The character drawn for the cell value [id]. *)
Definition glyph (id : Z) : ascii :=
  match pieceChar id with
  | Ok (ch :: _) => ch
  | _ => blank
  end.

(** A buffer of [BOARD_H] strings of [BOARD_W] characters, and its
    character at [(r, c)], a blank outside. *)
Definition buf_wf (out : list (list ascii)) : Prop :=
  Z.of_nat (length out) = BOARD_H
  /\ forall row, In row out -> Z.of_nat (length row) = BOARD_W.

Definition at_buf (out : list (list ascii)) (r c : Z) : ascii :=
  match buf_get out r c with
  | Ok ch => ch
  | Fault _ => blank
  end.

(** Every cell of the board holds a value of type [int]. *)
Definition cells_int (b : list (list Z)) : bool :=
  forallb (forallb in_int) b.

(** The sum over the frame of 1 for a cell set, 0 for a cell not set. *)
Definition set_sum (p : Piece) : nat :=
  fold_right (fun rc n =>
                Nat.add (if negb (cell p (fst rc) (snd rc) =? 0) then 1%nat else 0%nat) n)
             0%nat frame_cells.

(** A board stacked to the top, every row lacking its last cell, and a T
    piece that has just been spawned over it. *)
Definition stacked_board : list (list Z) :=
  replicate 20 [1; 1; 1; 1; 1; 1; 1; 1; 1; 0].

Definition stacked_game : Game := mkGame stacked_board 5 0 3 (-2) 1 false 0 1 0.

(** Every cell of the board is empty or holds a kind identifier plus one. *)
Definition cells_kind (b : list (list Z)) : bool :=
  forallb (forallb (fun v => (0 <=? v) && (v <=? 7))) b.

(** A shape that [toPiece] can take: at most 4 strings, each with at least
    as many characters as there are strings; and its character at
    [(r, c)], a dot where there is none. *)
Definition shape_ok (shape : list string) : bool :=
  (length shape <=? 4)%nat
  && forallb (fun line => (length shape <=? String.length line)%nat) shape.

Definition char_at (shape : list string) (r c : Z) : ascii :=
  match vec_get shape r with
  | Ok line =>
    match str_get line c with
    | Ok ch => ch
    | Fault _ => "."%char
    end
  | Fault _ => "."%char
  end.

(** The key that the next pass of the input loop handles on the terminal
    [t], with the terminal after it; [None] when the loop is left before a
    key is handled. *)
Definition next_key (t : list Z) : option (Z * list Z) :=
  let '(hit, t) := kbHit t in
  if hit =? 0 then None
  else
    let '(ch, t) := getChNonBlocking t in
    if ch =? -1 then None
    else if ch =? 27 then
      let '(n1, t) := getChNonBlocking t in
      if n1 =? 91 then
        let '(n2, t) := getChNonBlocking t in Some (arrowKey n2, t)
      else Some (ch, t)
    else Some (ch, t).

(** A terminal that reports each character of [l] as waiting, and then
    delivers it. *)
Definition presses (l : list Z) : list Z := flat_map (fun ch => [1; ch]) l.

(** The state of [main] with the game-over flag set. *)
Definition flagged (st : State) : State :=
  with_game st (with_gameOver (game st) true).

(** * Properties *)

(** ** The monad and the loops *)

Lemma bind_Ok {A B : Type} (m : res A) (k : A -> res B) (b : B) :
  bind m k = Ok b -> exists a, m = Ok a /\ k a = Ok b.
Proof. destruct m as [a|f]; simpl; [eauto | discriminate]. Qed.

(** Inversion of a computation that returned. *)
Ltac inv_res :=
  repeat match goal with
  | H : bind _ _ = Ok _ |- _ =>
    let a := fresh "a" in
    let Ha := fresh "Ha" in
    apply bind_Ok in H; destruct H as (a & Ha & H)
  | H : (if ?c then _ else _) = Ok _ |- _ => destruct c eqn:?
  | H : Ok _ = Ok _ |- _ => injection H as H
  | H : Fault _ = Ok _ |- _ => discriminate H
  end.

Lemma in_range (n i : Z) : In i (range n) <-> 0 <= i < n.
Proof.
  unfold range. rewrite in_map_iff. split.
  - intros (k & <- & Hk). apply in_seq in Hk. lia.
  - intros Hi. exists (Z.to_nat i). split; [lia |]. apply in_seq. lia.
Qed.

Lemma int_of_ok (z : Z) : INT_MIN <= z <= INT_MAX -> int_of z = Ok z.
Proof.
  intros Hz. unfold int_of, in_int.
  destruct (Z.leb_spec INT_MIN z), (Z.leb_spec z INT_MAX); simpl; (reflexivity || lia).
Qed.

Lemma llong_of_ok (z : Z) : LLONG_MIN <= z <= LLONG_MAX -> llong_of z = Ok z.
Proof.
  intros Hz. unfold llong_of, in_llong.
  destruct (Z.leb_spec LLONG_MIN z), (Z.leb_spec z LLONG_MAX); simpl; (reflexivity || lia).
Qed.

Lemma int_of_inv (z v : Z) : int_of z = Ok v -> v = z /\ INT_MIN <= z <= INT_MAX.
Proof.
  unfold int_of, in_int.
  destruct (Z.leb_spec INT_MIN z), (Z.leb_spec z INT_MAX); simpl;
    intros [= <-] || discriminate. lia.
Qed.

(** A loop with exit whose body is a pure test computes [existsb]. *)
Lemma for_any_existsb (l : list Z) (body : Z -> res bool) (f : Z -> bool) :
  (forall i, In i l -> body i = Ok (f i)) ->
  for_any l body = Ok (existsb f l).
Proof.
  induction l as [|i l IH]; intros Hb; simpl; [reflexivity |].
  rewrite (Hb i) by (left; reflexivity). simpl.
  destruct (f i); simpl; [reflexivity |].
  apply IH. intros j Hj. apply Hb. right. exact Hj.
Qed.

(** A loop maintains an invariant indexed by the counters already seen. *)
Lemma for_each_inv {S : Type} (Inv : list Z -> S -> Prop) (body : Z -> S -> res S) :
  forall (l seen : list Z) (s : S),
    Inv seen s ->
    (forall seen' i s', In i l -> Inv seen' s' ->
       exists s'', body i s' = Ok s'' /\ Inv (seen' ++ [i]) s'') ->
    exists s', for_each l body s = Ok s' /\ Inv (seen ++ l) s'.
Proof.
  induction l as [|i l IH]; intros seen s Hs Hstep; simpl.
  - exists s. rewrite app_nil_r. auto.
  - destruct (Hstep seen i s) as (s1 & -> & H1); [left; reflexivity | exact Hs |].
    simpl. destruct (IH (seen ++ [i]) s1 H1) as (s2 & -> & H2).
    + intros seen' j s' Hj. apply Hstep. right. exact Hj.
    + exists s2. rewrite <- app_assoc in H2. auto.
Qed.

(** ** Pieces and rotation *)

Lemma cell_outside (p : Piece) (r c : Z) :
  ~ (0 <= r < 4 /\ 0 <= c < 4) -> cell p r c = 0.
Proof.
  intros Hout. unfold cell, cell_get.
  destruct p as [[[[r0 r1] r2] r3] sz]; simpl.
  destruct r as [|[[|[]|]|[|[]|]|]|]; simpl; try reflexivity.
  all: match goal with
       | |- context [get4 ?row _] => destruct row as [[[v0 v1] v2] v3]
       end.
  all: destruct c as [|[[|[]|]|[|[]|]|]|]; simpl; try reflexivity; lia.
Qed.

Lemma cell_get_cell (p : Piece) (r c : Z) :
  0 <= r < 4 -> 0 <= c < 4 -> cell_get p r c = Ok (cell p r c).
Proof.
  intros Hr Hc. unfold cell.
  assert (Hr' : r = 0 \/ r = 1 \/ r = 2 \/ r = 3) by lia.
  assert (Hc' : c = 0 \/ c = 1 \/ c = 2 \/ c = 3) by lia.
  destruct p as [[[[[[[? ?] ?] ?] [[[? ?] ?] ?]] [[[? ?] ?] ?]] [[[? ?] ?] ?]] sz].
  destruct Hr' as [->|[->|[->| ->]]], Hc' as [->|[->|[->| ->]]]; reflexivity.
Qed.

Lemma rotate_once_rot1 (p : Piece) : rotate_once p = Ok (rot1 p).
Proof.
  destruct p as [[[[[[[? ?] ?] ?] [[[? ?] ?] ?]] [[[? ?] ?] ?]] [[[? ?] ?] ?]] sz].
  reflexivity.
Qed.

Lemma rotate_loop_iter (n : nat) (p : Piece) :
  rotate_loop n p = Ok (Nat.iter n rot1 p).
Proof.
  revert p. induction n as [|n IH]; intros p; simpl; [reflexivity |].
  rewrite rotate_once_rot1. simpl. rewrite IH. f_equal.
  clear IH. induction n as [|n IH]; simpl; [reflexivity |]. now rewrite IH.
Qed.

Lemma times_norm (times : Z) : Z.rem (Z.rem times 4 + 4) 4 = times mod 4.
Proof.
  pose proof (Z.rem_bound_abs times 4 ltac:(lia)) as Hb.
  pose proof (Z.quot_rem' times 4) as Hq.
  rewrite Z.rem_mod_nonneg by lia.
  rewrite <- (Z.mod_add (Z.rem times 4 + 4) (Z.quot times 4 - 1) 4) by lia.
  f_equal. lia.
Qed.

Lemma rotatePiece_iter (p : Piece) (times : Z) :
  rotatePiece p times = Ok (Nat.iter (Z.to_nat (times mod 4)) rot1 p).
Proof. unfold rotatePiece. rewrite times_norm. apply rotate_loop_iter. Qed.

Lemma rot_cells_4 (cs : arr4 (arr4 Z)) :
  rot_cells (rot_cells (rot_cells (rot_cells cs))) = cs.
Proof.
  destruct cs as [[[[[[? ?] ?] ?] [[[? ?] ?] ?]] [[[? ?] ?] ?]] [[[? ?] ?] ?]].
  reflexivity.
Qed.

Lemma mod4_cases (t : Z) :
  t mod 4 = 0 \/ t mod 4 = 1 \/ t mod 4 = 2 \/ t mod 4 = 3.
Proof. pose proof (Z.mod_pos_bound t 4). lia. Qed.

Lemma length_pieces : Z.of_nat (length pieces) = 7.
Proof. reflexivity. Qed.

Lemma valid_kind_cases (id : Z) :
  valid_kind id ->
  id = 0 \/ id = 1 \/ id = 2 \/ id = 3 \/ id = 4 \/ id = 5 \/ id = 6.
Proof. unfold valid_kind. rewrite length_pieces. lia. Qed.

Lemma valid_kind_intro (id : Z) : 0 <= id < 7 -> valid_kind id.
Proof. unfold valid_kind. now rewrite length_pieces. Qed.

Lemma anchor_ok_small (x y : Z) :
  -1000 <= x <= 1000 -> -1000 <= y <= 1000 -> anchor_ok x y.
Proof. unfold anchor_ok, INT_MIN, INT_MAX. lia. Qed.

Lemma vec_get_pieces (id : Z) :
  valid_kind id -> exists p0, vec_get pieces id = Ok p0 /\ size p0 = 4.
Proof.
  intros Hid. apply valid_kind_cases in Hid.
  destruct Hid as [->|[->|[->|[->|[->|[->| ->]]]]]];
    eexists; (split; [reflexivity | reflexivity]).
Qed.

(** With a frame of size 4 the composition law holds for the whole
    [Piece], not only for its cells. *)
Lemma rotatePiece_add_sized (p : Piece) (t1 t2 : Z) :
  size p = 4 ->
  exists q1 q, rotatePiece p t1 = Ok q1 /\ rotatePiece q1 t2 = Ok q
               /\ rotatePiece p (t1 + t2) = Ok q.
Proof.
  intros Hsz. rewrite !rotatePiece_iter. eexists. eexists.
  split; [reflexivity |]. rewrite rotatePiece_iter. split; [reflexivity |].
  f_equal. rewrite Zplus_mod.
  destruct p as [[[[[[[? ?] ?] ?] [[[? ?] ?] ?]] [[[? ?] ?] ?]] [[[? ?] ?] ?]] sz].
  simpl in Hsz. subst sz.
  destruct (mod4_cases t1) as [->|[->|[->| ->]]],
           (mod4_cases t2) as [->|[->|[->| ->]]]; reflexivity.
Qed.

(** C7. Rotation of a 4x4 shape is cyclic of order 4: one clockwise
    rotation satisfies new[r][c] = old[3-c][r] for r, c in [0,4); rotating
    by 4 returns the piece, and so do four successive rotations by 1 on the
    cells; and rotating by t1+t2 gives the cells of rotating by t1 and then
    by t2 (for all integers t1 and t2, the non-negative ones in
    particular), and the same piece when the field size is 4, as it is for
    every piece of the catalogue. *)
Theorem rotatePiece_cyclic (p : Piece) (r c t1 t2 : Z) :
  0 <= r < 4 -> 0 <= c < 4 ->
  (exists q, rotatePiece p 1 = Ok q /\ cell_get q r c = cell_get p (3 - c) r)
  /\ rotatePiece p 4 = Ok p
  /\ (exists q1 q2 q3 q4,
        rotatePiece p 1 = Ok q1 /\ rotatePiece q1 1 = Ok q2
        /\ rotatePiece q2 1 = Ok q3 /\ rotatePiece q3 1 = Ok q4
        /\ cells q4 = cells p)
  /\ (exists q1 q12 q,
        rotatePiece p t1 = Ok q1 /\ rotatePiece q1 t2 = Ok q12
        /\ rotatePiece p (t1 + t2) = Ok q /\ cells q = cells q12
        /\ (size p = 4 -> q = q12)).
Proof.
  intros Hr Hc. split; [| split; [| split]].
  - exists (rot1 p). split; [apply rotatePiece_iter |].
    assert (Hr' : r = 0 \/ r = 1 \/ r = 2 \/ r = 3) by lia.
    assert (Hc' : c = 0 \/ c = 1 \/ c = 2 \/ c = 3) by lia.
    destruct p as [[[[[[[? ?] ?] ?] [[[? ?] ?] ?]] [[[? ?] ?] ?]] [[[? ?] ?] ?]] sz].
    destruct Hr' as [->|[->|[->| ->]]], Hc' as [->|[->|[->| ->]]]; reflexivity.
  - apply rotatePiece_iter.
  - exists (rot1 p), (rot1 (rot1 p)), (rot1 (rot1 (rot1 p))),
      (rot1 (rot1 (rot1 (rot1 p)))).
    repeat (split; [apply rotatePiece_iter |]).
    simpl. apply rot_cells_4.
  - rewrite !rotatePiece_iter. eexists. eexists. eexists.
    split; [reflexivity |]. rewrite rotatePiece_iter.
    split; [reflexivity |]. split; [reflexivity |].
    rewrite Zplus_mod.
    destruct p as [[[[[[[? ?] ?] ?] [[[? ?] ?] ?]] [[[? ?] ?] ?]] [[[? ?] ?] ?]] sz].
    destruct (mod4_cases t1) as [->|[->|[->| ->]]],
             (mod4_cases t2) as [->|[->|[->| ->]]];
      (split; [reflexivity | cbn [size]; intros ->; reflexivity]).
Qed.

Lemma rotatePiece_cyclic_witness :
  (exists q, rotatePiece (mkPiece ((1,2,3,4),(5,6,7,8),(9,10,11,12),(13,14,15,16)) 4) 1 = Ok q
             /\ cell_get q 1 2
                = cell_get (mkPiece ((1,2,3,4),(5,6,7,8),(9,10,11,12),(13,14,15,16)) 4) (3 - 2) 1)
  /\ rotatePiece (mkPiece ((1,2,3,4),(5,6,7,8),(9,10,11,12),(13,14,15,16)) 4) 4
     = Ok (mkPiece ((1,2,3,4),(5,6,7,8),(9,10,11,12),(13,14,15,16)) 4)
  /\ (exists q1 q2 q3 q4,
        rotatePiece (mkPiece ((1,2,3,4),(5,6,7,8),(9,10,11,12),(13,14,15,16)) 4) 1 = Ok q1
        /\ rotatePiece q1 1 = Ok q2
        /\ rotatePiece q2 1 = Ok q3 /\ rotatePiece q3 1 = Ok q4
        /\ cells q4 = ((1,2,3,4),(5,6,7,8),(9,10,11,12),(13,14,15,16)))
  /\ (exists q1 q12 q,
        rotatePiece (mkPiece ((1,2,3,4),(5,6,7,8),(9,10,11,12),(13,14,15,16)) 4) 3 = Ok q1
        /\ rotatePiece q1 2 = Ok q12
        /\ rotatePiece (mkPiece ((1,2,3,4),(5,6,7,8),(9,10,11,12),(13,14,15,16)) 4) (3 + 2) = Ok q
        /\ cells q = cells q12
        /\ (size (mkPiece ((1,2,3,4),(5,6,7,8),(9,10,11,12),(13,14,15,16)) 4) = 4
            -> q = q12)).
Proof.
  apply (rotatePiece_cyclic
           (mkPiece ((1,2,3,4),(5,6,7,8),(9,10,11,12),(13,14,15,16)) 4) 1 2 3 2); lia.
Defined.

Lemma kind_four_cells (id rot : Z) (p0 : Piece) :
  valid_kind id -> vec_get pieces id = Ok p0 ->
  count_set (Nat.iter (Z.to_nat (rot mod 4)) rot1 p0) = 4%nat.
Proof.
  intros Hid Hp0. apply valid_kind_cases in Hid.
  destruct Hid as [->|[->|[->|[->|[->|[->| ->]]]]]];
    (injection Hp0 as <-;
     destruct (mod4_cases rot) as [->|[->|[->| ->]]]; reflexivity).
Qed.

(** C8. For every one of the 7 piece kinds and every orientation (any
    value of the rotation counter, 0 to 3 in particular), the rotated 4x4
    shape has exactly 4 cells set. *)
Theorem rotated_kind_has_four_cells (id rot : Z) :
  valid_kind id ->
  exists p0 q, vec_get pieces id = Ok p0 /\ rotatePiece p0 rot = Ok q
               /\ count_set q = 4%nat.
Proof.
  intros Hid. destruct (vec_get_pieces id Hid) as (p0 & Hp0 & _).
  exists p0. eexists. split; [exact Hp0 |].
  split; [apply rotatePiece_iter |]. now apply (kind_four_cells id).
Qed.

Lemma rotated_kind_has_four_cells_witness :
  exists p0 q, vec_get pieces 5 = Ok p0 /\ rotatePiece p0 3 = Ok q
               /\ count_set q = 4%nat.
Proof.
  apply (rotated_kind_has_four_cells 5 3). unfold valid_kind. rewrite length_pieces. lia.
Defined.

(** ** The board *)

Lemma board_wf_inv (b : list (list Z)) :
  board_wf b ->
  Z.of_nat (length b) = BOARD_H
  /\ forall row, In row b -> Z.of_nat (length row) = BOARD_W.
Proof.
  unfold board_wf, well_formed. rewrite andb_true_iff, forallb_forall.
  intros [Hl Hrows]. split; [now apply Z.eqb_eq |].
  intros row Hrow. apply Z.eqb_eq. now apply Hrows.
Qed.

Lemma board_wf_intro (b : list (list Z)) :
  Z.of_nat (length b) = BOARD_H ->
  (forall row, In row b -> Z.of_nat (length row) = BOARD_W) ->
  board_wf b.
Proof.
  intros Hl Hrows. unfold board_wf, well_formed.
  rewrite andb_true_iff, forallb_forall. split; [now apply Z.eqb_eq |].
  intros row Hrow. apply Z.eqb_eq. now apply Hrows.
Qed.

Lemma vec_get_Some {A : Type} (v : list A) (i : Z) (x : A) :
  0 <= i -> v !! Z.to_nat i = Some x -> vec_get v i = Ok x.
Proof.
  intros Hi Hx. unfold vec_get.
  destruct (Z.leb_spec 0 i); [| lia]. now rewrite Hx.
Qed.

Lemma vec_get_in_range {A : Type} (v : list A) (i : Z) :
  0 <= i < Z.of_nat (length v) ->
  exists x, v !! Z.to_nat i = Some x /\ vec_get v i = Ok x.
Proof.
  intros Hi. destruct (lookup_lt_is_Some_2 v (Z.to_nat i)) as [x Hx]; [lia |].
  exists x. split; [exact Hx |]. apply vec_get_Some; [lia | exact Hx].
Qed.

Lemma vec_set_in_range {A : Type} (v : list A) (i : Z) (x : A) :
  0 <= i < Z.of_nat (length v) -> vec_set v i x = Ok (<[Z.to_nat i := x]> v).
Proof.
  intros Hi. unfold vec_set.
  destruct (Z.leb_spec 0 i), (Z.ltb_spec i (Z.of_nat (length v))); simpl;
    (reflexivity || lia).
Qed.

Lemma lookup_In {A : Type} (v : list A) (i : nat) (x : A) :
  v !! i = Some x -> In x v.
Proof. intros Hx. apply list_elem_of_In. eapply list_elem_of_lookup_2. exact Hx. Qed.

(** Inside a well-formed board every read succeeds. *)
Lemma board_get_at (b : list (list Z)) (r c : Z) :
  board_wf b -> 0 <= r < BOARD_H -> 0 <= c < BOARD_W ->
  board_get b r c = Ok (at_board b r c).
Proof.
  intros Hwf Hr Hc. apply board_wf_inv in Hwf. destruct Hwf as [Hl Hrows].
  unfold at_board, board_get.
  destruct (vec_get_in_range b r) as (row & Hrow & ->); [lia |]. simpl.
  pose proof (Hrows row (lookup_In _ _ _ Hrow)) as Hlen.
  destruct (vec_get_in_range row c) as (v & _ & ->); [lia |]. reflexivity.
Qed.

(** ** The collision check *)

Lemma collides_cell_hits (g : Game) (p : Piece) (x y r c : Z) :
  board_wf (board g) -> anchor_ok x y -> 0 <= r < 4 -> 0 <= c < 4 ->
  collides_cell g p x y r c = Ok (hits (board g) p x y r c).
Proof.
  intros Hwf (Hx1 & Hx2 & Hy1 & Hy2) Hr Hc. unfold collides_cell, hits.
  rewrite cell_get_cell by assumption. simpl.
  destruct (Z.eqb_spec (cell p r c) 0) as [_|_]; simpl; [reflexivity |].
  unfold int_add. rewrite !int_of_ok by (unfold INT_MIN, INT_MAX in *; lia). simpl.
  destruct (Z.ltb_spec (x + c) 0); simpl; [reflexivity |].
  destruct (Z.geb_spec (x + c) BOARD_W); simpl; [reflexivity |].
  destruct (Z.geb_spec (y + r) BOARD_H); simpl; [reflexivity |].
  destruct (Z.geb_spec (y + r) 0); simpl; [| reflexivity].
  rewrite board_get_at by (assumption || lia). reflexivity.
Qed.

Lemma collides_existsb (g : Game) (id rot x y : Z) (p0 p : Piece) :
  board_wf (board g) -> anchor_ok x y ->
  vec_get pieces id = Ok p0 -> rotatePiece p0 rot = Ok p ->
  collides g id rot x y
  = Ok (existsb (fun r => existsb (fun c => hits (board g) p x y r c) (range 4))
                (range 4)).
Proof.
  intros Hwf Hxy Hp0 Hp. unfold collides. rewrite Hp0. cbn [bind]. rewrite Hp. cbn [bind].
  apply for_any_existsb. intros r Hr. apply for_any_existsb. intros c Hc.
  apply in_range in Hr, Hc. now apply collides_cell_hits.
Qed.

Lemma hits_true (b : list (list Z)) (p : Piece) (x y r c : Z) :
  hits b p x y r c = true <->
  cell p r c <> 0
  /\ (x + c < 0 \/ x + c >= BOARD_W \/ y + r >= BOARD_H
      \/ (0 <= y + r /\ at_board b (y + r) (x + c) <> 0)).
Proof.
  unfold hits.
  rewrite andb_true_iff, !orb_true_iff, andb_true_iff, !negb_true_iff,
    !Z.eqb_neq, Z.ltb_lt, !Z.geb_le.
  intuition lia.
Qed.

Lemma hits_exists (b : list (list Z)) (p : Piece) (x y : Z) :
  existsb (fun r => existsb (fun c => hits b p x y r c) (range 4)) (range 4) = true
  <-> exists r c, 0 <= r < 4 /\ 0 <= c < 4 /\ cell p r c <> 0
        /\ (x + c < 0 \/ x + c >= BOARD_W \/ y + r >= BOARD_H
            \/ (0 <= y + r /\ at_board b (y + r) (x + c) <> 0)).
Proof.
  rewrite existsb_exists. split.
  - intros (r & Hr & Hex). apply existsb_exists in Hex.
    destruct Hex as (c & Hc & Hh). apply in_range in Hr, Hc.
    apply hits_true in Hh. exists r, c. tauto.
  - intros (r & c & Hr & Hc & Hh). exists r. split; [now apply in_range |].
    apply existsb_exists. exists c. split; [now apply in_range |].
    apply hits_true. exact Hh.
Qed.

(** The check returns for every well-formed board, kind of the catalogue
    and anchor. *)
Lemma collides_total (g : Game) (id rot x y : Z) :
  board_wf (board g) -> valid_kind id -> anchor_ok x y ->
  exists p0 c,
    vec_get pieces id = Ok p0
    /\ collides g id rot x y = Ok c
    /\ c = existsb (fun r => existsb (fun c =>
              hits (board g) (Nat.iter (Z.to_nat (rot mod 4)) rot1 p0) x y r c)
              (range 4)) (range 4).
Proof.
  intros Hwf Hid Hxy. destruct (vec_get_pieces id Hid) as (p0 & Hp0 & _).
  exists p0. eexists. split; [exact Hp0 |]. split; [| reflexivity].
  eapply collides_existsb; try eassumption. apply rotatePiece_iter.
Qed.

(** C1. For every board, piece kind, orientation and anchor (x,y), the
    collision check answers true exactly when some cell set in the rotated
    4x4 shape lands at a column < 0, a column >= W, a row >= H, or at a
    row >= 0 whose board cell is occupied.  Cells that land at a row < 0
    are never read from the board (the check returns without an
    out-of-bounds access) and do not make the placement illegal on their
    own: when every cell set lands above the board between the walls, the
    answer is false. *)
Theorem collides_iff (g : Game) (id rot x y : Z) :
  board_wf (board g) -> valid_kind id -> anchor_ok x y ->
  exists p0 p b,
    vec_get pieces id = Ok p0 /\ rotatePiece p0 rot = Ok p
    /\ collides g id rot x y = Ok b
    /\ (b = true <->
        exists r c, 0 <= r < 4 /\ 0 <= c < 4 /\ cell p r c <> 0
          /\ (x + c < 0 \/ x + c >= BOARD_W \/ y + r >= BOARD_H
              \/ (0 <= y + r /\ at_board (board g) (y + r) (x + c) <> 0)))
    /\ ((forall r c, 0 <= r < 4 -> 0 <= c < 4 -> cell p r c <> 0 ->
           y + r < 0 /\ 0 <= x + c < BOARD_W) -> b = false).
Proof.
  intros Hwf Hid Hxy.
  destruct (collides_total g id rot x y Hwf Hid Hxy) as (p0 & b & Hp0 & Hb & ->).
  exists p0. eexists. eexists. split; [exact Hp0 |].
  split; [apply rotatePiece_iter |]. split; [exact Hb |].
  split; [apply hits_exists |].
  intros Habove. apply not_true_is_false. intros Htrue.
  apply hits_exists in Htrue. destruct Htrue as (r & c & Hr & Hc & Hset & Hh).
  specialize (Habove r c Hr Hc Hset). unfold BOARD_H, BOARD_W in *. lia.
Qed.

(** ** Locking *)

Lemma at_board_above (b : list (list Z)) (r c : Z) : r < 0 -> at_board b r c = 0.
Proof.
  intros Hr. unfold at_board, board_get, vec_get.
  destruct (Z.leb_spec 0 r); [lia | reflexivity].
Qed.

Lemma at_board_left (b : list (list Z)) (r c : Z) : c < 0 -> at_board b r c = 0.
Proof.
  intros Hc. unfold at_board, board_get, vec_get.
  destruct (0 <=? r); [| reflexivity].
  destruct (b !! Z.to_nat r); [| reflexivity]. simpl.
  destruct (Z.leb_spec 0 c); [lia | reflexivity].
Qed.

Lemma at_board_row (b : list (list Z)) (r c : Z) (row : list Z) :
  0 <= r -> 0 <= c -> b !! Z.to_nat r = Some row ->
  at_board b r c = match row !! Z.to_nat c with Some v => v | None => 0 end.
Proof.
  intros Hr Hc Hrow. unfold at_board, board_get, vec_get.
  destruct (Z.leb_spec 0 r); [| lia]. rewrite Hrow. simpl.
  destruct (Z.leb_spec 0 c); [| lia].
  destruct (row !! Z.to_nat c); reflexivity.
Qed.

(** A write inside a well-formed board succeeds, keeps the board
    well-formed and changes the one cell written. *)
Lemma board_set_at (b : list (list Z)) (r c v : Z) :
  board_wf b -> 0 <= r < BOARD_H -> 0 <= c < BOARD_W ->
  exists b', board_set b r c v = Ok b' /\ board_wf b'
    /\ forall row col,
         at_board b' row col
         = if (r =? row) && (c =? col) then v else at_board b row col.
Proof.
  intros Hwf Hr Hc. pose proof (board_wf_inv b Hwf) as [Hl Hrows].
  unfold board_set.
  destruct (vec_get_in_range b r) as (line & Hline & ->); [lia |]. cbn [bind].
  pose proof (Hrows line (lookup_In _ _ _ Hline)) as Hlen.
  rewrite vec_set_in_range by lia. cbn [bind].
  rewrite vec_set_in_range by lia.
  eexists. split; [reflexivity |]. split.
  - apply board_wf_intro.
    + rewrite length_insert. exact Hl.
    + intros row Hrow. apply list_elem_of_In, list_elem_of_lookup in Hrow.
      destruct Hrow as [i Hi].
      destruct (Nat.eq_dec (Z.to_nat r) i) as [<-|Hne].
      * rewrite list_lookup_insert_eq in Hi by lia. injection Hi as <-.
        rewrite length_insert. exact Hlen.
      * rewrite list_lookup_insert_ne in Hi by exact Hne.
        apply Hrows. eapply lookup_In. exact Hi.
  - intros row col.
    destruct (Z.ltb_spec row 0) as [Hneg|Hrow0].
    { rewrite !at_board_above by lia.
      destruct (Z.eqb_spec r row); [lia | reflexivity]. }
    destruct (Z.ltb_spec col 0) as [Hneg|Hcol0].
    { rewrite !at_board_left by lia.
      destruct (Z.eqb_spec c col); [lia |]. now rewrite andb_false_r. }
    destruct (Z.eqb_spec r row) as [<-|Hne]; simpl.
    + rewrite (at_board_row _ r col (<[Z.to_nat c := v]> line)); try lia.
      2: { apply list_lookup_insert_eq. lia. }
      rewrite (at_board_row b r col line) by (lia || assumption).
      destruct (Z.eqb_spec c col) as [<-|Hnc].
      * rewrite list_lookup_insert_eq by lia. reflexivity.
      * rewrite list_lookup_insert_ne by lia. reflexivity.
    + unfold at_board, board_get, vec_get.
      rewrite list_lookup_insert_ne by lia. reflexivity.
Qed.

Lemma place_cell_stamp (g : Game) (p : Piece) (r c : Z) (b : list (list Z)) :
  board_wf b -> valid_kind (curPieceId g) -> anchor_ok (curX g) (curY g) ->
  0 <= r < 4 -> 0 <= c < 4 ->
  exists b', place_cell g p r c b = Ok b' /\ board_wf b'
    /\ forall row col, 0 <= row < BOARD_H -> 0 <= col < BOARD_W ->
         at_board b' row col
         = if stamp p (curX g) (curY g) r c row col then curPieceId g + 1
           else at_board b row col.
Proof.
  intros Hwf Hid (Hx1 & Hx2 & Hy1 & Hy2) Hr Hc.
  unfold valid_kind in Hid. rewrite length_pieces in Hid.
  unfold place_cell, stamp. rewrite cell_get_cell by assumption. cbn [bind].
  destruct (Z.eqb_spec (cell p r c) 0) as [_|_]; simpl.
  { exists b. auto. }
  unfold int_add. rewrite !int_of_ok by (unfold INT_MIN, INT_MAX in *; lia).
  cbn [bind].
  destruct (Z.geb_spec (curY g + r) 0); cbn [andb].
  2: { exists b. repeat split; auto. intros row col Hrow Hcol.
       destruct (Z.eqb_spec (curY g + r) row); [lia | reflexivity]. }
  destruct (Z.ltb_spec (curY g + r) BOARD_H); cbn [andb].
  2: { exists b. repeat split; auto. intros row col Hrow Hcol.
       destruct (Z.eqb_spec (curY g + r) row); [lia | reflexivity]. }
  destruct (Z.geb_spec (curX g + c) 0); cbn [andb].
  2: { exists b. repeat split; auto. intros row col Hrow Hcol.
       destruct (Z.eqb_spec (curX g + c) col); [lia |].
       now rewrite andb_false_r. }
  destruct (Z.ltb_spec (curX g + c) BOARD_W); cbn [andb].
  2: { exists b. repeat split; auto. intros row col Hrow Hcol.
       destruct (Z.eqb_spec (curX g + c) col); [lia |].
       now rewrite andb_false_r. }
  destruct (board_set_at b (curY g + r) (curX g + c) (curPieceId g + 1))
    as (b' & -> & Hwf' & Hat); [assumption | lia | lia |].
  exists b'. repeat split; auto.
Qed.

Lemma cell_inside (p : Piece) (r c : Z) :
  cell p r c <> 0 -> 0 <= r < 4 /\ 0 <= c < 4.
Proof.
  intros Hset.
  assert (Hdec : (0 <= r < 4 /\ 0 <= c < 4) \/ ~ (0 <= r < 4 /\ 0 <= c < 4)) by lia.
  destruct Hdec as [Hin|Hout]; [exact Hin |].
  now rewrite cell_outside in Hset.
Qed.

Lemma painted_covers (p : Piece) (x y row col : Z) :
  painted p x y (range 4) (range 4) row col = covers p x y row col.
Proof.
  apply eq_true_iff_eq. unfold painted, covers.
  rewrite existsb_exists, negb_true_iff, Z.eqb_neq. split.
  - intros (r & _ & Hex). apply existsb_exists in Hex.
    destruct Hex as (c & _ & Hst). unfold stamp in Hst.
    rewrite !andb_true_iff, negb_true_iff, Z.eqb_neq, !Z.eqb_eq in Hst.
    destruct Hst as [[Hset <-] <-].
    replace (y + r - y) with r by lia. replace (x + c - x) with c by lia.
    exact Hset.
  - intros Hset. destruct (cell_inside _ _ _ Hset) as [Hr Hc].
    exists (row - y). split; [now apply in_range |].
    apply existsb_exists. exists (col - x). split; [now apply in_range |].
    unfold stamp. rewrite !andb_true_iff, negb_true_iff, Z.eqb_neq, !Z.eqb_eq.
    repeat split; (assumption || lia).
Qed.

Lemma place_loops (g : Game) (p : Piece) (b0 : list (list Z)) :
  board_wf b0 -> valid_kind (curPieceId g) -> anchor_ok (curX g) (curY g) ->
  exists b',
    for_each (range 4) (fun r b =>
      for_each (range 4) (fun c b => place_cell g p r c b) b) b0 = Ok b'
    /\ board_wf b'
    /\ forall row col, 0 <= row < BOARD_H -> 0 <= col < BOARD_W ->
         at_board b' row col
         = if covers p (curX g) (curY g) row col then curPieceId g + 1
           else at_board b0 row col.
Proof.
  intros Hwf0 Hid Hxy.
  destruct (for_each_inv
    (fun seen b => board_wf b /\
       forall row col, 0 <= row < BOARD_H -> 0 <= col < BOARD_W ->
         at_board b row col
         = if painted p (curX g) (curY g) seen (range 4) row col
           then curPieceId g + 1 else at_board b0 row col)
    (fun r b => for_each (range 4) (fun c b => place_cell g p r c b) b)
    (range 4) [] b0) as (b' & Hb' & Hwf' & Hat').
  - split; [exact Hwf0 | reflexivity].
  - intros seen r b Hr [Hwf Hat]. apply in_range in Hr.
    destruct (for_each_inv
      (fun seenc b1 => board_wf b1 /\
         forall row col, 0 <= row < BOARD_H -> 0 <= col < BOARD_W ->
           at_board b1 row col
           = if existsb (fun c => stamp p (curX g) (curY g) r c row col) seenc
             then curPieceId g + 1 else at_board b row col)
      (fun c b1 => place_cell g p r c b1)
      (range 4) [] b) as (b1 & Hb1 & Hwf1 & Hat1).
    + split; [exact Hwf | reflexivity].
    + intros seenc c b1 Hc [Hwf1 Hat1]. apply in_range in Hc.
      destruct (place_cell_stamp g p r c b1) as (b2 & Hb2 & Hwf2 & Hat2);
        try assumption.
      exists b2. split; [exact Hb2 |]. split; [exact Hwf2 |].
      intros row col Hrow Hcol. rewrite Hat2, Hat1 by assumption.
      rewrite existsb_app. cbn [existsb].
      destruct (stamp p (curX g) (curY g) r c row col),
        (existsb (fun c0 => stamp p (curX g) (curY g) r c0 row col) seenc);
        reflexivity.
    + exists b1. split; [exact Hb1 |]. split; [exact Hwf1 |].
      intros row col Hrow Hcol. rewrite app_nil_l in Hat1.
      rewrite Hat1, Hat by assumption.
      unfold painted. rewrite existsb_app. cbn [existsb].
      destruct (existsb (fun c => stamp p (curX g) (curY g) r c row col) (range 4)),
        (existsb (fun r0 => existsb (fun c => stamp p (curX g) (curY g) r0 c row col)
                                  (range 4)) seen);
        reflexivity.
  - exists b'. split; [exact Hb' |]. split; [exact Hwf' |].
    intros row col Hrow Hcol. rewrite app_nil_l in Hat'.
    rewrite Hat' by assumption. now rewrite painted_covers.
Qed.

Lemma place_cell_skip (g : Game) (p : Piece) (r c : Z) (b : list (list Z)) :
  anchor_ok (curX g) (curY g) -> 0 <= r < 4 -> 0 <= c < 4 ->
  ~ (0 <= curY g + r < BOARD_H /\ 0 <= curX g + c < BOARD_W) ->
  place_cell g p r c b = Ok b.
Proof.
  intros (Hx1 & Hx2 & Hy1 & Hy2) Hr Hc Hout. unfold place_cell.
  rewrite cell_get_cell by assumption. cbn [bind].
  destruct (cell p r c =? 0); [reflexivity |].
  unfold int_add at 1 2.
  rewrite !int_of_ok by (unfold INT_MIN, INT_MAX in *; lia). cbn [bind].
  destruct (Z.geb_spec (curY g + r) 0); cbn [andb]; [| reflexivity].
  destruct (Z.ltb_spec (curY g + r) BOARD_H); cbn [andb]; [| reflexivity].
  destruct (Z.geb_spec (curX g + c) 0); cbn [andb]; [| reflexivity].
  destruct (Z.ltb_spec (curX g + c) BOARD_W); cbn [andb]; [| reflexivity].
  lia.
Qed.

(** Locking returns, for every well-formed board, kind of the catalogue
    and anchor. *)
Lemma placePiece_ok (g : Game) :
  board_wf (board g) -> valid_kind (curPieceId g) ->
  anchor_ok (curX g) (curY g) ->
  exists p0 b',
    vec_get pieces (curPieceId g) = Ok p0
    /\ placePiece g = Ok (with_board g b')
    /\ board_wf b'
    /\ forall row col, 0 <= row < BOARD_H -> 0 <= col < BOARD_W ->
         at_board b' row col
         = if covers (Nat.iter (Z.to_nat (curRot g mod 4)) rot1 p0)
                     (curX g) (curY g) row col
           then curPieceId g + 1 else at_board (board g) row col.
Proof.
  intros Hwf Hid Hxy.
  destruct (vec_get_pieces _ Hid) as (p0 & Hp0 & _).
  pose proof (rotatePiece_iter p0 (curRot g)) as Hp.
  destruct (place_loops g (Nat.iter (Z.to_nat (curRot g mod 4)) rot1 p0) (board g))
    as (b' & Hb' & Hwf' & Hat'); try assumption.
  exists p0, b'. split; [exact Hp0 |]. split; [| split; assumption].
  unfold placePiece. rewrite Hp0. cbn [bind]. rewrite Hp. cbn [bind].
  rewrite Hb'. reflexivity.
Qed.

(** C10. For every active piece position, also when the 4x4 frame
    overlaps the boundary of the board or lies partly above it, locking
    never writes outside 0 <= row < H, 0 <= col < W: the frame cells that
    land outside are skipped and leave the board as it is, every board cell
    under a cell set of the piece holds the kind identifier plus one, which
    is not zero, every other board cell is unchanged, and the board keeps H
    rows of W columns. *)
Theorem placePiece_in_bounds (g : Game) :
  board_wf (board g) -> valid_kind (curPieceId g) ->
  anchor_ok (curX g) (curY g) ->
  exists p0 p g',
    vec_get pieces (curPieceId g) = Ok p0
    /\ rotatePiece p0 (curRot g) = Ok p
    /\ placePiece g = Ok g'
    /\ g' = with_board g (board g')
    /\ board_wf (board g')
    /\ (forall row col, 0 <= row < BOARD_H -> 0 <= col < BOARD_W ->
          at_board (board g') row col
          = if covers p (curX g) (curY g) row col then curPieceId g + 1
            else at_board (board g) row col)
    /\ (forall r c b, 0 <= r < 4 -> 0 <= c < 4 ->
          ~ (0 <= curY g + r < BOARD_H /\ 0 <= curX g + c < BOARD_W) ->
          place_cell g p r c b = Ok b)
    /\ curPieceId g + 1 <> 0.
Proof.
  intros Hwf Hid Hxy.
  destruct (placePiece_ok g Hwf Hid Hxy) as (p0 & b' & Hp0 & Hg' & Hwf' & Hat').
  exists p0. eexists. exists (with_board g b').
  split; [exact Hp0 |]. split; [apply rotatePiece_iter |].
  split; [exact Hg' |]. split; [reflexivity |].
  split; [exact Hwf' |]. split; [exact Hat' |]. split.
  { intros r c b Hr Hc Hout. now apply place_cell_skip. }
  unfold valid_kind in Hid. lia.
Qed.

(** ** Clearing *)

Lemma existsb_lookup (row : list Z) (f : Z -> bool) :
  existsb (fun c => match row !! Z.to_nat c with Some v => f v | None => false end)
          (range (Z.of_nat (length row)))
  = existsb f row.
Proof.
  apply eq_true_iff_eq. rewrite !existsb_exists. split.
  - intros (c & _ & Hc). destruct (row !! Z.to_nat c) as [v|] eqn:Hv; [| discriminate].
    exists v. split; [eapply lookup_In; exact Hv | exact Hc].
  - intros (v & Hv & Hf). apply list_elem_of_In, list_elem_of_lookup in Hv.
    destruct Hv as [i Hi]. exists (Z.of_nat i). split.
    + apply in_range. apply lookup_lt_Some in Hi. lia.
    + rewrite Nat2Z.id, Hi. exact Hf.
Qed.

Lemma forallb_negb_existsb {A : Type} (f : A -> bool) (l : list A) :
  forallb (fun v => negb (f v)) l = negb (existsb f l).
Proof.
  induction l as [|v l IH]; simpl; [reflexivity |].
  rewrite IH. now destruct (f v).
Qed.

(** The scan of a row of width [BOARD_W] answers whether it is full. *)
Lemma row_full_spec (b : list (list Z)) (r : Z) (row : list Z) :
  0 <= r -> b !! Z.to_nat r = Some row -> Z.of_nat (length row) = BOARD_W ->
  row_full b r = Ok (full_row row).
Proof.
  intros Hr Hrow Hlen. unfold row_full.
  rewrite (for_any_existsb _ _
    (fun c => match row !! Z.to_nat c with Some v => v =? 0 | None => false end)).
  - cbn [bind]. rewrite <- Hlen, existsb_lookup. unfold full_row.
    now rewrite forallb_negb_existsb.
  - intros c Hc. apply in_range in Hc. unfold board_get.
    rewrite (vec_get_Some b r row Hr Hrow). cbn [bind].
    destruct (vec_get_in_range row c) as (v & Hv & ->); [lia |].
    rewrite Hv. reflexivity.
Qed.

(** The shift loop copies the rows [0 .. rr-1] one position down. *)
Lemma shift_rows_spec (rr : nat) (b : list (list Z)) :
  (rr < length b)%nat ->
  shift_rows rr b = Ok (take 1 b ++ take rr b ++ drop (S rr) b).
Proof.
  revert b. induction rr as [|m IH]; intros b Hlt; simpl shift_rows.
  - rewrite take_0. cbn [app]. now rewrite take_drop.
  - destruct (lookup_lt_is_Some_2 b m) as [row Hrow]; [lia |].
    destruct (lookup_lt_is_Some_2 b (S m)) as [old Hold]; [lia |].
    rewrite (vec_get_Some b (Z.of_nat m) row) by (lia || now rewrite Nat2Z.id).
    cbn [bind]. rewrite vec_set_in_range by lia. cbn [bind].
    rewrite Nat2Z.id. rewrite IH by (rewrite length_insert; lia).
    f_equal. rewrite !take_insert_ge by lia.
    rewrite drop_insert_ge by lia. rewrite Nat.sub_diag.
    rewrite (drop_S b old (S m) Hold). cbn [insert list_insert].
    rewrite (take_S_r b m row Hrow). now rewrite <- !app_assoc.
Qed.

Lemma clear_row_spec (P D : list (list Z)) (row : list Z) :
  (b1 <- shift_rows (length P) (P ++ row :: D) ;;
   vec_set b1 0 (replicate (Z.to_nat BOARD_W) 0))
  = Ok (empty_row :: P ++ D).
Proof.
  rewrite shift_rows_spec by (rewrite length_app; simpl; lia). cbn [bind].
  rewrite take_app_length.
  replace (drop (S (length P)) (P ++ row :: D)) with D.
  2: { change (S (length P)) with (1 + length P)%nat. rewrite Nat.add_comm.
       rewrite <- drop_drop. now rewrite drop_app_length. }
  destruct P as [|x P]; simpl; reflexivity.
Qed.

Lemma count_full_snoc (P : list (list Z)) (row : list Z) :
  count_full (P ++ [row])
  = (count_full P + if full_row row then 1 else 0)%nat.
Proof.
  unfold count_full. rewrite List.filter_app, length_app. simpl.
  now destruct (full_row row).
Qed.

Lemma count_full_le (b : list (list Z)) : (count_full b <= length b)%nat.
Proof. unfold count_full. apply List.filter_length_le. Qed.

Lemma replicate_snoc_app {A : Type} (n : nat) (x : A) (l : list A) :
  replicate n x ++ x :: l = replicate (n + 1) x ++ l.
Proof.
  induction n as [|n IH]; simpl; [reflexivity |]. now rewrite IH.
Qed.

(** The outer loop, entered at the last row of [P] with the rows [D]
    below already scanned: the full rows of [P] go, as many empty rows
    come on top, and [cleared] grows by their number. *)
Lemma clear_loop_spec (fuel : nat) :
  forall (P D : list (list Z)) (cleared : Z),
    (length P + count_full P < fuel)%nat ->
    (forall row, In row P -> Z.of_nat (length row) = BOARD_W) ->
    Z.of_nat (length P) <= INT_MAX ->
    INT_MIN <= cleared -> cleared + Z.of_nat (count_full P) <= INT_MAX ->
    clear_loop fuel (Z.of_nat (length P) - 1) (P ++ D) cleared
    = Ok (replicate (count_full P) empty_row
          ++ List.filter (fun row => negb (full_row row)) P ++ D,
          cleared + Z.of_nat (count_full P)).
Proof.
  induction fuel as [|fuel IH]; intros P D cleared Hfuel Hrows HP Hlo Hhi;
    [lia |].
  destruct P as [|row P _] using rev_ind.
  - simpl. now rewrite Z.add_0_r.
  - rewrite length_app in *. cbn [length] in *.
    rewrite count_full_snoc in *.
    replace (Z.of_nat (length P + 1) - 1) with (Z.of_nat (length P)) by lia.
    cbn [clear_loop].
    destruct (Z.geb_spec (Z.of_nat (length P)) 0); [| lia].
    rewrite (row_full_spec _ _ row); try lia.
    2: { rewrite Nat2Z.id, <- app_assoc. rewrite lookup_app_r by lia.
         now rewrite Nat.sub_diag. }
    2: { apply Hrows. apply in_or_app. right. now left. }
    cbn [bind]. rewrite List.filter_app. cbn [List.filter].
    destruct (full_row row) eqn:Hfull; cbn [negb].
    + unfold int_add, int_sub.
      rewrite (int_of_ok (cleared + 1)) by lia. cbn [bind].
      rewrite Nat2Z.id. rewrite <- app_assoc. cbn [app].
      pose proof (clear_row_spec P D row) as Hshift.
      destruct (shift_rows (length P) (P ++ row :: D)) as [b1|]; [| discriminate].
      cbn [bind] in *. rewrite Hshift. cbn [bind].
      rewrite (int_of_ok (Z.of_nat (length P) + 1)) by (unfold INT_MIN in *; lia).
      cbn [bind].
      rewrite (int_of_ok (Z.of_nat (length P) + 1 - 1))
        by (unfold INT_MIN in *; lia).
      cbn [bind].
      replace (Z.of_nat (length P) + 1 - 1)
        with (Z.of_nat (length (empty_row :: P)) - 1) by (cbn [length]; lia).
      change (empty_row :: P ++ D) with ((empty_row :: P) ++ D).
      assert (Hcf : count_full (empty_row :: P) = count_full P) by reflexivity.
      rewrite IH; rewrite ?Hcf; cbn [length]; try lia.
      * cbn [List.filter]. change (full_row empty_row) with false. cbn [negb].
        rewrite app_nil_r. cbn [app]. rewrite replicate_snoc_app.
        do 2 f_equal. lia.
      * intros row' [<-|Hin]; [reflexivity |].
        apply Hrows. apply in_or_app. now left.
    + unfold int_sub. rewrite int_of_ok by (unfold INT_MIN in *; lia).
      cbn [bind]. rewrite <- app_assoc. cbn [app].
      rewrite IH; try lia.
      * rewrite Nat.add_0_r, <- app_assoc. reflexivity.
      * intros row' Hin. apply Hrows. apply in_or_app. now left.
Qed.

Lemma filled_app (b1 b2 : list (list Z)) : filled (b1 ++ b2) = filled b1 + filled b2.
Proof.
  induction b1 as [|row b1 IH]; simpl; [reflexivity |].
  unfold filled in *. simpl. rewrite IH. lia.
Qed.

Lemma filled_empty_rows (n : nat) : filled (replicate n empty_row) = 0.
Proof. induction n as [|n IH]; [reflexivity |]. unfold filled in *. simpl. exact IH. Qed.

Lemma filled_full_row (row : list Z) :
  full_row row = true -> filled_row row = Z.of_nat (length row).
Proof.
  unfold full_row, filled_row. intros Hfull. f_equal.
  induction row as [|v row IH]; simpl in *; [reflexivity |].
  apply andb_true_iff in Hfull. destruct Hfull as [-> Hrest]. simpl.
  now rewrite IH.
Qed.

Lemma filled_cons (row : list Z) (b : list (list Z)) :
  filled (row :: b) = filled_row row + filled b.
Proof. reflexivity. Qed.

Lemma count_full_cons (row : list Z) (b : list (list Z)) :
  count_full (row :: b) = ((if full_row row then 1 else 0) + count_full b)%nat.
Proof. unfold count_full. simpl. now destruct (full_row row). Qed.

Lemma filled_compacted (b : list (list Z)) :
  (forall row, In row b -> Z.of_nat (length row) = BOARD_W) ->
  filled (compacted b) = filled b - Z.of_nat (count_full b) * BOARD_W.
Proof.
  intros Hrows. unfold compacted. rewrite filled_app, filled_empty_rows.
  induction b as [|row b IH]; [reflexivity |].
  assert (IH' := IH (fun r Hr => Hrows r (or_intror Hr))). clear IH.
  cbn [List.filter]. rewrite filled_cons, count_full_cons.
  destruct (full_row row) eqn:Hfull; cbn [negb].
  - rewrite (filled_full_row row Hfull), (Hrows row) by now left. lia.
  - rewrite filled_cons. lia.
Qed.

Lemma compacted_no_full (b : list (list Z)) : count_full b = 0%nat -> compacted b = b.
Proof.
  intros Hz. unfold compacted. rewrite Hz. cbn [replicate app].
  unfold count_full in Hz. induction b as [|row b IH]; [reflexivity |].
  cbn [List.filter] in *. destruct (full_row row); [discriminate |].
  cbn [negb]. f_equal. now apply IH.
Qed.

Lemma compacted_wf (b : list (list Z)) : board_wf b -> board_wf (compacted b).
Proof.
  intros Hwf. apply board_wf_inv in Hwf. destruct Hwf as [Hl Hrows].
  apply board_wf_intro.
  - unfold compacted. rewrite length_app, length_replicate.
    rewrite <- Hl. unfold count_full. clear. 
    induction b as [|row b IH]; [reflexivity |].
    cbn [List.filter]. destruct (full_row row); cbn [negb length]; lia.
  - intros row Hin. unfold compacted in Hin. apply in_app_or in Hin.
    destruct Hin as [Hin|Hin].
    + apply list_elem_of_In, elem_of_replicate in Hin. destruct Hin as [-> _].
      reflexivity.
    + apply List.filter_In in Hin. now apply Hrows.
Qed.

(** The loop of [clearLines] compacts every well-formed board. *)
Lemma clearRows_compacted (b : list (list Z)) :
  board_wf b -> clearRows b = Ok (compacted b, Z.of_nat (count_full b)).
Proof.
  intros Hwf. apply board_wf_inv in Hwf. destruct Hwf as [Hl Hrows].
  pose proof (count_full_le b) as Hle.
  unfold clearRows. rewrite <- Hl.
  rewrite <- (app_nil_r b) at 2.
  rewrite clear_loop_spec.
  - unfold compacted. now rewrite app_nil_r.
  - unfold clear_fuel. unfold BOARD_H in *. lia.
  - exact Hrows.
  - unfold INT_MAX, BOARD_H in *. lia.
  - unfold INT_MIN. lia.
  - unfold INT_MAX, BOARD_H in *. lia.
Qed.

(** Whenever [clearLines] returns, it returns the compacted board and the
    number of full rows. *)
Lemma clearLines_returns (g g' : Game) (m : Z) :
  board_wf (board g) -> clearLines g = Ok (g', m) ->
  board g' = compacted (board g) /\ m = Z.of_nat (count_full (board g)).
Proof.
  intros Hwf Hclear. unfold clearLines in Hclear.
  rewrite clearRows_compacted in Hclear by exact Hwf.
  cbn [bind fst snd] in Hclear.
  apply bind_Ok in Hclear. destruct Hclear as (g1 & Hscore & Hret).
  injection Hret as <- <-. split; [| reflexivity].
  unfold addScore in Hscore.
  destruct (Z.of_nat (count_full (board g)) >? 0).
  - repeat (apply bind_Ok in Hscore; destruct Hscore as (? & _ & Hscore)).
    injection Hscore as <-. reflexivity.
  - injection Hscore as <-. reflexivity.
Qed.

(** C2. For every board of H rows and W columns, the row-clearing loop
    of clearLines removes exactly the rows in which every column is
    occupied: the result is the rows that are not full, in their order,
    under as many new empty rows as there were full rows; the count of
    filled cells decreases by exactly clearedRows * W; the count returned
    is the number of full rows; the board keeps its dimensions; a board
    without a full row is returned unchanged with count 0; and clearLines,
    whenever it returns, returns this board and this count. *)
Theorem clearRows_removes_full_rows (b : list (list Z)) :
  board_wf b ->
  exists b' n,
    clearRows b = Ok (b', n)
    /\ n = Z.of_nat (count_full b)
    /\ b' = replicate (count_full b) empty_row
             ++ List.filter (fun row => negb (full_row row)) b
    /\ filled b' = filled b - n * BOARD_W
    /\ board_wf b'
    /\ (count_full b = 0%nat -> b' = b /\ n = 0)
    /\ (forall g g' m, board g = b -> clearLines g = Ok (g', m) ->
          board g' = b' /\ m = n).
Proof.
  intros Hwf. exists (compacted b), (Z.of_nat (count_full b)).
  split; [now apply clearRows_compacted |]. split; [reflexivity |].
  split; [reflexivity |]. split.
  { apply filled_compacted. now apply board_wf_inv. }
  split; [now apply compacted_wf |]. split.
  { intros Hz. split; [now apply compacted_no_full | now rewrite Hz]. }
  intros g g' m Hb Hclear. subst b. now apply clearLines_returns.
Qed.

(** ** Score, lines and level *)

Lemma scoreTable_get (n : nat) :
  (n <= 4)%nat ->
  vec_get scoreTable (Z.of_nat n) = Ok (nth n scoreTable 0)
  /\ 0 <= nth n scoreTable 0.
Proof.
  intros Hn. destruct n as [|[|[|[|[|n]]]]]; [| | | | | lia];
    (split; [reflexivity | cbn; lia]).
Qed.

Lemma addScore_spec (g : Game) (n : nat) :
  (1 <= n <= 4)%nat -> session_inv g -> progression_fits g n ->
  addScore g (Z.of_nat n)
  = Ok (mkGame (board g) (curPieceId g) (curRot g) (curX g) (curY g)
               (nextPieceId g) (gameOver g)
               (score g + nth n scoreTable 0 * level g)
               (1 + (linesCleared g + Z.of_nat n) / 10)
               (linesCleared g + Z.of_nat n)).
Proof.
  intros Hn [Hlines Hlevel] (Hmul & Hs1 & Hs2 & Hl).
  destruct (scoreTable_get n) as [Hget Hpos]; [lia |].
  assert (Hlv : 1 <= level g).
  { rewrite Hlevel. pose proof (Z.div_pos (linesCleared g) 10). lia. }
  pose proof (Z.mul_nonneg_nonneg (nth n scoreTable 0) (level g)) as Hprod.
  unfold addScore. destruct (Z.gtb_spec (Z.of_nat n) 0); [| lia].
  rewrite Hget. cbn [bind]. unfold int_mul, llong_add, int_add.
  rewrite int_of_ok by (unfold INT_MIN; lia). cbn [bind].
  rewrite llong_of_ok by lia. cbn [bind].
  rewrite int_of_ok by (unfold INT_MIN; lia). cbn [bind].
  rewrite Z.quot_div_nonneg by lia.
  pose proof (Z.div_pos (linesCleared g + Z.of_nat n) 10).
  pose proof (Z.div_le_upper_bound (linesCleared g + Z.of_nat n) 10 (INT_MAX - 1)).
  rewrite int_of_ok by (unfold INT_MIN, INT_MAX in *; lia). reflexivity.
Qed.

Lemma clearLines_after_clear (g : Game) :
  board_wf (board g) -> (count_full (board g) <= 4)%nat ->
  session_inv g -> progression_fits g (count_full (board g)) ->
  clearLines g = Ok (after_clear g, Z.of_nat (count_full (board g))).
Proof.
  intros Hwf Hn Hinv Hfits.
  unfold clearLines. rewrite clearRows_compacted by exact Hwf.
  cbn [bind fst snd]. unfold after_clear.
  destruct (Nat.eqb_spec (count_full (board g)) 0) as [Hz|Hnz].
  - rewrite Hz. cbn. rewrite !Z.add_0_r. destruct g; reflexivity.
  - rewrite (addScore_spec (with_board g (compacted (board g))))
      by (lia || assumption).
    reflexivity.
Qed.

(** C3. For every clear event of a session that removes n rows, n in
    {0,1,2,3,4}, at level L: the score grows by exactly
    {0,40,100,300,1200}[n] * L for the level L before the clear, the total
    of lines grows by exactly n, the level afterwards is 1 + totalLines div
    10, and clearing 0 rows changes none of score, lines and level.  The
    arithmetic is assumed to stay inside int and long long. *)
Theorem clearLines_progression (g : Game) :
  board_wf (board g) -> (count_full (board g) <= 4)%nat ->
  session_inv g -> progression_fits g (count_full (board g)) ->
  exists g',
    clearLines g = Ok (g', Z.of_nat (count_full (board g)))
    /\ score g'
       = score g + nth (count_full (board g)) [0; 40; 100; 300; 1200] 0 * level g
    /\ linesCleared g' = linesCleared g + Z.of_nat (count_full (board g))
    /\ level g' = 1 + linesCleared g' / 10
    /\ session_inv g'
    /\ (count_full (board g) = 0%nat ->
        score g' = score g /\ linesCleared g' = linesCleared g
        /\ level g' = level g).
Proof.
  intros Hwf Hn Hinv Hfits. exists (after_clear g).
  split; [now apply clearLines_after_clear |].
  destruct Hinv as [Hlines Hlevel]. unfold session_inv, after_clear.
  cbn [score linesCleared level].
  destruct (Nat.eqb_spec (count_full (board g)) 0) as [Hz|Hnz].
  - rewrite Hz. cbn. rewrite !Z.add_0_r. auto 10.
  - repeat split; (reflexivity || lia || contradiction).
Qed.

(** ** Locking, then clearing *)

Lemma count_full_app (b1 b2 : list (list Z)) :
  count_full (b1 ++ b2) = (count_full b1 + count_full b2)%nat.
Proof. unfold count_full. now rewrite List.filter_app, length_app. Qed.

(** Two boards that differ in four consecutive rows at most differ by
    four full rows at most. *)
Lemma count_full_window (b b' : list (list Z)) (lo : nat) :
  (forall i, ~ (lo <= i < lo + 4)%nat -> b' !! i = b !! i) ->
  (count_full b' <= count_full b + 4)%nat.
Proof.
  intros Hsame.
  assert (Htake : take lo b' = take lo b).
  { apply list_eq. intros i. destruct (Nat.lt_ge_cases i lo) as [Hlt|Hge].
    - rewrite !lookup_take_lt by exact Hlt. apply Hsame. lia.
    - now rewrite !lookup_take_ge by exact Hge. }
  assert (Hdrop : drop (lo + 4) b' = drop (lo + 4) b).
  { apply list_eq. intros i. rewrite !lookup_drop. apply Hsame. lia. }
  rewrite <- (take_drop lo b'), <- (take_drop lo b).
  rewrite <- (take_drop 4 (drop lo b')), <- (take_drop 4 (drop lo b)).
  rewrite !drop_drop, !count_full_app, Htake, Hdrop.
  pose proof (count_full_le (take 4 (drop lo b'))) as Hle.
  rewrite length_take in Hle. lia.
Qed.

Lemma row_ext (b b' : list (list Z)) (i : Z) :
  board_wf b -> board_wf b' -> 0 <= i ->
  (forall col, 0 <= col < BOARD_W -> at_board b' i col = at_board b i col) ->
  b' !! Z.to_nat i = b !! Z.to_nat i.
Proof.
  intros Hwf Hwf' Hi Hat.
  apply board_wf_inv in Hwf, Hwf'. destruct Hwf as [Hl Hrows], Hwf' as [Hl' Hrows'].
  destruct (b !! Z.to_nat i) as [row|] eqn:Hrow.
  - destruct (lookup_lt_is_Some_2 b' (Z.to_nat i)) as [row' Hrow'].
    { apply lookup_lt_Some in Hrow. lia. }
    rewrite Hrow'. f_equal.
    pose proof (Hrows row (lookup_In _ _ _ Hrow)) as Hlen.
    pose proof (Hrows' row' (lookup_In _ _ _ Hrow')) as Hlen'.
    apply list_eq. intros j.
    destruct (Nat.lt_ge_cases j (length row)) as [Hlt|Hge].
    + specialize (Hat (Z.of_nat j) ltac:(lia)).
      rewrite (at_board_row b' i _ row'), (at_board_row b i _ row) in Hat
        by (lia || assumption).
      rewrite Nat2Z.id in Hat.
      destruct (lookup_lt_is_Some_2 row j) as [v Hv]; [lia |].
      destruct (lookup_lt_is_Some_2 row' j) as [v' Hv']; [lia |].
      rewrite Hv, Hv' in *. now subst.
    + rewrite !lookup_ge_None_2 by lia. reflexivity.
  - apply lookup_ge_None in Hrow. apply lookup_ge_None. lia.
Qed.

(** A lock changes the rows [curY .. curY+3] at most. *)
Lemma lock_count_full (g : Game) (p0 : Piece) (b1 : list (list Z)) :
  board_wf (board g) -> board_wf b1 ->
  (forall row col, 0 <= row < BOARD_H -> 0 <= col < BOARD_W ->
     at_board b1 row col
     = if covers (Nat.iter (Z.to_nat (curRot g mod 4)) rot1 p0)
                 (curX g) (curY g) row col
       then curPieceId g + 1 else at_board (board g) row col) ->
  (count_full b1 <= count_full (board g) + 4)%nat.
Proof.
  intros Hwf Hwf1 Hat.
  apply (count_full_window _ _ (Z.to_nat (curY g))).
  intros i Hi.
  rewrite <- (Nat2Z.id i). apply row_ext; try assumption; [lia |].
  intros col Hcol.
  destruct (Z.ltb_spec (Z.of_nat i) BOARD_H) as [Hin|Hbelow].
  - rewrite Hat by lia. unfold covers.
    rewrite cell_outside; [reflexivity | lia].
  - apply board_wf_inv in Hwf, Hwf1.
    unfold at_board, board_get, vec_get.
    destruct (0 <=? Z.of_nat i); [| reflexivity].
    rewrite !lookup_ge_None_2 by lia. reflexivity.
Qed.

(** C9. For every board without a full row, locking one piece and then
    clearing removes at most 4 rows: the count that the clearing loop
    returns is between 0 and 4, clearLines returns no other count, and it
    does return it in a session whose counters have room. *)
Theorem lock_then_clear_at_most_four (g : Game) :
  board_wf (board g) -> valid_kind (curPieceId g) ->
  anchor_ok (curX g) (curY g) -> count_full (board g) = 0%nat ->
  exists g1 b' n,
    placePiece g = Ok g1
    /\ clearRows (board g1) = Ok (b', n)
    /\ n = Z.of_nat (count_full (board g1))
    /\ 0 <= n <= 4
    /\ (forall g2 m, clearLines g1 = Ok (g2, m) -> m = n)
    /\ (session_inv g -> (forall k, (k <= 4)%nat -> progression_fits g k) ->
        exists g2, clearLines g1 = Ok (g2, n)).
Proof.
  intros Hwf Hid Hxy Hnone.
  destruct (placePiece_ok g Hwf Hid Hxy) as (p0 & b1 & _ & Hg1 & Hwf1 & Hat).
  pose proof (lock_count_full g p0 b1 Hwf Hwf1 Hat) as Hcount.
  rewrite Hnone in Hcount. cbn [Nat.add] in Hcount.
  exists (with_board g b1), (compacted b1), (Z.of_nat (count_full b1)).
  split; [exact Hg1 |]. split; [now apply clearRows_compacted |].
  split; [reflexivity |]. split; [lia |]. split.
  - intros g2 m Hclear.
    now apply (clearLines_returns (with_board g b1) _ _ Hwf1) in Hclear.
  - intros Hinv Hfits. exists (after_clear (with_board g b1)).
    apply clearLines_after_clear; try assumption. now apply Hfits.
Qed.

(** ** Spawning *)

Lemma collides_board (g1 g2 : Game) (id rot x y : Z) :
  board g1 = board g2 -> collides g1 id rot x y = collides g2 id rot x y.
Proof.
  intros Hb. unfold collides, collides_cell.
  destruct g1, g2. simpl in Hb. subst. reflexivity.
Qed.

Lemma anchor_ok_spawn : anchor_ok (Z.quot BOARD_W 2 - 2) (-2).
Proof.
  unfold anchor_ok, INT_MIN, INT_MAX, BOARD_W. change (Z.quot 10 2) with 5. lia.
Qed.

(** At the spawn position every cell set of every kind lies above the
    board, between the walls: the check of [spawnPiece] answers false on
    every well-formed board. *)
Lemma spawn_position_free (g : Game) (id : Z) :
  board_wf (board g) -> valid_kind id ->
  collides g id 0 (Z.quot BOARD_W 2 - 2) (-2) = Ok false.
Proof.
  intros Hwf Hid. apply valid_kind_cases in Hid.
  destruct Hid as [->|[->|[->|[->|[->|[->| ->]]]]]];
    (erewrite collides_existsb;
     [| exact Hwf | exact anchor_ok_spawn | reflexivity | reflexivity ];
     reflexivity).
Qed.

(** C4. Every spawn sets the orientation of the active piece to 0, its
    anchor x to W/2 - 2 and its anchor y to -2, takes the current kind from
    the next kind selected before, and draws a new next kind; the game-over
    flag becomes true if the piece is illegal at this position (and is left
    as it was otherwise); the board, the score, the lines and the level are
    not modified. *)
Theorem spawnPiece_spec (rnd : Z) (g : Game) :
  board_wf (board g) -> valid_kind (nextPieceId g) ->
  exists c g',
    spawnPiece rnd g = Ok g'
    /\ collides g' (curPieceId g') (curRot g') (curX g') (curY g') = Ok c
    /\ curRot g' = 0 /\ curX g' = BOARD_W / 2 - 2 /\ curY g' = -2
    /\ curPieceId g' = nextPieceId g
    /\ nextPieceId g' = rnd mod 7
    /\ gameOver g' = (gameOver g || c)
    /\ board g' = board g /\ score g' = score g
    /\ linesCleared g' = linesCleared g /\ level g' = level g.
Proof.
  intros Hwf Hid. unfold spawnPiece.
  set (g0 := mkGame _ _ _ _ _ _ _ _ _ _).
  destruct (collides_total g0 (curPieceId g0) (curRot g0) (curX g0) (curY g0))
    as (p0 & c & _ & Hc & _); [exact Hwf | exact Hid | exact anchor_ok_spawn |].
  rewrite Hc. cbn [bind]. exists c.
  destruct c.
  - exists (with_gameOver g0 true). split; [reflexivity |].
    split; [rewrite <- Hc; now apply collides_board |].
    cbn. rewrite orb_true_r. auto 12.
  - exists g0. split; [reflexivity |]. split; [exact Hc |].
    cbn. rewrite orb_false_r. auto 12.
Qed.

(** ** Moves *)

Lemma moveLeft_value (g : Game) :
  board_wf (board g) -> valid_kind (curPieceId g) ->
  anchor_ok (curX g - 1) (curY g) ->
  exists c,
    collides g (curPieceId g) (curRot g) (curX g - 1) (curY g) = Ok c
    /\ moveLeft g = Ok (if c then g else with_curX g (curX g - 1)).
Proof.
  intros Hwf Hid Hxy.
  destruct (collides_total g (curPieceId g) (curRot g) (curX g - 1) (curY g))
    as (_ & c & _ & Hc & _); try assumption.
  exists c. split; [exact Hc |]. unfold moveLeft, int_sub.
  rewrite !int_of_ok by (unfold anchor_ok, INT_MAX in *; lia). cbn [bind].
  rewrite Hc. cbn [bind]. now destruct c.
Qed.

Lemma moveRight_value (g : Game) :
  board_wf (board g) -> valid_kind (curPieceId g) ->
  anchor_ok (curX g + 1) (curY g) ->
  exists c,
    collides g (curPieceId g) (curRot g) (curX g + 1) (curY g) = Ok c
    /\ moveRight g = Ok (if c then g else with_curX g (curX g + 1)).
Proof.
  intros Hwf Hid Hxy.
  destruct (collides_total g (curPieceId g) (curRot g) (curX g + 1) (curY g))
    as (_ & c & _ & Hc & _); try assumption.
  exists c. split; [exact Hc |]. unfold moveRight, int_add.
  rewrite !int_of_ok by (unfold anchor_ok, INT_MIN in *; lia). cbn [bind].
  rewrite Hc. cbn [bind]. now destruct c.
Qed.

Lemma rotateCW_value (g : Game) :
  board_wf (board g) -> valid_kind (curPieceId g) ->
  anchor_ok (curX g) (curY g) -> INT_MIN <= curRot g < INT_MAX ->
  exists c,
    collides g (curPieceId g) (Z.rem (curRot g + 1) 4) (curX g) (curY g) = Ok c
    /\ rotateCW g = Ok (if c then g else with_curRot g (Z.rem (curRot g + 1) 4)).
Proof.
  intros Hwf Hid Hxy Hrot.
  destruct (collides_total g (curPieceId g) (Z.rem (curRot g + 1) 4) (curX g) (curY g))
    as (_ & c & _ & Hc & _); try assumption.
  exists c. split; [exact Hc |]. unfold rotateCW, int_add.
  rewrite int_of_ok by lia. cbn [bind].
  rewrite Hc. cbn [bind]. now destruct c.
Qed.

(** The keys a, A, d, D, w and W run these three handlers when the game
    is not paused, and leave the loop state around the game as it is. *)
Lemma handleKey_moves (rand : nat -> Z) (st : State) :
  paused st = false ->
  (forall ch, ch = 97 \/ ch = 65 ->
     handleKey rand ch st = (g <- moveLeft (game st) ;; Ok (with_game st g, false)))
  /\ (forall ch, ch = 100 \/ ch = 68 ->
       handleKey rand ch st = (g <- moveRight (game st) ;; Ok (with_game st g, false)))
  /\ (forall ch, ch = 119 \/ ch = 87 ->
       handleKey rand ch st = (g <- rotateCW (game st) ;; Ok (with_game st g, false))).
Proof.
  intros Hp. unfold handleKey. rewrite Hp. cbn [negb].
  repeat split; intros ch [-> | ->]; reflexivity.
Qed.

(** C6. For every session state and every move-left, move-right or
    rotate-clockwise request: when the collision check accepts the
    candidate position or orientation it is committed, and nothing else
    changes; otherwise the whole state is as before. *)
Theorem move_commits_or_rejects (g : Game) :
  board_wf (board g) -> valid_kind (curPieceId g) ->
  anchor_ok (curX g - 1) (curY g) -> anchor_ok (curX g + 1) (curY g) ->
  INT_MIN <= curRot g < INT_MAX ->
  (exists c,
     collides g (curPieceId g) (curRot g) (curX g - 1) (curY g) = Ok c
     /\ moveLeft g = Ok (if c then g else with_curX g (curX g - 1)))
  /\ (exists c,
       collides g (curPieceId g) (curRot g) (curX g + 1) (curY g) = Ok c
       /\ moveRight g = Ok (if c then g else with_curX g (curX g + 1)))
  /\ (exists c,
       collides g (curPieceId g) (Z.rem (curRot g + 1) 4) (curX g) (curY g) = Ok c
       /\ rotateCW g = Ok (if c then g else with_curRot g (Z.rem (curRot g + 1) 4))).
Proof.
  intros Hwf Hid Hl Hr Hrot.
  split; [now apply moveLeft_value |]. split; [now apply moveRight_value |].
  apply rotateCW_value; try assumption. unfold anchor_ok in *. lia.
Qed.

(** ** Game over *)









(** ** The input loop *)

Lemma input_loop_step (rand : nat -> Z) (fuel : nat) (t : list Z) (st : State) :
  input_loop rand (S fuel) t st
  = match next_key t with
    | None => Ok st
    | Some (ch, t') => andThen (handleKey rand ch st) (input_loop rand fuel t')
    end.
Proof.
  cbn [input_loop]. unfold next_key.
  destruct (kbHit t) as [hit t1]. destruct (hit =? 0); [reflexivity |].
  destruct (getChNonBlocking t1) as [ch t2]. destruct (ch =? -1); [reflexivity |].
  destruct (ch =? 27); [| reflexivity].
  destruct (getChNonBlocking t2) as [n1 t3]. destruct (n1 =? 91); [| reflexivity].
  destruct (getChNonBlocking t3). reflexivity.
Qed.

Ltac terminal_cases t :=
  destruct t as [|? [|? [|? [|? t]]]]; cbn [kbHit getChNonBlocking];
  repeat match goal with
         | |- context [if ?b then _ else _] => destruct b eqn:?
         end.

Lemma next_key_length (t t' : list Z) (ch : Z) :
  next_key t = Some (ch, t') -> (length t' < length t)%nat.
Proof.
  unfold next_key. terminal_cases t; intros [= <- <-]; cbn [length]; lia.
Qed.

Lemma andThen_ext (r : res (State * bool)) (k1 k2 : State -> res State) :
  (forall st, k1 st = k2 st) -> andThen r k1 = andThen r k2.
Proof.
  intros H. unfold andThen. destruct r as [[st b]|f]; cbn [bind fst snd];
    [| reflexivity].
  destruct b; [reflexivity | apply H].
Qed.

Lemma input_loop_fuel (rand : nat -> Z) (f1 : nat) :
  forall (f2 : nat) (t : list Z) (st : State),
    (length t < f1)%nat -> (length t < f2)%nat ->
    input_loop rand f1 t st = input_loop rand f2 t st.
Proof.
  induction f1 as [|f1 IH]; intros f2 t st H1 H2; [lia |].
  destruct f2 as [|f2]; [lia |]. rewrite !input_loop_step.
  destruct (next_key t) as [[ch t']|] eqn:Hk; [| reflexivity].
  apply next_key_length in Hk. apply andThen_ext. intros st1. apply IH; lia.
Qed.

(** One pass of the input loop: it is left when the terminal has nothing
    waiting, and otherwise handles the next key and goes on, unless the
    handler leaves it. *)
Lemma inputLoop_step (rand : nat -> Z) (t : list Z) (st : State) :
  inputLoop rand t st
  = match next_key t with
    | None => Ok st
    | Some (ch, t') => andThen (handleKey rand ch st) (inputLoop rand t')
    end.
Proof.
  unfold inputLoop. rewrite input_loop_step.
  destruct (next_key t) as [[ch t']|] eqn:Hk; [| reflexivity].
  apply next_key_length in Hk. apply andThen_ext. intros st1.
  apply input_loop_fuel; lia.
Qed.

Section Sticky.

Variable rand : nat -> Z.










End Sticky.

(** ** Sessions

    The hypotheses of the statements above hold in every game that the
    loop of [main] reaches: [session_ok] holds of the game that [main]
    sets up, and every operation returns and keeps it, as long as the
    counters have room. *)

Lemma exists_set_cell (p : Piece) :
  count_set p = 4%nat ->
  exists r c, 0 <= r < 4 /\ 0 <= c < 4 /\ cell p r c <> 0.
Proof.
  unfold count_set. intros Hcount.
  destruct (List.filter _ frame_cells) as [|[r c] l] eqn:Hf; [discriminate |].
  assert (Hin : In (r, c) ((r, c) :: l)) by (left; reflexivity).
  rewrite <- Hf in Hin. apply List.filter_In in Hin. destruct Hin as [Hin Hset].
  apply in_prod_iff in Hin. destruct Hin as [Hr Hc].
  apply in_range in Hr, Hc. cbn [fst snd] in Hset.
  rewrite negb_true_iff, Z.eqb_neq in Hset. eauto.
Qed.

(** A position that the check accepts keeps the frame near the board. *)
Lemma legal_bounds (g : Game) (id rot x y : Z) :
  board_wf (board g) -> valid_kind id -> anchor_ok x y ->
  collides g id rot x y = Ok false ->
  -3 <= x <= BOARD_W - 1 /\ y <= BOARD_H - 1.
Proof.
  intros Hwf Hid Hxy Hc.
  destruct (collides_total g id rot x y Hwf Hid Hxy) as (p0 & b & Hp0 & Hb & Hval).
  rewrite Hc in Hb. injection Hb as <-. symmetry in Hval.
  destruct (exists_set_cell _ (kind_four_cells id rot p0 Hid Hp0))
    as (r & c & Hr & Hcc & Hset).
  apply not_true_iff_false in Hval. rewrite hits_exists in Hval.
  assert (H1 : ~ x + c < 0) by (intros H; apply Hval; exists r, c; tauto).
  assert (H2 : ~ x + c >= BOARD_W) by (intros H; apply Hval; exists r, c; tauto).
  assert (H3 : ~ y + r >= BOARD_H) by (intros H; apply Hval; exists r, c; tauto).
  unfold BOARD_W, BOARD_H in *. lia.
Qed.

Lemma count_full_compacted (b : list (list Z)) : count_full (compacted b) = 0%nat.
Proof.
  unfold compacted. rewrite count_full_app.
  assert (H1 : forall n, count_full (replicate n empty_row) = 0%nat).
  { induction n as [|n IH]; [reflexivity |]. exact IH. }
  rewrite H1. cbn [Nat.add].
  induction b as [|row b IH]; [reflexivity |].
  cbn [List.filter]. destruct (full_row row) eqn:Hfull; cbn [negb]; [exact IH |].
  rewrite count_full_cons, Hfull, IH. reflexivity.
Qed.

Lemma scoreTable_bounds (n : nat) : 0 <= nth n scoreTable 0 <= 1200.
Proof. destruct n as [|[|[|[|[|n]]]]]; cbn; try lia. destruct n; cbn; lia. Qed.

Lemma level_pos (g : Game) : session_inv g -> 1 <= level g.
Proof.
  intros [Hlines ->]. pose proof (Z.div_pos (linesCleared g) 10). lia.
Qed.

Lemma headroom_fits (g : Game) (n : nat) :
  session_inv g -> 0 <= score g -> headroom g -> (n <= 4)%nat ->
  progression_fits g n.
Proof.
  intros Hinv Hscore (Hl & Hm & Hs) Hn. pose proof (level_pos g Hinv) as Hlv.
  pose proof (scoreTable_bounds n) as Ht. unfold progression_fits.
  assert (Hprod : nth n scoreTable 0 * level g <= 1200 * level g).
  { apply Z.mul_le_mono_nonneg_r; lia. }
  unfold LLONG_MIN. repeat split; lia.
Qed.

Lemma after_clear_counters (g : Game) :
  session_inv g -> 0 <= score g ->
  session_inv (after_clear g) /\ 0 <= score (after_clear g).
Proof.
  intros Hinv Hscore. pose proof (level_pos g Hinv) as Hlv.
  pose proof (scoreTable_bounds (count_full (board g))) as Ht.
  destruct Hinv as [Hlines Hlevel]. unfold session_inv, after_clear.
  cbn [score linesCleared level]. split.
  - split; [lia |].
    destruct (Nat.eqb_spec (count_full (board g)) 0) as [->|_]; [| reflexivity].
    now rewrite Z.add_0_r.
  - pose proof (Z.mul_nonneg_nonneg (nth (count_full (board g)) scoreTable 0) (level g)).
    lia.
Qed.

Lemma session_ok_anchor (g : Game) :
  session_ok g ->
  anchor_ok (curX g) (curY g) /\ anchor_ok (curX g - 1) (curY g)
  /\ anchor_ok (curX g + 1) (curY g) /\ anchor_ok (curX g) (curY g + 1).
Proof.
  intros (_ & _ & _ & _ & _ & Hx & Hy & _).
  unfold anchor_ok, INT_MIN, INT_MAX, BOARD_W, BOARD_H in *. lia.
Qed.

Lemma spawnPiece_session (rnd : Z) (g : Game) :
  board_wf (board g) -> count_full (board g) = 0%nat ->
  valid_kind (nextPieceId g) -> 0 <= score g -> session_inv g ->
  exists g',
    spawnPiece rnd g = Ok g' /\ session_ok g'
    /\ gameOver g' = gameOver g /\ score g' = score g
    /\ linesCleared g' = linesCleared g /\ level g' = level g.
Proof.
  intros Hwf Hnone Hid Hscore Hinv. unfold spawnPiece.
  set (g0 := mkGame _ _ _ _ _ _ _ _ _ _).
  assert (Hfree : collides g0 (curPieceId g0) (curRot g0) (curX g0) (curY g0)
                  = Ok false) by (apply spawn_position_free; assumption).
  rewrite Hfree. cbn [bind]. exists g0. split; [reflexivity |].
  split; [| repeat split].
  unfold session_ok. cbn [board curPieceId nextPieceId curRot curX curY score g0].
  split; [exact Hwf |]. split; [exact Hnone |]. split; [exact Hid |].
  split.
  { unfold valid_kind. apply Z.mod_pos_bound. now rewrite length_pieces. }
  split; [lia |].
  split; [unfold BOARD_W; change (Z.quot 10 2) with 5; lia |].
  split; [unfold BOARD_H; lia |].
  split; [exact Hfree |]. split; [exact Hscore | exact Hinv].
Qed.

Lemma lockPiece_session (rnd : Z) (g : Game) :
  session_ok g -> headroom g ->
  exists g',
    lockPiece rnd g = Ok g' /\ session_ok g' /\ gameOver g' = gameOver g.
Proof.
  intros Hok Hroom. pose proof (session_ok_anchor g Hok) as (Hxy & _).
  destruct Hok as (Hwf & Hnone & Hid & Hnext & _ & _ & _ & _ & Hscore & Hinv).
  destruct (placePiece_ok g Hwf Hid Hxy) as (p0 & b1 & _ & Hg1 & Hwf1 & Hat).
  pose proof (lock_count_full g p0 b1 Hwf Hwf1 Hat) as Hcount.
  rewrite Hnone in Hcount. cbn [Nat.add] in Hcount.
  unfold lockPiece. rewrite Hg1. cbn [bind].
  rewrite clearLines_after_clear; try assumption.
  2: { apply headroom_fits; assumption. }
  cbn [bind fst].
  destruct (after_clear_counters (with_board g b1) Hinv Hscore) as [Hinv' Hscore'].
  destruct (spawnPiece_session rnd (after_clear (with_board g b1)))
    as (g' & Hg' & Hok' & Hover & _); try assumption.
  - now apply compacted_wf.
  - apply count_full_compacted.
  - exists g'. split; [exact Hg' |]. split; [exact Hok' | exact Hover].
Qed.

(** The loop of the hard drop ends, with the fuel of [drop_fuel] and
    with more. *)
Lemma drop_loop_session (fuel : nat) :
  forall g, session_ok g -> (Z.to_nat (BOARD_H - curY g) < fuel)%nat ->
  exists g',
    drop_loop fuel g = Ok g' /\ session_ok g'
    /\ g' = with_curY g (curY g')
    /\ collides g' (curPieceId g') (curRot g') (curX g') (curY g' + 1) = Ok true.
Proof.
  induction fuel as [|fuel IH]; intros g Hok Hfuel; [lia |].
  pose proof (session_ok_anchor g Hok) as (Hxy & _ & _ & Hdown).
  pose proof Hok as (Hwf & Hnone & Hid & Hnext & Hrot & Hx & Hy & Hlegal & Hscore & Hinv).
  destruct (collides_total g (curPieceId g) (curRot g) (curX g) (curY g + 1))
    as (_ & c & _ & Hc & _); try assumption.
  cbn [drop_loop]. unfold int_add.
  rewrite !int_of_ok by (unfold INT_MIN, INT_MAX, BOARD_H in *; lia).
  cbn [bind]. rewrite Hc. cbn [bind]. destruct c; cbn [negb].
  - exists g. split; [reflexivity |]. split; [exact Hok |].
    split; [now destruct g | exact Hc].
  - assert (Hlegal' : legal (with_curY g (curY g + 1))) by exact Hc.
    destruct (legal_bounds g _ _ _ _ Hwf Hid Hdown Hc) as [_ Hy'].
    destruct (IH (with_curY g (curY g + 1))) as (g' & Hg' & Hok' & Heq & Hstop).
    + refine (conj Hwf (conj Hnone (conj Hid (conj Hnext (conj Hrot
               (conj Hx (conj _ (conj Hlegal' (conj Hscore Hinv))))))))).
      cbn [with_curY curY]. lia.
    + cbn [with_curY curY]. unfold BOARD_H in *. lia.
    + exists g'. split; [exact Hg' |]. split; [exact Hok' |]. split; [| exact Hstop].
      rewrite Heq. reflexivity.
Qed.

Lemma moved_session (g g' : Game) (rot x y : Z) :
  session_ok g -> anchor_ok x y -> 0 <= rot < 4 -> -2 <= y ->
  collides g (curPieceId g) rot x y = Ok false ->
  g' = mkGame (board g) (curPieceId g) rot x y (nextPieceId g) (gameOver g)
              (score g) (level g) (linesCleared g) ->
  session_ok g'.
Proof.
  intros (Hwf & Hnone & Hid & Hnext & _ & _ & _ & _ & Hscore & Hinv)
    Hxy Hrot Hy Hc ->.
  destruct (legal_bounds g _ _ _ _ Hwf Hid Hxy Hc) as [Hx' Hy'].
  refine (conj Hwf (conj Hnone (conj Hid (conj Hnext (conj Hrot
           (conj Hx' (conj _ (conj _ (conj Hscore Hinv))))))))).
  - cbn [curY]. lia.
  - unfold legal. cbn [curPieceId curRot curX curY]. rewrite <- Hc.
    now apply collides_board.
Qed.

Lemma moveLeft_session (g : Game) :
  session_ok g ->
  exists g', moveLeft g = Ok g' /\ session_ok g'
             /\ g' = with_curX g (curX g').
Proof.
  intros Hok. pose proof (session_ok_anchor g Hok) as (_ & Hxy & _).
  pose proof Hok as (Hwf & _ & Hid & _ & Hrot & _ & Hy & _).
  destruct (moveLeft_value g Hwf Hid Hxy) as (c & Hc & Hm).
  rewrite Hm. destruct c.
  - exists g. split; [reflexivity |]. split; [exact Hok | now destruct g].
  - eexists. split; [reflexivity |]. split; [| reflexivity].
    apply (moved_session g _ (curRot g) (curX g - 1) (curY g));
      [exact Hok | exact Hxy | exact Hrot | lia | exact Hc | reflexivity].
Qed.

Lemma moveRight_session (g : Game) :
  session_ok g ->
  exists g', moveRight g = Ok g' /\ session_ok g'
             /\ g' = with_curX g (curX g').
Proof.
  intros Hok. pose proof (session_ok_anchor g Hok) as (_ & _ & Hxy & _).
  pose proof Hok as (Hwf & _ & Hid & _ & Hrot & _ & Hy & _).
  destruct (moveRight_value g Hwf Hid Hxy) as (c & Hc & Hm).
  rewrite Hm. destruct c.
  - exists g. split; [reflexivity |]. split; [exact Hok | now destruct g].
  - eexists. split; [reflexivity |]. split; [| reflexivity].
    apply (moved_session g _ (curRot g) (curX g + 1) (curY g));
      [exact Hok | exact Hxy | exact Hrot | lia | exact Hc | reflexivity].
Qed.

Lemma rotateCW_session (g : Game) :
  session_ok g ->
  exists g', rotateCW g = Ok g' /\ session_ok g'
             /\ g' = with_curRot g (curRot g').
Proof.
  intros Hok. pose proof (session_ok_anchor g Hok) as (Hxy & _).
  pose proof Hok as (Hwf & _ & Hid & _ & Hrot & _ & Hy & _).
  destruct (rotateCW_value g Hwf Hid Hxy) as (c & Hc & Hm).
  { unfold INT_MIN, INT_MAX. lia. }
  rewrite Hm. destruct c.
  - exists g. split; [reflexivity |]. split; [exact Hok | now destruct g].
  - eexists. split; [reflexivity |]. split; [| reflexivity].
    apply (moved_session g _ (Z.rem (curRot g + 1) 4) (curX g) (curY g));
      [exact Hok | exact Hxy | | lia | exact Hc | reflexivity].
    pose proof (Z.rem_bound_pos (curRot g + 1) 4). lia.
Qed.

Section Sessions.

Variable rand : nat -> Z.

Lemma lock_session (st : State) :
  session_ok (game st) -> headroom (game st) ->
  exists st', lock rand st = Ok st' /\ session_ok (game st')
              /\ gameOver (game st') = gameOver (game st).
Proof.
  intros Hok Hroom. unfold lock.
  destruct (lockPiece_session (rand (nrand st)) (game st) Hok Hroom)
    as (g' & -> & Hok' & Hover).
  cbn [bind]. eexists. split; [reflexivity |]. cbn [game]. auto.
Qed.

Lemma fall_session (st : State) :
  session_ok (game st) -> headroom (game st) ->
  exists st', gravityTick rand st = Ok st' /\ softDrop rand st = Ok st'
              /\ session_ok (game st')
              /\ gameOver (game st') = gameOver (game st).
Proof.
  intros Hok Hroom. pose proof (session_ok_anchor _ Hok) as (_ & _ & _ & Hdown).
  pose proof Hok as (Hwf & _ & Hid & _ & Hrot & _ & Hy & _).
  destruct (collides_total (game st) (curPieceId (game st)) (curRot (game st))
              (curX (game st)) (curY (game st) + 1))
    as (_ & c & _ & Hc & _); try assumption.
  unfold gravityTick, softDrop, int_add.
  rewrite !int_of_ok by (unfold INT_MIN, INT_MAX, BOARD_H in *; lia).
  cbn [bind]. rewrite Hc. cbn [bind]. destruct c; cbn [negb].
  - destruct (lock_session st Hok Hroom) as (st' & Hst' & Hok' & Hover).
    exists st'. auto.
  - eexists. split; [reflexivity |]. split; [reflexivity |].
    cbn [with_game game]. split; [| now destruct (game st)].
    apply (moved_session (game st) _ (curRot (game st)) (curX (game st))
             (curY (game st) + 1));
      [exact Hok | exact Hdown | exact Hrot | lia | exact Hc | reflexivity].
Qed.

Lemma hardDrop_session (st : State) :
  session_ok (game st) -> headroom (game st) ->
  exists st', hardDrop rand st = Ok st' /\ session_ok (game st')
              /\ gameOver (game st') = gameOver (game st).
Proof.
  intros Hok Hroom. unfold hardDrop.
  destruct (drop_loop_session (drop_fuel (game st)) (game st) Hok)
    as (g' & -> & Hok' & Heq & _).
  { unfold drop_fuel. lia. }
  cbn [bind].
  destruct (lock_session (with_game st g')) as (st' & Hst' & Hok'' & Hover);
    cbn [with_game game]; try assumption.
  { rewrite Heq. exact Hroom. }
  exists st'. split; [exact Hst' |]. split; [exact Hok'' |].
  rewrite Hover. cbn [with_game game]. now rewrite Heq.
Qed.

(** Every operation of a session returns, keeps [session_ok], and leaves
    the game-over flag as it is. *)
Lemma apply_op_session (o : Op) (st : State) :
  session_ok (game st) -> headroom (game st) ->
  exists st', apply_op rand o st = Ok st' /\ session_ok (game st')
              /\ gameOver (game st') = gameOver (game st).
Proof.
  intros Hok Hroom. destruct o; cbn [apply_op].
  - destruct (moveLeft_session _ Hok) as (g' & -> & Hok' & Heq). cbn [bind].
    eexists. split; [reflexivity |]. cbn [with_game game].
    split; [exact Hok' | now rewrite Heq].
  - destruct (moveRight_session _ Hok) as (g' & -> & Hok' & Heq). cbn [bind].
    eexists. split; [reflexivity |]. cbn [with_game game].
    split; [exact Hok' | now rewrite Heq].
  - destruct (rotateCW_session _ Hok) as (g' & -> & Hok' & Heq). cbn [bind].
    eexists. split; [reflexivity |]. cbn [with_game game].
    split; [exact Hok' | now rewrite Heq].
  - destruct (fall_session st Hok Hroom) as (st' & _ & Hs & Hok' & Hover).
    exists st'. auto.
  - now apply hardDrop_session.
  - destruct (fall_session st Hok Hroom) as (st' & Hg & _ & Hok' & Hover).
    exists st'. auto.
Qed.

(** The game that [main] sets up is a session, not over. *)
Lemma newGame_session :
  exists st, newGame rand = Ok st /\ session_ok (game st)
             /\ gameOver (game st) = false.
Proof.
  unfold newGame.
  set (g := mkGame _ _ _ _ _ _ _ _ _ _).
  destruct (spawnPiece_session (rand 1) g) as (g' & -> & Hok & Hover & _).
  - reflexivity.
  - reflexivity.
  - unfold valid_kind. cbn [nextPieceId g]. apply Z.mod_pos_bound.
    now rewrite length_pieces.
  - cbn. lia.
  - split; [cbn; lia | reflexivity].
  - cbn [bind]. eexists. split; [reflexivity |]. cbn [game]. auto.
Qed.

End Sessions.

Lemma demo_game_session_ok : session_ok demo_game.
Proof.
  unfold session_ok, demo_game.
  cbn [board curPieceId nextPieceId curRot curX curY score].
  split; [reflexivity |]. split; [reflexivity |].
  split; [apply valid_kind_intro; lia |].
  split; [apply valid_kind_intro; lia |].
  split; [lia |]. split; [unfold BOARD_W; lia |].
  split; [unfold BOARD_H; lia |].
  split; [reflexivity |]. split; [lia |].
  split; [cbn; lia | reflexivity].
Qed.

(** ** Game over in a session *)




Section Quit.

Variable rand : nat -> Z.









Lemma arrowKey_values (n2 : Z) :
  arrowKey n2 = 27 \/ (arrowKey n2 <> 27 /\ arrowKey n2 <> 113 /\ arrowKey n2 <> 81).
Proof.
  unfold arrowKey.
  destruct (n2 =? 65); [right; lia |]. destruct (n2 =? 66); [right; lia |].
  destruct (n2 =? 67); [right; lia |]. destruct (n2 =? 68); [right; lia |].
  now left.
Qed.






End Quit.


(** ** Examples *)

Lemma collides_iff_witness :
  exists p0 p b,
    vec_get pieces 0 = Ok p0 /\ rotatePiece p0 0 = Ok p
    /\ collides demo_game 0 0 3 19 = Ok b
    /\ (b = true <->
        exists r c, 0 <= r < 4 /\ 0 <= c < 4 /\ cell p r c <> 0
          /\ (3 + c < 0 \/ 3 + c >= BOARD_W \/ 19 + r >= BOARD_H
              \/ (0 <= 19 + r /\ at_board (board demo_game) (19 + r) (3 + c) <> 0)))
    /\ ((forall r c, 0 <= r < 4 -> 0 <= c < 4 -> cell p r c <> 0 ->
           19 + r < 0 /\ 0 <= 3 + c < BOARD_W) -> b = false).
Proof.
  apply (collides_iff demo_game 0 0 3 19).
  - reflexivity.
  - apply valid_kind_intro. lia.
  - apply anchor_ok_small; lia.
Defined.

Lemma clearRows_removes_full_rows_witness :
  exists b' n,
    clearRows full_bottom_board = Ok (b', n)
    /\ n = Z.of_nat (count_full full_bottom_board)
    /\ b' = replicate (count_full full_bottom_board) empty_row
             ++ List.filter (fun row => negb (full_row row)) full_bottom_board
    /\ filled b' = filled full_bottom_board - n * BOARD_W
    /\ board_wf b'
    /\ (count_full full_bottom_board = 0%nat -> b' = full_bottom_board /\ n = 0)
    /\ (forall g g' m, board g = full_bottom_board -> clearLines g = Ok (g', m) ->
          board g' = b' /\ m = n).
Proof. apply (clearRows_removes_full_rows full_bottom_board). reflexivity. Defined.

Lemma clearLines_progression_witness :
  exists g',
    clearLines level3_game = Ok (g', Z.of_nat (count_full (board level3_game)))
    /\ score g'
       = score level3_game
         + nth (count_full (board level3_game)) [0; 40; 100; 300; 1200] 0
           * level level3_game
    /\ linesCleared g'
       = linesCleared level3_game + Z.of_nat (count_full (board level3_game))
    /\ level g' = 1 + linesCleared g' / 10
    /\ session_inv g'
    /\ (count_full (board level3_game) = 0%nat ->
        score g' = score level3_game
        /\ linesCleared g' = linesCleared level3_game
        /\ level g' = level level3_game).
Proof.
  apply (clearLines_progression level3_game).
  - reflexivity.
  - vm_compute. lia.
  - split; [vm_compute; discriminate | reflexivity].
  - vm_compute. repeat split; discriminate.
Defined.

Lemma spawnPiece_spec_witness :
  exists c g',
    spawnPiece 12 demo_game = Ok g'
    /\ collides g' (curPieceId g') (curRot g') (curX g') (curY g') = Ok c
    /\ curRot g' = 0 /\ curX g' = BOARD_W / 2 - 2 /\ curY g' = -2
    /\ curPieceId g' = nextPieceId demo_game
    /\ nextPieceId g' = 12 mod 7
    /\ gameOver g' = (gameOver demo_game || c)
    /\ board g' = board demo_game /\ score g' = score demo_game
    /\ linesCleared g' = linesCleared demo_game /\ level g' = level demo_game.
Proof.
  apply (spawnPiece_spec 12 demo_game).
  - reflexivity.
  - apply valid_kind_intro. cbn. lia.
Defined.


Lemma move_commits_or_rejects_witness :
  (exists c,
     collides demo_game (curPieceId demo_game) (curRot demo_game)
              (curX demo_game - 1) (curY demo_game) = Ok c
     /\ moveLeft demo_game
        = Ok (if c then demo_game else with_curX demo_game (curX demo_game - 1)))
  /\ (exists c,
       collides demo_game (curPieceId demo_game) (curRot demo_game)
                (curX demo_game + 1) (curY demo_game) = Ok c
       /\ moveRight demo_game
          = Ok (if c then demo_game else with_curX demo_game (curX demo_game + 1)))
  /\ (exists c,
       collides demo_game (curPieceId demo_game)
                (Z.rem (curRot demo_game + 1) 4) (curX demo_game) (curY demo_game)
       = Ok c
       /\ rotateCW demo_game
          = Ok (if c then demo_game
                else with_curRot demo_game (Z.rem (curRot demo_game + 1) 4))).
Proof.
  apply (move_commits_or_rejects demo_game).
  - reflexivity.
  - apply valid_kind_intro. cbn. lia.
  - apply anchor_ok_small; cbn; lia.
  - apply anchor_ok_small; cbn; lia.
  - unfold INT_MIN, INT_MAX. cbn. lia.
Defined.

Lemma lock_then_clear_at_most_four_witness :
  exists g1 b' n,
    placePiece demo_game = Ok g1
    /\ clearRows (board g1) = Ok (b', n)
    /\ n = Z.of_nat (count_full (board g1))
    /\ 0 <= n <= 4
    /\ (forall g2 m, clearLines g1 = Ok (g2, m) -> m = n)
    /\ (session_inv demo_game ->
        (forall k, (k <= 4)%nat -> progression_fits demo_game k) ->
        exists g2, clearLines g1 = Ok (g2, n)).
Proof.
  apply (lock_then_clear_at_most_four demo_game).
  - reflexivity.
  - apply valid_kind_intro. cbn. lia.
  - apply anchor_ok_small; cbn; lia.
  - reflexivity.
Defined.

Lemma placePiece_in_bounds_witness :
  exists p0 p g',
    vec_get pieces (curPieceId top_game) = Ok p0
    /\ rotatePiece p0 (curRot top_game) = Ok p
    /\ placePiece top_game = Ok g'
    /\ g' = with_board top_game (board g')
    /\ board_wf (board g')
    /\ (forall row col, 0 <= row < BOARD_H -> 0 <= col < BOARD_W ->
          at_board (board g') row col
          = if covers p (curX top_game) (curY top_game) row col
            then curPieceId top_game + 1
            else at_board (board top_game) row col)
    /\ (forall r c b, 0 <= r < 4 -> 0 <= c < 4 ->
          ~ (0 <= curY top_game + r < BOARD_H
             /\ 0 <= curX top_game + c < BOARD_W) ->
          place_cell top_game p r c b = Ok b)
    /\ curPieceId top_game + 1 <> 0.
Proof.
  apply (placePiece_in_bounds top_game).
  - reflexivity.
  - apply valid_kind_intro. cbn. lia.
  - apply anchor_ok_small; cbn; lia.
Defined.

(** The scenarios of the specification, run on the model. *)

Example spawn_O_on_empty_board :
  collides (mkGame empty_board 3 0 4 (-2) 0 false 0 1 0) 3 0 4 (-2) = Ok false.
Proof. reflexivity. Qed.

Example lock_I_completes_row :
  lockPiece 0 demo_game = Ok (mkGame empty_board 5 0 3 (-2) 0 false 40 1 1).
Proof. vm_compute. reflexivity. Qed.

Example lock_O_above_board :
  exists g', placePiece top_game = Ok g'
             /\ filled (board g') = 2
             /\ at_board (board g') 0 4 = 4 /\ at_board (board g') 0 5 = 4.
Proof. eexists. split; [vm_compute; reflexivity |]. repeat split. Qed.

Example level_after_ten_lines :
  exists g', addScore (mkGame empty_board 0 0 3 0 0 false 0 1 9) 1 = Ok g'
             /\ level g' = 2 /\ score g' = 40 /\ linesCleared g' = 10.
Proof. eexists. split; [vm_compute; reflexivity |]. repeat split. Qed.

Example pieces_I :
  vec_get pieces 0 = Ok (mkPiece ((0,0,0,0),(1,1,1,1),(0,0,0,0),(0,0,0,0)) 4).
Proof. reflexivity. Qed.

(** * Further properties of the code *)

(** ** Spawning and the start of a game *)

(** X1. On every board of H rows and W columns and for every next kind of
    the catalogue, the legality test of spawnPiece answers false: the call
    returns with the new piece at a legal position and leaves the game-over
    flag as it was. *)
Theorem spawnPiece_keeps_flag (rnd : Z) (g : Game) :
  board_wf (board g) -> valid_kind (nextPieceId g) ->
  exists g',
    spawnPiece rnd g = Ok g'
    /\ gameOver g' = gameOver g
    /\ legal g'
    /\ collides g (nextPieceId g) 0 (BOARD_W / 2 - 2) (-2) = Ok false.
Proof.
  intros Hwf Hid. unfold spawnPiece.
  set (g0 := mkGame _ _ _ _ _ _ _ _ _ _).
  assert (Hfree : collides g0 (curPieceId g0) (curRot g0) (curX g0) (curY g0)
                  = Ok false) by (apply spawn_position_free; assumption).
  rewrite Hfree. cbn [bind]. exists g0. split; [reflexivity |].
  split; [reflexivity |]. split; [exact Hfree |].
  now apply spawn_position_free.
Qed.

Lemma spawnPiece_keeps_flag_witness :
  exists g',
    spawnPiece 9 demo_game = Ok g'
    /\ gameOver g' = gameOver demo_game
    /\ legal g'
    /\ collides demo_game (nextPieceId demo_game) 0 (BOARD_W / 2 - 2) (-2)
       = Ok false.
Proof.
  apply (spawnPiece_keeps_flag 9 demo_game).
  - reflexivity.
  - apply valid_kind_intro. cbn. lia.
Defined.

(** X2. Whatever rand() returns, the game that main sets up before its
    loop is a session state: the board is empty, the first piece has the
    kind drawn first and stands at rotation 0, x = 3, y = -2, the next kind
    is the one drawn second, the score and the lines are 0, the level is 1
    and the game is neither over nor paused. *)
Theorem newGame_initial (rand : nat -> Z) :
  exists st,
    newGame rand = Ok st
    /\ session_ok (game st)
    /\ board (game st) = empty_board
    /\ curPieceId (game st) = rand 0%nat mod 7
    /\ nextPieceId (game st) = rand 1%nat mod 7
    /\ curRot (game st) = 0 /\ curX (game st) = 3 /\ curY (game st) = -2
    /\ score (game st) = 0 /\ linesCleared (game st) = 0
    /\ level (game st) = 1
    /\ gameOver (game st) = false /\ paused st = false.
Proof.
  destruct (newGame_session rand) as (st & Hst & Hok & Hover).
  exists st. split; [exact Hst |]. split; [exact Hok |].
  unfold newGame in Hst.
  set (g := mkGame _ _ _ _ _ _ _ _ _ _) in Hst.
  destruct (spawnPiece_session (rand 1%nat) g) as (g' & Hg' & _).
  - reflexivity.
  - reflexivity.
  - unfold valid_kind. cbn [nextPieceId g]. apply Z.mod_pos_bound.
    now rewrite length_pieces.
  - cbn. lia.
  - split; [cbn; lia | reflexivity].
  - rewrite Hg' in Hst. cbn [bind] in Hst. injection Hst as <-.
    unfold spawnPiece in Hg'.
    rewrite spawn_position_free in Hg'.
    + cbn [bind] in Hg'. injection Hg' as <-. cbn. auto 15.
    + reflexivity.
    + unfold valid_kind. cbn [curPieceId nextPieceId g].
      apply Z.mod_pos_bound. now rewrite length_pieces.
Qed.

(** ** Play keeps the session *)

Lemma demo_game_headroom : headroom demo_game.
Proof. unfold headroom, INT_MAX, LLONG_MAX. cbn. lia. Qed.

Lemma lock_loop_fields (rand : nat -> Z) (st st' : State) :
  lock rand st = Ok st' -> paused st' = paused st /\ nrand st' = S (nrand st).
Proof. unfold lock. intros H. inv_res. subst. auto. Qed.

Lemma fall_loop_fields (rand : nat -> Z) (st st' : State) :
  gravityTick rand st = Ok st' ->
  paused st' = paused st
  /\ (nrand st' = nrand st \/ nrand st' = S (nrand st)).
Proof.
  unfold gravityTick. intros H. inv_res.
  - subst. auto.
  - apply lock_loop_fields in H. destruct H as [-> ->]. auto.
Qed.

(** X3. In a session state whose counters have room for one more clear
    event, every move, rotation, soft drop, hard drop and gravity tick
    returns without fault and gives a session state again: the board keeps
    H rows of W columns and has no full row, the kinds are those of the
    catalogue, the active piece is at a position that the collision check
    accepts, with -3 <= x <= W-1 and -2 <= y <= H-1, and level = 1 + lines
    div 10.  None of them changes the game-over flag or the pause flag, and
    each calls rand() once at most: play never ends the game. *)
Theorem operations_keep_session (rand : nat -> Z) (o : Op) (st : State) :
  session_ok (game st) -> headroom (game st) ->
  exists st',
    apply_op rand o st = Ok st'
    /\ session_ok (game st')
    /\ gameOver (game st') = gameOver (game st)
    /\ paused st' = paused st
    /\ (nrand st' = nrand st \/ nrand st' = S (nrand st)).
Proof.
  intros Hok Hroom.
  destruct (apply_op_session rand o st Hok Hroom) as (st' & Hst' & Hok' & Hover).
  exists st'. split; [exact Hst' |]. split; [exact Hok' |].
  split; [exact Hover |].
  destruct o; cbn [apply_op] in Hst'.
  - inv_res. subst. auto.
  - inv_res. subst. auto.
  - inv_res. subst. auto.
  - now apply (fall_loop_fields rand).
  - unfold hardDrop in Hst'. inv_res.
    apply lock_loop_fields in Hst'. destruct Hst' as [-> ->]. auto.
  - now apply (fall_loop_fields rand).
Qed.

Lemma operations_keep_session_witness :
  exists st',
    apply_op rand0 HardDrop (mkState demo_game false 0) = Ok st'
    /\ session_ok (game st')
    /\ gameOver (game st') = gameOver (game (mkState demo_game false 0))
    /\ paused st' = paused (mkState demo_game false 0)
    /\ (nrand st' = nrand (mkState demo_game false 0)
        \/ nrand st' = S (nrand (mkState demo_game false 0))).
Proof.
  apply (operations_keep_session rand0 HardDrop (mkState demo_game false 0)).
  - exact demo_game_session_ok.
  - exact demo_game_headroom.
Defined.

(** ** The hard drop *)

Lemma drop_loop_down (fuel : nat) :
  forall g g', drop_loop fuel g = Ok g' -> curY g <= curY g'.
Proof.
  induction fuel as [|fuel IH]; intros g g' H; simpl in H; [discriminate |].
  inv_res.
  - apply IH in H. cbn [with_curY curY] in H.
    unfold int_add in Ha1. apply int_of_inv in Ha1. lia.
  - subst. lia.
Qed.

Lemma drop_loop_more_fuel (fuel : nat) :
  forall g g' k, drop_loop fuel g = Ok g' -> drop_loop (fuel + k) g = Ok g'.
Proof.
  induction fuel as [|fuel IH]; intros g g' k H; [discriminate |].
  cbn [Nat.add drop_loop] in *.
  destruct (int_add (curY g) 1) as [y'|]; [| discriminate]. cbn [bind] in *.
  destruct (collides g (curPieceId g) (curRot g) (curX g) y') as [c|];
    [| discriminate].
  cbn [bind] in *. destruct c; cbn [negb] in *; [exact H |].
  now apply IH.
Qed.

(** X4. In a session state the loop of the hard drop ends: it changes
    nothing but curY, never moves the piece up, and leaves it at a position
    that the collision check accepts and from which one row further down is
    refused.  The fuel of the model is enough, and more fuel gives the same
    result. *)
Theorem hard_drop_rests (g : Game) :
  session_ok g ->
  exists g',
    drop_loop (drop_fuel g) g = Ok g'
    /\ g' = with_curY g (curY g')
    /\ curY g <= curY g' <= BOARD_H - 1
    /\ legal g'
    /\ collides g' (curPieceId g') (curRot g') (curX g') (curY g' + 1) = Ok true
    /\ forall k, drop_loop (drop_fuel g + k) g = Ok g'.
Proof.
  intros Hok.
  destruct (drop_loop_session (drop_fuel g) g Hok)
    as (g' & Hg' & Hok' & Heq & Hstop).
  { unfold drop_fuel. lia. }
  exists g'. split; [exact Hg' |]. split; [exact Heq |].
  pose proof (drop_loop_down _ _ _ Hg') as Hdown.
  destruct Hok' as (_ & _ & _ & _ & _ & _ & Hy & Hlegal & _).
  split; [lia |]. split; [exact Hlegal |]. split; [exact Hstop |].
  intros k. now apply drop_loop_more_fuel.
Qed.

Lemma hard_drop_rests_witness :
  exists g',
    drop_loop (drop_fuel top_game) top_game = Ok g'
    /\ g' = with_curY top_game (curY g')
    /\ curY top_game <= curY g' <= BOARD_H - 1
    /\ legal g'
    /\ collides g' (curPieceId g') (curRot g') (curX g') (curY g' + 1) = Ok true
    /\ forall k, drop_loop (drop_fuel top_game + k) top_game = Ok g'.
Proof.
  apply (hard_drop_rests top_game).
  unfold session_ok, top_game.
  cbn [board curPieceId nextPieceId curRot curX curY score].
  split; [reflexivity |]. split; [reflexivity |].
  split; [apply valid_kind_intro; lia |].
  split; [apply valid_kind_intro; lia |].
  split; [lia |]. split; [unfold BOARD_W; lia |].
  split; [unfold BOARD_H; lia |].
  split; [reflexivity |]. split; [lia |].
  split; [cbn; lia | reflexivity].
Defined.

(** X5. A hard drop is a run of soft drops.  In a session state, when the
    row below is refused the hard drop does what one soft drop does (it
    locks); when it is free, one soft drop moves the piece down a row and
    the hard drop from the first state is the hard drop from the second. *)
Theorem hard_drop_is_soft_drops (rand : nat -> Z) (st : State) :
  session_ok (game st) ->
  exists c,
    collides (game st) (curPieceId (game st)) (curRot (game st))
             (curX (game st)) (curY (game st) + 1) = Ok c
    /\ (c = true -> hardDrop rand st = softDrop rand st)
    /\ (c = false ->
        softDrop rand st
        = Ok (with_game st (with_curY (game st) (curY (game st) + 1)))
        /\ hardDrop rand st
           = hardDrop rand (with_game st (with_curY (game st) (curY (game st) + 1)))).
Proof.
  intros Hok. pose proof (session_ok_anchor _ Hok) as (_ & _ & _ & Hdown).
  pose proof Hok as (Hwf & _ & Hid & _ & _ & _ & Hy & _).
  destruct (collides_total (game st) (curPieceId (game st)) (curRot (game st))
              (curX (game st)) (curY (game st) + 1))
    as (_ & c & _ & Hc & _); try assumption.
  exists c. split; [exact Hc |].
  assert (Hfuel : drop_fuel (game st)
                  = S (drop_fuel (with_curY (game st) (curY (game st) + 1)))).
  { unfold drop_fuel. cbn [with_curY curY]. unfold BOARD_H in *. lia. }
  unfold hardDrop, softDrop. rewrite Hfuel. cbn [drop_loop]. unfold int_add.
  rewrite !int_of_ok by (unfold INT_MIN, INT_MAX, BOARD_H in *; lia).
  cbn [bind]. rewrite Hc. cbn [bind]. split; intros ->; cbn [negb bind].
  - now destruct st.
  - split; reflexivity.
Qed.

Lemma hard_drop_is_soft_drops_witness :
  exists c,
    collides (game (mkState demo_game false 0))
             (curPieceId (game (mkState demo_game false 0)))
             (curRot (game (mkState demo_game false 0)))
             (curX (game (mkState demo_game false 0)))
             (curY (game (mkState demo_game false 0)) + 1) = Ok c
    /\ (c = true -> hardDrop rand0 (mkState demo_game false 0)
                    = softDrop rand0 (mkState demo_game false 0))
    /\ (c = false ->
        softDrop rand0 (mkState demo_game false 0)
        = Ok (with_game (mkState demo_game false 0)
                (with_curY (game (mkState demo_game false 0))
                   (curY (game (mkState demo_game false 0)) + 1)))
        /\ hardDrop rand0 (mkState demo_game false 0)
           = hardDrop rand0
               (with_game (mkState demo_game false 0)
                  (with_curY (game (mkState demo_game false 0))
                     (curY (game (mkState demo_game false 0)) + 1)))).
Proof.
  apply (hard_drop_is_soft_drops rand0 (mkState demo_game false 0)).
  exact demo_game_session_ok.
Defined.

(** ** Clearing twice, and the counters *)

(** X6. Clearing is idempotent: on every board of H rows and W columns
    the clearing loop returns a board without a full row, and run again on
    that board it returns it unchanged with count 0. *)
Theorem clearRows_idempotent (b : list (list Z)) :
  board_wf b ->
  exists b' n,
    clearRows b = Ok (b', n)
    /\ count_full b' = 0%nat
    /\ clearRows b' = Ok (b', 0).
Proof.
  intros Hwf. exists (compacted b), (Z.of_nat (count_full b)).
  split; [now apply clearRows_compacted |].
  pose proof (count_full_compacted b) as Hnone.
  split; [exact Hnone |].
  rewrite clearRows_compacted by now apply compacted_wf.
  rewrite Hnone. now rewrite compacted_no_full by exact Hnone.
Qed.

Lemma clearRows_idempotent_witness :
  exists b' n,
    clearRows full_bottom_board = Ok (b', n)
    /\ count_full b' = 0%nat
    /\ clearRows b' = Ok (b', 0).
Proof. apply (clearRows_idempotent full_bottom_board). reflexivity. Defined.

(** X7. A clear event never lowers a counter: in a session state with at
    most 4 full rows and the arithmetic inside int and long long,
    clearLines returns a game whose score, lines and level are at least
    what they were, and whose level is at most one more. *)
Theorem clearLines_monotone (g : Game) :
  board_wf (board g) -> (count_full (board g) <= 4)%nat ->
  session_inv g -> 0 <= score g ->
  progression_fits g (count_full (board g)) ->
  exists g' n,
    clearLines g = Ok (g', n)
    /\ score g <= score g'
    /\ linesCleared g <= linesCleared g'
    /\ level g <= level g' <= level g + 1.
Proof.
  intros Hwf Hn Hinv Hscore Hfits.
  exists (after_clear g), (Z.of_nat (count_full (board g))).
  split; [now apply clearLines_after_clear |].
  pose proof (level_pos g Hinv) as Hlv.
  pose proof (scoreTable_bounds (count_full (board g))) as Ht.
  destruct Hinv as [Hlines Hlevel]. unfold after_clear.
  cbn [score linesCleared level].
  split.
  { pose proof (Z.mul_nonneg_nonneg (nth (count_full (board g)) scoreTable 0)
                  (level g)). lia. }
  split; [lia |].
  destruct (Nat.eqb_spec (count_full (board g)) 0) as [_|_]; [lia |].
  rewrite Hlevel.
  pose proof (Z.div_le_mono (linesCleared g)
                (linesCleared g + Z.of_nat (count_full (board g))) 10).
  pose proof (Z.div_le_mono (linesCleared g + Z.of_nat (count_full (board g)))
                (linesCleared g + 1 * 10) 10).
  rewrite Z.div_add in * by lia. lia.
Qed.

Lemma clearLines_monotone_witness :
  exists g' n,
    clearLines level3_game = Ok (g', n)
    /\ score level3_game <= score g'
    /\ linesCleared level3_game <= linesCleared g'
    /\ level level3_game <= level g' <= level level3_game + 1.
Proof.
  apply (clearLines_monotone level3_game).
  - reflexivity.
  - vm_compute. lia.
  - split; [vm_compute; discriminate | reflexivity].
  - vm_compute. discriminate.
  - vm_compute. repeat split; discriminate.
Defined.

(** ** Locking at a legal position *)

(** X8. A lock at a position that the collision check accepts only fills
    empty cells: every board cell under a cell set of the piece was empty
    before the lock, and every cell that was occupied keeps its value. *)
Theorem lock_fills_empty_cells (g : Game) :
  board_wf (board g) -> valid_kind (curPieceId g) ->
  anchor_ok (curX g) (curY g) -> legal g ->
  exists p0 p g',
    vec_get pieces (curPieceId g) = Ok p0
    /\ rotatePiece p0 (curRot g) = Ok p
    /\ placePiece g = Ok g'
    /\ forall row col, 0 <= row < BOARD_H -> 0 <= col < BOARD_W ->
         (covers p (curX g) (curY g) row col = true ->
          at_board (board g) row col = 0
          /\ at_board (board g') row col = curPieceId g + 1)
         /\ (at_board (board g) row col <> 0 ->
             at_board (board g') row col = at_board (board g) row col).
Proof.
  intros Hwf Hid Hxy Hlegal.
  destruct (placePiece_ok g Hwf Hid Hxy) as (p0 & b' & Hp0 & Hg' & Hwf' & Hat).
  destruct (collides_total g (curPieceId g) (curRot g) (curX g) (curY g)
              Hwf Hid Hxy) as (p0' & c & Hp0' & Hc & Hval).
  rewrite Hp0 in Hp0'. injection Hp0' as <-.
  unfold legal in Hlegal. rewrite Hlegal in Hc. injection Hc as <-.
  symmetry in Hval. apply not_true_iff_false in Hval.
  rewrite hits_exists in Hval.
  set (p := Nat.iter (Z.to_nat (curRot g mod 4)) rot1 p0) in *.
  assert (Hempty : forall row col, 0 <= row < BOARD_H -> 0 <= col < BOARD_W ->
            covers p (curX g) (curY g) row col = true ->
            at_board (board g) row col = 0).
  { intros row col Hrow Hcol Hcov. unfold covers in Hcov.
    rewrite negb_true_iff, Z.eqb_neq in Hcov.
    destruct (cell_inside _ _ _ Hcov) as [Hr Hc].
    destruct (Z.eq_dec (at_board (board g) row col) 0) as [Hz|Hnz]; [exact Hz |].
    exfalso. apply Hval. exists (row - curY g), (col - curX g).
    split; [exact Hr |]. split; [exact Hc |]. split; [exact Hcov |].
    right. right. right.
    replace (curY g + (row - curY g)) with row by lia.
    replace (curX g + (col - curX g)) with col by lia.
    split; [lia | exact Hnz]. }
  exists p0, p, (with_board g b'). split; [exact Hp0 |].
  split; [apply rotatePiece_iter |]. split; [exact Hg' |].
  intros row col Hrow Hcol. cbn [with_board board]. split.
  - intros Hcov. split; [now apply Hempty |].
    rewrite Hat by assumption. now rewrite Hcov.
  - intros Hocc. rewrite Hat by assumption.
    destruct (covers p (curX g) (curY g) row col) eqn:Hcov; [| reflexivity].
    exfalso. apply Hocc. now apply Hempty.
Qed.

Lemma lock_fills_empty_cells_witness :
  exists p0 p g',
    vec_get pieces (curPieceId demo_game) = Ok p0
    /\ rotatePiece p0 (curRot demo_game) = Ok p
    /\ placePiece demo_game = Ok g'
    /\ forall row col, 0 <= row < BOARD_H -> 0 <= col < BOARD_W ->
         (covers p (curX demo_game) (curY demo_game) row col = true ->
          at_board (board demo_game) row col = 0
          /\ at_board (board g') row col = curPieceId demo_game + 1)
         /\ (at_board (board demo_game) row col <> 0 ->
             at_board (board g') row col = at_board (board demo_game) row col).
Proof.
  apply (lock_fills_empty_cells demo_game).
  - reflexivity.
  - apply valid_kind_intro. cbn. lia.
  - apply anchor_ok_small; cbn; lia.
  - reflexivity.
Defined.

(** ** Moves undo each other *)

(** X9. In a session state a move to the left that is committed is undone
    by a move to the right, and a move to the right that is committed is
    undone by a move to the left: the second move is always accepted and
    gives the first state back.  (A move that is refused leaves the state
    as it is.) *)
Theorem left_right_round_trip (g : Game) :
  session_ok g ->
  (exists c g1,
     collides g (curPieceId g) (curRot g) (curX g - 1) (curY g) = Ok c
     /\ moveLeft g = Ok g1
     /\ (if c then g1 = g
         else curX g1 = curX g - 1 /\ moveRight g1 = Ok g))
  /\ (exists c g1,
       collides g (curPieceId g) (curRot g) (curX g + 1) (curY g) = Ok c
       /\ moveRight g = Ok g1
       /\ (if c then g1 = g
           else curX g1 = curX g + 1 /\ moveLeft g1 = Ok g)).
Proof.
  intros Hok.
  pose proof (session_ok_anchor g Hok) as (Hxy & Hleft & Hright & _).
  pose proof Hok as (Hwf & _ & Hid & _ & _ & _ & _ & Hlegal & _).
  unfold legal in Hlegal. split.
  - destruct (moveLeft_value g Hwf Hid Hleft) as (c & Hc & Hm).
    exists c. rewrite Hm. eexists. split; [exact Hc |].
    split; [reflexivity |]. destruct c; [reflexivity |].
    split; [reflexivity |].
    destruct (moveRight_value (with_curX g (curX g - 1))) as (c' & Hc' & Hm');
      cbn [with_curX board curPieceId curRot curX curY] in *; try assumption.
    { now replace (curX g - 1 + 1) with (curX g) by lia. }
    replace (curX g - 1 + 1) with (curX g) in * by lia.
    rewrite (collides_board _ g) in Hc' by reflexivity.
    rewrite Hlegal in Hc'. injection Hc' as <-.
    rewrite Hm'. now destruct g.
  - destruct (moveRight_value g Hwf Hid Hright) as (c & Hc & Hm).
    exists c. rewrite Hm. eexists. split; [exact Hc |].
    split; [reflexivity |]. destruct c; [reflexivity |].
    split; [reflexivity |].
    destruct (moveLeft_value (with_curX g (curX g + 1))) as (c' & Hc' & Hm');
      cbn [with_curX board curPieceId curRot curX curY] in *; try assumption.
    { now replace (curX g + 1 - 1) with (curX g) by lia. }
    replace (curX g + 1 - 1) with (curX g) in * by lia.
    rewrite (collides_board _ g) in Hc' by reflexivity.
    rewrite Hlegal in Hc'. injection Hc' as <-.
    rewrite Hm'. now destruct g.
Qed.

Lemma left_right_round_trip_witness :
  (exists c g1,
     collides top_game (curPieceId top_game) (curRot top_game)
              (curX top_game - 1) (curY top_game) = Ok c
     /\ moveLeft top_game = Ok g1
     /\ (if c then g1 = top_game
         else curX g1 = curX top_game - 1 /\ moveRight g1 = Ok top_game))
  /\ (exists c g1,
       collides top_game (curPieceId top_game) (curRot top_game)
                (curX top_game + 1) (curY top_game) = Ok c
       /\ moveRight top_game = Ok g1
       /\ (if c then g1 = top_game
           else curX g1 = curX top_game + 1 /\ moveLeft g1 = Ok top_game)).
Proof.
  apply (left_right_round_trip top_game).
  unfold session_ok, top_game.
  cbn [board curPieceId nextPieceId curRot curX curY score].
  split; [reflexivity |]. split; [reflexivity |].
  split; [apply valid_kind_intro; lia |].
  split; [apply valid_kind_intro; lia |].
  split; [lia |]. split; [unfold BOARD_W; lia |].
  split; [unfold BOARD_H; lia |].
  split; [reflexivity |]. split; [lia |].
  split; [cbn; lia | reflexivity].
Defined.

(** ** Keys *)

Lemma handleKey_ignored (rand : nat -> Z) (st : State) :
  handleKey rand 27 st = Ok (st, false).
Proof. unfold handleKey. cbn. now destruct (paused st). Qed.

Lemma handleKey_paused (rand : nat -> Z) (ch : Z) (st : State) :
  paused st = true -> quiet ch -> handleKey rand ch st = Ok (st, false).
Proof.
  intros Hp (H1 & H2 & H3 & H4). unfold handleKey.
  destruct (Z.eqb_spec ch 113); [contradiction |].
  destruct (Z.eqb_spec ch 81); [contradiction |].
  destruct (Z.eqb_spec ch 112); [contradiction |].
  destruct (Z.eqb_spec ch 80); [contradiction |].
  cbn [orb]. now rewrite Hp.
Qed.

Lemma arrowKey_quiet (n2 : Z) : quiet (arrowKey n2).
Proof.
  unfold arrowKey, quiet.
  destruct (n2 =? 65); [lia |]. destruct (n2 =? 66); [lia |].
  destruct (n2 =? 67); [lia |]. destruct (n2 =? 68); lia.
Qed.

Lemma next_key_plain (hit ch : Z) (t : list Z) :
  hit <> 0 -> ch <> -1 -> ch <> 27 -> next_key (hit :: ch :: t) = Some (ch, t).
Proof.
  intros H0 H1 H27. unfold next_key. cbn [kbHit getChNonBlocking].
  destruct (Z.eqb_spec hit 0); [contradiction |].
  destruct (Z.eqb_spec ch (-1)); [contradiction |].
  now destruct (Z.eqb_spec ch 27).
Qed.

Lemma next_key_arrow (hit n2 : Z) (t : list Z) :
  hit <> 0 -> next_key (hit :: 27 :: 91 :: n2 :: t) = Some (arrowKey n2, t).
Proof.
  intros H0. unfold next_key. cbn [kbHit getChNonBlocking].
  now destruct (Z.eqb_spec hit 0).
Qed.

Lemma next_key_escape (hit n1 : Z) (t : list Z) :
  hit <> 0 -> n1 <> 91 -> next_key (hit :: 27 :: n1 :: t) = Some (27, t).
Proof.
  intros H0 H91. unfold next_key. cbn [kbHit getChNonBlocking].
  destruct (Z.eqb_spec hit 0); [contradiction |].
  change (27 =? -1) with false. change (27 =? 27) with true. cbv iota.
  now destruct (Z.eqb_spec n1 91).
Qed.

(** X10. Escape sequences in the input loop.  When the terminal reports a
    key and then delivers ESC, the loop takes the next one or two answers
    of getChNonBlocking without asking kbHit again: ESC [ A, ESC [ B,
    ESC [ C and ESC [ D are handled exactly as the keys w, s, d and a;
    ESC [ followed by any other answer, and ESC followed by an answer
    other than [, use up these answers and leave the state as it is,
    whatever they are (a q right after ESC does not quit); the loop then
    goes on with the rest of the terminal.  An ESC with nothing after it,
    and ESC [ with nothing after it, leave the state as it is. *)
Theorem escape_sequences (rand : nat -> Z) (hit : Z) (t : list Z) (st : State) :
  hit <> 0 ->
  inputLoop rand (hit :: 27 :: 91 :: 65 :: t) st
  = inputLoop rand (hit :: 119 :: t) st
  /\ inputLoop rand (hit :: 27 :: 91 :: 66 :: t) st
     = inputLoop rand (hit :: 115 :: t) st
  /\ inputLoop rand (hit :: 27 :: 91 :: 67 :: t) st
     = inputLoop rand (hit :: 100 :: t) st
  /\ inputLoop rand (hit :: 27 :: 91 :: 68 :: t) st
     = inputLoop rand (hit :: 97 :: t) st
  /\ (forall n2, n2 <> 65 -> n2 <> 66 -> n2 <> 67 -> n2 <> 68 ->
        inputLoop rand (hit :: 27 :: 91 :: n2 :: t) st = inputLoop rand t st)
  /\ (forall n1, n1 <> 91 ->
        inputLoop rand (hit :: 27 :: n1 :: t) st = inputLoop rand t st)
  /\ inputLoop rand (hit :: 27 :: 113 :: t) st = inputLoop rand t st
  /\ inputLoop rand [hit; 27] st = Ok st
  /\ inputLoop rand [hit; 27; 91] st = Ok st.
Proof.
  intros Hhit.
  assert (Harrow : forall n2 ch, arrowKey n2 = ch -> ch <> -1 -> ch <> 27 ->
            inputLoop rand (hit :: 27 :: 91 :: n2 :: t) st
            = inputLoop rand (hit :: ch :: t) st).
  { intros n2 ch <- Hm1 H27.
    rewrite (inputLoop_step rand (hit :: 27 :: _)), next_key_arrow by exact Hhit.
    rewrite (inputLoop_step rand (hit :: arrowKey n2 :: _)).
    now rewrite next_key_plain. }
  assert (Hskip : forall n1, n1 <> 91 ->
            inputLoop rand (hit :: 27 :: n1 :: t) st = inputLoop rand t st).
  { intros n1 Hn1. rewrite inputLoop_step, next_key_escape by assumption.
    now rewrite handleKey_ignored. }
  split; [apply Harrow; [reflexivity | lia | lia] |].
  split; [apply Harrow; [reflexivity | lia | lia] |].
  split; [apply Harrow; [reflexivity | lia | lia] |].
  split; [apply Harrow; [reflexivity | lia | lia] |].
  split.
  { intros n2 H65 H66 H67 H68.
    rewrite inputLoop_step, next_key_arrow by exact Hhit.
    unfold arrowKey.
    destruct (Z.eqb_spec n2 65); [contradiction |].
    destruct (Z.eqb_spec n2 66); [contradiction |].
    destruct (Z.eqb_spec n2 67); [contradiction |].
    destruct (Z.eqb_spec n2 68); [contradiction |].
    now rewrite handleKey_ignored. }
  split; [exact Hskip |]. split; [apply Hskip; lia |].
  assert (Hcut : forall t0, t0 = [hit; 27] \/ t0 = [hit; 27; 91] ->
            next_key t0 = Some (27, [])).
  { intros t0 [-> | ->]; unfold next_key; cbn [kbHit getChNonBlocking];
      (destruct (Z.eqb_spec hit 0); [contradiction | reflexivity]). }
  split; rewrite inputLoop_step, Hcut, handleKey_ignored by auto; reflexivity.
Qed.

Lemma escape_sequences_witness :
  inputLoop rand0 (1 :: 27 :: 91 :: 65 :: [1; 32]) (mkState demo_game false 0)
  = inputLoop rand0 (1 :: 119 :: [1; 32]) (mkState demo_game false 0)
  /\ inputLoop rand0 (1 :: 27 :: 91 :: 66 :: [1; 32]) (mkState demo_game false 0)
     = inputLoop rand0 (1 :: 115 :: [1; 32]) (mkState demo_game false 0)
  /\ inputLoop rand0 (1 :: 27 :: 91 :: 67 :: [1; 32]) (mkState demo_game false 0)
     = inputLoop rand0 (1 :: 100 :: [1; 32]) (mkState demo_game false 0)
  /\ inputLoop rand0 (1 :: 27 :: 91 :: 68 :: [1; 32]) (mkState demo_game false 0)
     = inputLoop rand0 (1 :: 97 :: [1; 32]) (mkState demo_game false 0)
  /\ (forall n2, n2 <> 65 -> n2 <> 66 -> n2 <> 67 -> n2 <> 68 ->
        inputLoop rand0 (1 :: 27 :: 91 :: n2 :: [1; 32]) (mkState demo_game false 0)
        = inputLoop rand0 [1; 32] (mkState demo_game false 0))
  /\ (forall n1, n1 <> 91 ->
        inputLoop rand0 (1 :: 27 :: n1 :: [1; 32]) (mkState demo_game false 0)
        = inputLoop rand0 [1; 32] (mkState demo_game false 0))
  /\ inputLoop rand0 (1 :: 27 :: 113 :: [1; 32]) (mkState demo_game false 0)
     = inputLoop rand0 [1; 32] (mkState demo_game false 0)
  /\ inputLoop rand0 [1; 27] (mkState demo_game false 0)
     = Ok (mkState demo_game false 0)
  /\ inputLoop rand0 [1; 27; 91] (mkState demo_game false 0)
     = Ok (mkState demo_game false 0).
Proof.
  apply (escape_sequences rand0 1 [1; 32] (mkState demo_game false 0)). lia.
Defined.

Lemma inputLoop_paused (rand : nat -> Z) (n : nat) :
  forall (t : list Z) (st : State),
    (length t <= n)%nat -> paused st = true -> Forall quiet t ->
    inputLoop rand t st = Ok st.
Proof.
  assert (Hkey : forall t ch t', Forall quiet t -> next_key t = Some (ch, t') ->
                                 quiet ch /\ Forall quiet t').
  { intros t ch t' Ht. unfold next_key.
    destruct t as [|hit [|c0 [|n1 [|n2 t]]]]; cbn [kbHit getChNonBlocking];
      repeat match goal with
             | |- context [if ?b then _ else _] => destruct b eqn:?
             end;
      intros H; try discriminate H; injection H as <- <-;
      repeat match goal with
             | H : Forall _ (_ :: _) |- _ =>
               apply Forall_cons in H; destruct H
             end;
      (split; [first [ apply arrowKey_quiet | assumption | unfold quiet; lia ]
              | repeat (constructor; [assumption |]);
                first [ assumption | constructor ]]). }
  induction n as [|n IH]; intros t st Hlen Hp Ht;
    rewrite inputLoop_step;
    destruct (next_key t) as [[ch t']|] eqn:Hk; try reflexivity;
    pose proof (next_key_length _ _ _ Hk) as Hshort; [lia |].
  destruct (Hkey _ _ _ Ht Hk) as [Hch Ht'].
  rewrite (handleKey_paused rand ch st Hp Hch). cbn [andThen bind fst snd].
  apply IH; [lia | exact Hp | exact Ht'].
Qed.

(** X11. While the game is paused the input loop ignores every key but q,
    Q, p and P: whatever the terminal answers, as long as none of its
    answers is one of these four, the state of main is left as it is,
    escape sequences included, and so is it by the whole pass of the loop,
    whether the gravity step is due or not; and when the terminal delivers
    such keys one by one (none of them ESC) and then a q, the flag is set,
    nothing else changes, and what the terminal would answer after the q
    is not used. *)
Theorem paused_ignores_keys (rand : nat -> Z) (t l rest : list Z) (due : bool)
        (st : State) :
  paused st = true -> Forall quiet t ->
  inputLoop rand t st = Ok st
  /\ frame rand (mkFrame t due) st = Ok st
  /\ (Forall quiet l -> Forall (fun ch => ch <> 27 /\ ch <> -1) l ->
      inputLoop rand (presses l ++ 1 :: 113 :: rest) st = Ok (flagged st)).
Proof.
  intros Hp Ht.
  assert (Hloop : inputLoop rand t st = Ok st)
    by now apply (inputLoop_paused rand (length t)).
  split; [exact Hloop |]. split.
  { unfold frame. cbn [answers]. rewrite Hloop. cbn [bind]. now rewrite Hp. }
  intros Hl Hplain. induction l as [|ch l IH].
  - cbn [presses flat_map app]. rewrite inputLoop_step, next_key_plain by lia.
    reflexivity.
  - apply Forall_cons in Hl, Hplain.
    destruct Hl as [Hch Hl], Hplain as [[H27 Hm1] Hplain].
    change (presses (ch :: l) ++ 1 :: 113 :: rest)
      with (1 :: ch :: (presses l ++ 1 :: 113 :: rest)).
    rewrite inputLoop_step, next_key_plain by (assumption || lia).
    rewrite (handleKey_paused rand ch st Hp Hch). cbn [andThen bind fst snd].
    now apply IH.
Qed.

Lemma paused_ignores_keys_witness :
  inputLoop rand0 [1; 97; 1; 27; 91; 66; 1; 32; 0] (mkState demo_game true 0)
  = Ok (mkState demo_game true 0)
  /\ frame rand0 (mkFrame [1; 97; 1; 27; 91; 66; 1; 32; 0] true)
            (mkState demo_game true 0)
     = Ok (mkState demo_game true 0)
  /\ (Forall quiet [97; 66; 32; 119] ->
      Forall (fun ch => ch <> 27 /\ ch <> -1) [97; 66; 32; 119] ->
      inputLoop rand0 (presses [97; 66; 32; 119] ++ 1 :: 113 :: [1; 100])
                (mkState demo_game true 0)
      = Ok (flagged (mkState demo_game true 0))).
Proof.
  apply (paused_ignores_keys rand0 [1; 97; 1; 27; 91; 66; 1; 32; 0]
           [97; 66; 32; 119] [1; 100] true (mkState demo_game true 0)).
  - reflexivity.
  - unfold quiet. repeat constructor; lia.
Defined.

(** ** The characters of the cells *)

Lemma pieceChar_pos (id : Z) :
  0 < id <= INT_MAX ->
  exists ch,
    pieceChar id = Ok [ch] /\ ch <> blank
    /\ glyphs !! Z.to_nat ((id - 1) mod 7) = Some ch.
Proof.
  intros Hid. unfold pieceChar.
  destruct (Z.leb_spec id 0); [lia |].
  unfold int_sub. rewrite int_of_ok by (unfold INT_MIN, INT_MAX in *; lia).
  cbn [bind]. rewrite Z.rem_mod_nonneg by lia.
  pose proof (Z.mod_pos_bound (id - 1) 7 ltac:(lia)) as Hm.
  assert (Hcases : (id - 1) mod 7 = 0 \/ (id - 1) mod 7 = 1 \/ (id - 1) mod 7 = 2
                   \/ (id - 1) mod 7 = 3 \/ (id - 1) mod 7 = 4
                   \/ (id - 1) mod 7 = 5 \/ (id - 1) mod 7 = 6) by lia.
  destruct Hcases as [->|[->|[->|[->|[->|[->| ->]]]]]];
    (eexists; split; [reflexivity |]; split; [discriminate | reflexivity]).
Qed.

(** X12. The character of a cell: pieceChar returns a blank for a value
    <= 0 and, for a value id > 0, one character of the table "@#%*+xo",
    the one at index (id-1) mod 7, which is never a blank; values that
    differ by 7 have the same character, and the values 1 to 7 that
    placePiece writes for the seven kinds have seven different
    characters. *)
Theorem pieceChar_glyphs (id : Z) :
  id <= INT_MAX ->
  (id <= 0 -> pieceChar id = Ok [blank])
  /\ (0 < id ->
      exists ch,
        pieceChar id = Ok [ch] /\ ch <> blank
        /\ glyphs !! Z.to_nat ((id - 1) mod 7) = Some ch
        /\ (id + 7 <= INT_MAX -> pieceChar (id + 7) = Ok [ch]))
  /\ (forall id', 1 <= id <= 7 -> 1 <= id' <= 7 ->
        pieceChar id = pieceChar id' -> id = id').
Proof.
  intros Hmax. split; [| split].
  - intros Hneg. unfold pieceChar. destruct (Z.leb_spec id 0); [reflexivity | lia].
  - intros Hpos. destruct (pieceChar_pos id) as (ch & Hch & Hnb & Hidx); [lia |].
    exists ch. repeat split; try assumption.
    intros Hfit. destruct (pieceChar_pos (id + 7)) as (ch' & Hch' & _ & Hidx');
      [lia |].
    replace (id + 7 - 1) with (id - 1 + 1 * 7) in Hidx' by lia.
    rewrite Z.mod_add in Hidx' by lia. congruence.
  - intros id' Hid Hid' Heq.
    assert (H7 : id = 1 \/ id = 2 \/ id = 3 \/ id = 4 \/ id = 5 \/ id = 6 \/ id = 7)
      by lia.
    assert (H7' : id' = 1 \/ id' = 2 \/ id' = 3 \/ id' = 4 \/ id' = 5 \/ id' = 6
                  \/ id' = 7) by lia.
    destruct H7 as [->|[->|[->|[->|[->|[->| ->]]]]]],
             H7' as [->|[->|[->|[->|[->|[->| ->]]]]]];
      (reflexivity || (exfalso; vm_compute in Heq; discriminate Heq)).
Qed.

Lemma pieceChar_glyphs_witness :
  (3 <= 0 -> pieceChar 3 = Ok [blank])
  /\ (0 < 3 ->
      exists ch,
        pieceChar 3 = Ok [ch] /\ ch <> blank
        /\ glyphs !! Z.to_nat ((3 - 1) mod 7) = Some ch
        /\ (3 + 7 <= INT_MAX -> pieceChar (3 + 7) = Ok [ch]))
  /\ (forall id', 1 <= 3 <= 7 -> 1 <= id' <= 7 ->
        pieceChar 3 = pieceChar id' -> 3 = id').
Proof. apply (pieceChar_glyphs 3). unfold INT_MAX. lia. Defined.

(** ** Rotation keeps the cells *)

Lemma filter_length_sum {A : Type} (f : A -> bool) (l : list A) :
  length (List.filter f l)
  = fold_right (fun x n => Nat.add (if f x then 1%nat else 0%nat) n) 0%nat l.
Proof.
  induction l as [|x l IH]; [reflexivity |].
  cbn [List.filter fold_right]. destruct (f x); cbn [length]; lia.
Qed.

Lemma count_set_sum (p : Piece) : count_set p = set_sum p.
Proof. unfold count_set, set_sum. apply filter_length_sum. Qed.

Lemma set_sum_rot1 (p : Piece) : set_sum (rot1 p) = set_sum p.
Proof.
  destruct p as [[[[[[[? ?] ?] ?] [[[? ?] ?] ?]] [[[? ?] ?] ?]] [[[? ?] ?] ?]] sz].
  unfold set_sum.
  let l := eval vm_compute in frame_cells in change frame_cells with l.
  cbn [fold_right cell cell_get get4 bind rot1 rot_cells cells fst snd].
  lia.
Qed.

(** X13. Rotation keeps the number of cells set, for every piece and
    every value of the rotation counter, negative ones included;
    rotatePiece always returns. *)
Theorem rotatePiece_keeps_count (p : Piece) (times : Z) :
  exists q, rotatePiece p times = Ok q /\ count_set q = count_set p.
Proof.
  rewrite rotatePiece_iter. eexists. split; [reflexivity |].
  induction (Z.to_nat (times mod 4)) as [|n IH]; [reflexivity |].
  rewrite Nat.iter_succ. now rewrite count_set_sum, set_sum_rot1, <- count_set_sum.
Qed.

(** ** The visual buffer of drawGame *)

Lemma at_buf_above (out : list (list ascii)) (r c : Z) :
  r < 0 -> at_buf out r c = blank.
Proof.
  intros Hr. unfold at_buf, buf_get, vec_get.
  destruct (Z.leb_spec 0 r); [lia | reflexivity].
Qed.

Lemma at_buf_left (out : list (list ascii)) (r c : Z) :
  c < 0 -> at_buf out r c = blank.
Proof.
  intros Hc. unfold at_buf, buf_get, vec_get.
  destruct (0 <=? r); [| reflexivity].
  destruct (out !! Z.to_nat r); [| reflexivity]. cbn [bind].
  destruct (Z.leb_spec 0 c); [lia | reflexivity].
Qed.

Lemma at_buf_row (out : list (list ascii)) (r c : Z) (row : list ascii) :
  0 <= r -> 0 <= c -> out !! Z.to_nat r = Some row ->
  at_buf out r c = match row !! Z.to_nat c with Some v => v | None => blank end.
Proof.
  intros Hr Hc Hrow. unfold at_buf, buf_get, vec_get.
  destruct (Z.leb_spec 0 r); [| lia]. rewrite Hrow. cbn [bind].
  destruct (Z.leb_spec 0 c); [| lia].
  destruct (row !! Z.to_nat c); reflexivity.
Qed.

(** A write inside the buffer succeeds, keeps its dimensions and changes
    the one character written. *)
Lemma buf_set_at (out : list (list ascii)) (r c : Z) (ch : ascii) :
  buf_wf out -> 0 <= r < BOARD_H -> 0 <= c < BOARD_W ->
  exists out', buf_set out r c ch = Ok out' /\ buf_wf out'
    /\ forall row col,
         at_buf out' row col
         = if (r =? row) && (c =? col) then ch else at_buf out row col.
Proof.
  intros [Hl Hrows] Hr Hc. unfold buf_set.
  destruct (vec_get_in_range out r) as (line & Hline & ->); [lia |]. cbn [bind].
  pose proof (Hrows line (lookup_In _ _ _ Hline)) as Hlen.
  rewrite vec_set_in_range by lia. cbn [bind].
  rewrite vec_set_in_range by lia.
  eexists. split; [reflexivity |]. split.
  - split; [rewrite length_insert; exact Hl |].
    intros row Hrow. apply list_elem_of_In, list_elem_of_lookup in Hrow.
    destruct Hrow as [i Hi].
    destruct (Nat.eq_dec (Z.to_nat r) i) as [<-|Hne].
    + rewrite list_lookup_insert_eq in Hi by lia. injection Hi as <-.
      rewrite length_insert. exact Hlen.
    + rewrite list_lookup_insert_ne in Hi by exact Hne.
      apply Hrows. eapply lookup_In. exact Hi.
  - intros row col.
    destruct (Z.ltb_spec row 0) as [Hneg|Hrow0].
    { rewrite !at_buf_above by lia.
      destruct (Z.eqb_spec r row); [lia | reflexivity]. }
    destruct (Z.ltb_spec col 0) as [Hneg|Hcol0].
    { rewrite !at_buf_left by lia.
      destruct (Z.eqb_spec c col); [lia |]. now rewrite andb_false_r. }
    destruct (Z.eqb_spec r row) as [<-|Hne]; cbn [andb].
    + rewrite (at_buf_row _ r col (<[Z.to_nat c := ch]> line)); try lia.
      2: { apply list_lookup_insert_eq. lia. }
      rewrite (at_buf_row out r col line) by (lia || assumption).
      destruct (Z.eqb_spec c col) as [<-|Hnc].
      * rewrite list_lookup_insert_eq by lia. reflexivity.
      * rewrite list_lookup_insert_ne by lia. reflexivity.
    + unfold at_buf, buf_get, vec_get.
      rewrite list_lookup_insert_ne by lia. reflexivity.
Qed.

(** Two nested loops whose body writes [f row col] to the cells
    [(row, col)] that it hits. *)
Lemma nested_paint {S V : Type} (wf : S -> Prop) (rd : S -> Z -> Z -> V)
      (inb : Z -> Z -> Prop) (body : Z -> Z -> S -> res S)
      (hit : Z -> Z -> Z -> Z -> bool) (f : Z -> Z -> V)
      (rs cs : list Z) (s0 : S) :
  wf s0 ->
  (forall r c s, In r rs -> In c cs -> wf s ->
     exists s', body r c s = Ok s' /\ wf s'
       /\ forall row col, inb row col ->
            rd s' row col = if hit r c row col then f row col else rd s row col) ->
  exists s',
    for_each rs (fun r s => for_each cs (fun c s => body r c s) s) s0 = Ok s'
    /\ wf s'
    /\ forall row col, inb row col ->
         rd s' row col
         = if existsb (fun r => existsb (fun c => hit r c row col) cs) rs
           then f row col else rd s0 row col.
Proof.
  intros Hwf0 Hstep.
  destruct (for_each_inv
    (fun seen s => wf s /\
       forall row col, inb row col ->
         rd s row col
         = if existsb (fun r => existsb (fun c => hit r c row col) cs) seen
           then f row col else rd s0 row col)
    (fun r s => for_each cs (fun c s => body r c s) s)
    rs [] s0) as (s' & Hs' & Hwf' & Hrd').
  - split; [exact Hwf0 | reflexivity].
  - intros seen r s Hr [Hwf Hrd].
    destruct (for_each_inv
      (fun seenc s1 => wf s1 /\
         forall row col, inb row col ->
           rd s1 row col
           = if existsb (fun c => hit r c row col) seenc
             then f row col else rd s row col)
      (fun c s1 => body r c s1) cs [] s) as (s1 & Hs1 & Hwf1 & Hrd1).
    + split; [exact Hwf | reflexivity].
    + intros seenc c s1 Hc [Hwf1 Hrd1].
      destruct (Hstep r c s1 Hr Hc Hwf1) as (s2 & Hs2 & Hwf2 & Hrd2).
      exists s2. split; [exact Hs2 |]. split; [exact Hwf2 |].
      intros row col Hin. rewrite Hrd2, Hrd1 by assumption.
      rewrite existsb_app. cbn [existsb].
      destruct (hit r c row col), (existsb (fun c0 => hit r c0 row col) seenc);
        reflexivity.
    + exists s1. split; [exact Hs1 |]. split; [exact Hwf1 |].
      intros row col Hin. rewrite app_nil_l in Hrd1.
      rewrite Hrd1, Hrd by assumption.
      rewrite existsb_app. cbn [existsb].
      destruct (existsb (fun c => hit r c row col) cs),
        (existsb (fun r0 => existsb (fun c => hit r0 c row col) cs) seen);
        reflexivity.
  - exists s'. rewrite app_nil_l in Hrd'. auto.
Qed.

Lemma pieceChar_first (id : Z) :
  id <= INT_MAX ->
  exists s, pieceChar id = Ok s /\ vec_get s 0 = Ok (glyph id).
Proof.
  intros Hmax. unfold glyph.
  destruct (Z.le_gt_cases id 0) as [Hneg|Hpos].
  - unfold pieceChar. destruct (Z.leb_spec id 0); [| lia].
    eexists. split; reflexivity.
  - destruct (pieceChar_pos id) as (ch & -> & _); [lia |].
    eexists. split; reflexivity.
Qed.

Lemma cells_int_at (b : list (list Z)) (r c : Z) :
  cells_int b = true -> at_board b r c <= INT_MAX.
Proof.
  intros Hint. unfold cells_int in Hint. rewrite forallb_forall in Hint.
  unfold at_board, board_get, vec_get.
  destruct (0 <=? r); [| cbn; unfold INT_MAX; lia].
  destruct (b !! Z.to_nat r) as [row|] eqn:Hrow; [| cbn; unfold INT_MAX; lia].
  cbn [bind]. destruct (0 <=? c); [| cbn; unfold INT_MAX; lia].
  destruct (row !! Z.to_nat c) as [v|] eqn:Hv; [| cbn; unfold INT_MAX; lia].
  cbn [bind]. specialize (Hint row (lookup_In _ _ _ Hrow)).
  rewrite forallb_forall in Hint. specialize (Hint v (lookup_In _ _ _ Hv)).
  unfold in_int in Hint. apply andb_true_iff in Hint. lia.
Qed.

Lemma draw_board_cell_step (g : Game) (r c : Z) (out : list (list ascii)) :
  board_wf (board g) -> cells_int (board g) = true -> buf_wf out ->
  0 <= r < BOARD_H -> 0 <= c < BOARD_W ->
  exists out', draw_board_cell g r c out = Ok out' /\ buf_wf out'
    /\ forall row col, 0 <= row < BOARD_H /\ 0 <= col < BOARD_W ->
         at_buf out' row col
         = if (r =? row) && (c =? col) && negb (at_board (board g) r c =? 0)
           then glyph (at_board (board g) row col) else at_buf out row col.
Proof.
  intros Hwf Hint Hout Hr Hc. unfold draw_board_cell.
  rewrite board_get_at by assumption. cbn [bind].
  destruct (Z.eqb_spec (at_board (board g) r c) 0) as [_|Hnz]; cbn [negb].
  { exists out. split; [reflexivity |]. split; [exact Hout |].
    intros row col _. now rewrite andb_false_r. }
  destruct (pieceChar_first (at_board (board g) r c)) as (s & -> & Hs);
    [now apply cells_int_at |].
  cbn [bind]. rewrite Hs. cbn [bind].
  destruct (buf_set_at out r c (glyph (at_board (board g) r c)) Hout Hr Hc)
    as (out' & -> & Hout' & Hat).
  exists out'. split; [reflexivity |]. split; [exact Hout' |].
  intros row col _. rewrite Hat, andb_true_r.
  destruct (Z.eqb_spec r row) as [<-|_]; [| reflexivity].
  destruct (Z.eqb_spec c col) as [<-|_]; reflexivity.
Qed.

Lemma draw_piece_cell_step (g : Game) (p : Piece) (r c : Z)
      (out : list (list ascii)) :
  buf_wf out -> valid_kind (curPieceId g) -> anchor_ok (curX g) (curY g) ->
  0 <= r < 4 -> 0 <= c < 4 ->
  exists out', draw_piece_cell g p r c out = Ok out' /\ buf_wf out'
    /\ forall row col, 0 <= row < BOARD_H /\ 0 <= col < BOARD_W ->
         at_buf out' row col
         = if stamp p (curX g) (curY g) r c row col
           then glyph (curPieceId g + 1) else at_buf out row col.
Proof.
  intros Hout Hid (Hx1 & Hx2 & Hy1 & Hy2) Hr Hc.
  unfold valid_kind in Hid. rewrite length_pieces in Hid.
  unfold draw_piece_cell, stamp. rewrite cell_get_cell by assumption.
  cbn [bind].
  destruct (Z.eqb_spec (cell p r c) 0) as [_|_]; cbn [negb andb].
  { exists out. auto. }
  unfold int_add. rewrite !int_of_ok by (unfold INT_MIN, INT_MAX in *; lia).
  cbn [bind].
  destruct (Z.geb_spec (curY g + r) 0); cbn [andb].
  2: { exists out. repeat split; try apply Hout. intros row col [Hrow Hcol].
       destruct (Z.eqb_spec (curY g + r) row); [lia | reflexivity]. }
  destruct (Z.ltb_spec (curY g + r) BOARD_H); cbn [andb].
  2: { exists out. repeat split; try apply Hout. intros row col [Hrow Hcol].
       destruct (Z.eqb_spec (curY g + r) row); [lia | reflexivity]. }
  destruct (Z.geb_spec (curX g + c) 0); cbn [andb].
  2: { exists out. repeat split; try apply Hout. intros row col [Hrow Hcol].
       destruct (Z.eqb_spec (curX g + c) col); [lia |].
       now rewrite andb_false_r. }
  destruct (Z.ltb_spec (curX g + c) BOARD_W); cbn [andb].
  2: { exists out. repeat split; try apply Hout. intros row col [Hrow Hcol].
       destruct (Z.eqb_spec (curX g + c) col); [lia |].
       now rewrite andb_false_r. }
  destruct (pieceChar_first (curPieceId g + 1)) as (s & -> & Hs);
    [unfold INT_MAX; lia |].
  cbn [bind]. rewrite Hs. cbn [bind].
  destruct (buf_set_at out (curY g + r) (curX g + c) (glyph (curPieceId g + 1)))
    as (out' & -> & Hout' & Hat); [assumption | lia | lia |].
  exists out'. split; [reflexivity |]. split; [exact Hout' |].
  intros row col _. apply Hat.
Qed.

Lemma copied_everywhere (b : list (list Z)) (row col : Z) :
  0 <= row < BOARD_H -> 0 <= col < BOARD_W ->
  existsb (fun r => existsb (fun c =>
             (r =? row) && (c =? col) && negb (at_board b r c =? 0))
             (range BOARD_W)) (range BOARD_H)
  = negb (at_board b row col =? 0).
Proof.
  intros Hrow Hcol. apply eq_true_iff_eq. rewrite existsb_exists. split.
  - intros (r & _ & Hex). apply existsb_exists in Hex.
    destruct Hex as (c & _ & Hh). rewrite !andb_true_iff, !Z.eqb_eq in Hh.
    destruct Hh as [[-> ->] Hnz]. exact Hnz.
  - intros Hnz. exists row. split; [now apply in_range |].
    apply existsb_exists. exists col. split; [now apply in_range |].
    now rewrite !Z.eqb_refl.
Qed.

Lemma at_buf_blank (n m : nat) (row col : Z) :
  at_buf (replicate n (replicate m blank)) row col = blank.
Proof.
  unfold at_buf, buf_get, vec_get.
  destruct (0 <=? row); [| reflexivity].
  destruct (replicate n (replicate m blank) !! Z.to_nat row) as [line|] eqn:Hl;
    [| reflexivity].
  apply lookup_replicate in Hl. destruct Hl as [-> _]. cbn [bind].
  destruct (0 <=? col); [| reflexivity].
  destruct (replicate m blank !! Z.to_nat col) as [ch|] eqn:Hc; [| reflexivity].
  apply lookup_replicate in Hc. now destruct Hc as [-> _].
Qed.

(** X14. The visual buffer of drawGame: for every board of H rows and W
    columns whose cells are values of int, every kind of the catalogue and
    every anchor, the buffer is built without an out-of-bounds access, has
    H strings of W characters, and shows at each place the character of the
    current kind where a cell set of the current piece lies, and otherwise
    the character of the board cell, a blank for an empty cell. *)
Theorem drawBuffer_shows (g : Game) :
  board_wf (board g) -> cells_int (board g) = true ->
  valid_kind (curPieceId g) -> anchor_ok (curX g) (curY g) ->
  exists p0 p out,
    vec_get pieces (curPieceId g) = Ok p0
    /\ rotatePiece p0 (curRot g) = Ok p
    /\ drawBuffer g = Ok out
    /\ buf_wf out
    /\ forall row col, 0 <= row < BOARD_H -> 0 <= col < BOARD_W ->
         at_buf out row col
         = if covers p (curX g) (curY g) row col then glyph (curPieceId g + 1)
           else if at_board (board g) row col =? 0 then blank
                else glyph (at_board (board g) row col).
Proof.
  intros Hwf Hint Hid Hxy.
  destruct (vec_get_pieces _ Hid) as (p0 & Hp0 & _).
  pose proof (rotatePiece_iter p0 (curRot g)) as Hp.
  set (p := Nat.iter (Z.to_nat (curRot g mod 4)) rot1 p0) in *.
  set (out0 := replicate (Z.to_nat BOARD_H) (replicate (Z.to_nat BOARD_W) blank)).
  assert (Hout0 : buf_wf out0).
  { split; [reflexivity |]. intros row Hrow.
    apply list_elem_of_In, elem_of_replicate in Hrow. now destruct Hrow as [-> _]. }
  destruct (nested_paint buf_wf at_buf
              (fun row col => 0 <= row < BOARD_H /\ 0 <= col < BOARD_W)
              (draw_board_cell g)
              (fun r c row col =>
                 (r =? row) && (c =? col) && negb (at_board (board g) r c =? 0))
              (fun row col => glyph (at_board (board g) row col))
              (range BOARD_H) (range BOARD_W) out0 Hout0)
    as (out1 & Hout1 & Hwf1 & Hat1).
  { intros r c s Hr Hc Hs. apply in_range in Hr, Hc.
    now apply draw_board_cell_step. }
  destruct (nested_paint buf_wf at_buf
              (fun row col => 0 <= row < BOARD_H /\ 0 <= col < BOARD_W)
              (draw_piece_cell g p)
              (fun r c row col => stamp p (curX g) (curY g) r c row col)
              (fun _ _ => glyph (curPieceId g + 1))
              (range 4) (range 4) out1 Hwf1)
    as (out2 & Hout2 & Hwf2 & Hat2).
  { intros r c s Hr Hc Hs. apply in_range in Hr, Hc.
    now apply draw_piece_cell_step. }
  exists p0, p, out2. split; [exact Hp0 |]. split; [exact Hp |].
  split.
  { unfold drawBuffer. fold out0. rewrite Hout1. cbn [bind].
    rewrite Hp0. cbn [bind]. rewrite Hp. cbn [bind]. exact Hout2. }
  split; [exact Hwf2 |].
  intros row col Hrow Hcol.
  rewrite Hat2, Hat1 by (split; assumption).
  change (existsb _ (range 4)) with (painted p (curX g) (curY g) (range 4) (range 4) row col).
  rewrite painted_covers, copied_everywhere by assumption.
  destruct (covers p (curX g) (curY g) row col); [reflexivity |].
  destruct (at_board (board g) row col =? 0); cbn [negb]; [| reflexivity].
  apply at_buf_blank.
Qed.

Lemma drawBuffer_shows_witness :
  exists p0 p out,
    vec_get pieces (curPieceId demo_game) = Ok p0
    /\ rotatePiece p0 (curRot demo_game) = Ok p
    /\ drawBuffer demo_game = Ok out
    /\ buf_wf out
    /\ forall row col, 0 <= row < BOARD_H -> 0 <= col < BOARD_W ->
         at_buf out row col
         = if covers p (curX demo_game) (curY demo_game) row col
           then glyph (curPieceId demo_game + 1)
           else if at_board (board demo_game) row col =? 0 then blank
                else glyph (at_board (board demo_game) row col).
Proof.
  apply (drawBuffer_shows demo_game).
  - reflexivity.
  - reflexivity.
  - apply valid_kind_intro. cbn. lia.
  - apply anchor_ok_small; cbn; lia.
Defined.

Example drawBuffer_bottom_row :
  exists out, drawBuffer demo_game = Ok out
              /\ out !! 19%nat = Some (list_ascii_of_string "@@@@@@@@@@").
Proof. eexists. split; [vm_compute; reflexivity | reflexivity]. Qed.

(** ** A lock in the spawn row *)

Lemma board_ext (b b' : list (list Z)) :
  board_wf b -> board_wf b' ->
  (forall row col, 0 <= row < BOARD_H -> 0 <= col < BOARD_W ->
     at_board b' row col = at_board b row col) ->
  b' = b.
Proof.
  intros Hwf Hwf' Hat. apply list_eq. intros i.
  rewrite <- (Nat2Z.id i).
  destruct (Z.ltb_spec (Z.of_nat i) BOARD_H) as [Hin|Hout].
  - apply row_ext; try assumption; [lia |].
    intros col Hcol. apply Hat; lia.
  - apply board_wf_inv in Hwf, Hwf'.
    rewrite !lookup_ge_None_2 by lia. reflexivity.
Qed.

Lemma catalogue_top_rows (id r c : Z) (p0 : Piece) :
  valid_kind id -> vec_get pieces id = Ok p0 -> 2 <= r -> cell p0 r c = 0.
Proof.
  intros Hid Hp0 Hr.
  assert (Hdec : (0 <= r < 4 /\ 0 <= c < 4) \/ ~ (0 <= r < 4 /\ 0 <= c < 4)) by lia.
  destruct Hdec as [[Hr4 Hc4]|Hout]; [| now apply cell_outside].
  apply valid_kind_cases in Hid.
  assert (Hr' : r = 2 \/ r = 3) by lia.
  assert (Hc' : c = 0 \/ c = 1 \/ c = 2 \/ c = 3) by lia.
  destruct Hid as [->|[->|[->|[->|[->|[->| ->]]]]]];
    injection Hp0 as <-;
    destruct Hr' as [-> | ->], Hc' as [->|[->|[->| ->]]]; reflexivity.
Qed.

(** X15. A piece that locks in the row where it was spawned (rotation 0,
    y = -2: it could not move down) writes nothing: every cell set of every
    kind of the catalogue is then above the board, placePiece returns the
    game as it is, and on a board without a full row the whole lock
    sequence does nothing but spawn the next piece; the board, the score
    and the flag stay as they are, however full the board is. *)
Theorem lock_in_spawn_row (rnd : Z) (g : Game) :
  board_wf (board g) -> count_full (board g) = 0%nat ->
  valid_kind (curPieceId g) -> curRot g = 0 -> curY g = -2 ->
  INT_MIN <= curX g -> curX g + 3 <= INT_MAX ->
  placePiece g = Ok g
  /\ clearLines g = Ok (g, 0)
  /\ lockPiece rnd g = spawnPiece rnd g.
Proof.
  intros Hwf Hnone Hid Hrot Hy Hx1 Hx2.
  assert (Hxy : anchor_ok (curX g) (curY g)).
  { unfold anchor_ok, INT_MIN, INT_MAX in *. lia. }
  destruct (placePiece_ok g Hwf Hid Hxy) as (p0 & b' & Hp0 & Hg' & Hwf' & Hat).
  assert (Hb' : b' = board g).
  { apply board_ext; try assumption. intros row col Hrow Hcol.
    rewrite Hat by assumption. unfold covers. rewrite Hrot. cbn [Nat.iter Z.modulo].
    change (Z.to_nat (0 mod 4)) with 0%nat. cbn [Nat.iter].
    rewrite (catalogue_top_rows (curPieceId g)); try assumption; [reflexivity | lia]. }
  subst b'.
  assert (Hplace : placePiece g = Ok g) by (rewrite Hg'; now destruct g).
  assert (Hclear : clearLines g = Ok (g, 0)).
  { unfold clearLines. rewrite clearRows_compacted by exact Hwf.
    rewrite Hnone, compacted_no_full by exact Hnone.
    cbn [bind fst snd Z.of_nat addScore Z.gtb Z.compare]. now destruct g. }
  split; [exact Hplace |]. split; [exact Hclear |].
  unfold lockPiece. rewrite Hplace. cbn [bind]. rewrite Hclear. reflexivity.
Qed.

Lemma lock_in_spawn_row_witness :
  placePiece stacked_game = Ok stacked_game
  /\ clearLines stacked_game = Ok (stacked_game, 0)
  /\ lockPiece 4 stacked_game = spawnPiece 4 stacked_game.
Proof.
  apply (lock_in_spawn_row 4 stacked_game).
  - reflexivity.
  - reflexivity.
  - apply valid_kind_intro. cbn. lia.
  - reflexivity.
  - reflexivity.
  - unfold INT_MIN. cbn. lia.
  - unfold INT_MAX. cbn. lia.
Defined.

(** On the stacked board the gravity tick locks the piece where it was
    spawned: the board and the score stay, the next piece comes, and the
    game is not over. *)
Example stacked_game_goes_on :
  gravityTick rand0 (mkState stacked_game false 0)
  = Ok (mkState (mkGame stacked_board 1 0 3 (-2) 0 false 0 1 0) false 1).
Proof. vm_compute. reflexivity. Qed.

(** ** Four rotations *)

Lemma rotateCW_free (g : Game) :
  board_wf (board g) -> valid_kind (curPieceId g) ->
  anchor_ok (curX g) (curY g) -> 0 <= curRot g < 4 ->
  (forall rot, 0 <= rot < 4 ->
     collides g (curPieceId g) rot (curX g) (curY g) = Ok false) ->
  rotateCW g = Ok (with_curRot g ((curRot g + 1) mod 4)).
Proof.
  intros Hwf Hid Hxy Hrot Hfree.
  destruct (rotateCW_value g Hwf Hid Hxy) as (c & Hc & Hm).
  { unfold INT_MIN, INT_MAX. lia. }
  rewrite Z.rem_mod_nonneg in * by lia.
  rewrite Hfree in Hc by (apply Z.mod_pos_bound; lia).
  injection Hc as <-. exact Hm.
Qed.

(** X16. Where all four orientations of the active piece are legal, four
    rotations in a row are all committed, pass through the orientations
    rot+1, rot+2, rot+3 modulo 4, and give the first state back. *)
Theorem four_rotations_round_trip (g : Game) :
  session_ok g ->
  (forall rot, 0 <= rot < 4 ->
     collides g (curPieceId g) rot (curX g) (curY g) = Ok false) ->
  exists g1 g2 g3,
    rotateCW g = Ok g1 /\ rotateCW g1 = Ok g2 /\ rotateCW g2 = Ok g3
    /\ rotateCW g3 = Ok g
    /\ curRot g1 = (curRot g + 1) mod 4 /\ curRot g2 = (curRot g + 2) mod 4
    /\ curRot g3 = (curRot g + 3) mod 4.
Proof.
  intros Hok Hfree. pose proof (session_ok_anchor g Hok) as (Hxy & _).
  pose proof Hok as (Hwf & _ & Hid & _ & Hrot & _).
  assert (Hstep : forall r, 0 <= r < 4 ->
            rotateCW (with_curRot g r) = Ok (with_curRot g ((r + 1) mod 4))).
  { intros r Hr. rewrite (rotateCW_free (with_curRot g r)); try assumption.
    reflexivity. }
  exists (with_curRot g ((curRot g + 1) mod 4)),
    (with_curRot g ((curRot g + 2) mod 4)),
    (with_curRot g ((curRot g + 3) mod 4)).
  assert (Hcases : curRot g = 0 \/ curRot g = 1 \/ curRot g = 2 \/ curRot g = 3)
    by lia.
  pose proof (Hstep 0 ltac:(lia)) as H0. pose proof (Hstep 1 ltac:(lia)) as H1.
  pose proof (Hstep 2 ltac:(lia)) as H2. pose proof (Hstep 3 ltac:(lia)) as H3.
  clear Hstep Hok Hfree Hxy Hwf Hid Hrot.
  destruct g as [b id rot x y nx go sc lv ln]. cbn [curRot] in *.
  destruct Hcases as [->|[->|[->| ->]]];
    repeat split; try reflexivity;
    first [exact H0 | exact H1 | exact H2 | exact H3].
Qed.

Lemma four_rotations_round_trip_witness :
  exists g1 g2 g3,
    rotateCW (mkGame empty_board 5 0 3 8 1 false 0 1 0) = Ok g1
    /\ rotateCW g1 = Ok g2 /\ rotateCW g2 = Ok g3
    /\ rotateCW g3 = Ok (mkGame empty_board 5 0 3 8 1 false 0 1 0)
    /\ curRot g1 = (curRot (mkGame empty_board 5 0 3 8 1 false 0 1 0) + 1) mod 4
    /\ curRot g2 = (curRot (mkGame empty_board 5 0 3 8 1 false 0 1 0) + 2) mod 4
    /\ curRot g3 = (curRot (mkGame empty_board 5 0 3 8 1 false 0 1 0) + 3) mod 4.
Proof.
  apply (four_rotations_round_trip (mkGame empty_board 5 0 3 8 1 false 0 1 0)).
  - unfold session_ok.
    cbn [board curPieceId nextPieceId curRot curX curY score].
    split; [reflexivity |]. split; [reflexivity |].
    split; [apply valid_kind_intro; lia |].
    split; [apply valid_kind_intro; lia |].
    split; [lia |]. split; [unfold BOARD_W; lia |].
    split; [unfold BOARD_H; lia |].
    split; [reflexivity |]. split; [lia |].
    split; [cbn; lia | reflexivity].
  - intros rot Hrot. cbn [curPieceId curX curY].
    assert (Hc : rot = 0 \/ rot = 1 \/ rot = 2 \/ rot = 3) by lia.
    destruct Hc as [->|[->|[->| ->]]]; reflexivity.
Defined.

(** ** The values of the cells *)

Lemma cells_kind_at (b : list (list Z)) (r c : Z) :
  cells_kind b = true -> 0 <= at_board b r c <= 7.
Proof.
  intros Hk. unfold cells_kind in Hk. rewrite forallb_forall in Hk.
  unfold at_board, board_get, vec_get.
  destruct (0 <=? r); [| cbn; lia].
  destruct (b !! Z.to_nat r) as [row|] eqn:Hrow; [| cbn; lia].
  cbn [bind]. destruct (0 <=? c); [| cbn; lia].
  destruct (row !! Z.to_nat c) as [v|] eqn:Hv; [| cbn; lia].
  specialize (Hk row (lookup_In _ _ _ Hrow)).
  rewrite forallb_forall in Hk. specialize (Hk v (lookup_In _ _ _ Hv)).
  apply andb_true_iff in Hk. lia.
Qed.

Lemma cells_kind_intro (b : list (list Z)) :
  board_wf b ->
  (forall row col, 0 <= row < BOARD_H -> 0 <= col < BOARD_W ->
     0 <= at_board b row col <= 7) ->
  cells_kind b = true.
Proof.
  intros Hwf Hat. apply board_wf_inv in Hwf. destruct Hwf as [Hl Hrows].
  unfold cells_kind. apply forallb_forall. intros row Hrow.
  apply forallb_forall. intros v Hv.
  apply list_elem_of_In, list_elem_of_lookup in Hrow, Hv.
  destruct Hrow as [i Hi], Hv as [j Hj].
  pose proof (lookup_lt_Some _ _ _ Hi) as Hilt.
  pose proof (lookup_lt_Some _ _ _ Hj) as Hjlt.
  pose proof (Hrows row (lookup_In _ _ _ Hi)) as Hlen.
  specialize (Hat (Z.of_nat i) (Z.of_nat j) ltac:(lia) ltac:(lia)).
  rewrite (at_board_row b _ _ row) in Hat by (lia || now rewrite Nat2Z.id).
  rewrite Nat2Z.id, Hj in Hat. apply andb_true_iff. lia.
Qed.

Lemma cells_kind_compacted (b : list (list Z)) :
  cells_kind b = true -> cells_kind (compacted b) = true.
Proof.
  unfold cells_kind, compacted. rewrite !forallb_forall.
  intros Hk row Hrow. apply in_app_or in Hrow. destruct Hrow as [Hrow|Hrow].
  - apply list_elem_of_In, elem_of_replicate in Hrow. now destruct Hrow as [-> _].
  - apply List.filter_In in Hrow. now apply Hk.
Qed.

Lemma cells_kind_int (b : list (list Z)) :
  cells_kind b = true -> cells_int b = true.
Proof.
  unfold cells_kind, cells_int. rewrite !forallb_forall.
  intros Hk row Hrow. specialize (Hk row Hrow).
  rewrite forallb_forall in *. intros v Hv. specialize (Hk v Hv).
  apply andb_true_iff in Hk. unfold in_int, INT_MIN, INT_MAX.
  apply andb_true_iff. lia.
Qed.

(** X17. The board only ever holds 0 or a kind identifier plus one: when
    every cell of a board of H rows and W columns is between 0 and 7, so is
    every cell after a lock of a piece of the catalogue and after the
    clearing that follows; such a board is one that drawGame can draw. *)
Theorem cells_stay_kinds (g : Game) :
  board_wf (board g) -> cells_kind (board g) = true ->
  valid_kind (curPieceId g) -> anchor_ok (curX g) (curY g) ->
  exists g1 b2 n,
    placePiece g = Ok g1 /\ cells_kind (board g1) = true
    /\ clearRows (board g1) = Ok (b2, n) /\ cells_kind b2 = true
    /\ cells_int b2 = true.
Proof.
  intros Hwf Hk Hid Hxy.
  destruct (placePiece_ok g Hwf Hid Hxy) as (p0 & b1 & _ & Hg1 & Hwf1 & Hat).
  assert (Hk1 : cells_kind b1 = true).
  { apply cells_kind_intro; [exact Hwf1 |]. intros row col Hrow Hcol.
    rewrite Hat by assumption.
    destruct (covers _ _ _ _ _).
    - unfold valid_kind in Hid. rewrite length_pieces in Hid. lia.
    - now apply cells_kind_at. }
  exists (with_board g b1), (compacted b1), (Z.of_nat (count_full b1)).
  split; [exact Hg1 |]. split; [exact Hk1 |].
  split; [now apply clearRows_compacted |].
  pose proof (cells_kind_compacted b1 Hk1) as Hk2.
  split; [exact Hk2 | now apply cells_kind_int].
Qed.

Lemma cells_stay_kinds_witness :
  exists g1 b2 n,
    placePiece demo_game = Ok g1 /\ cells_kind (board g1) = true
    /\ clearRows (board g1) = Ok (b2, n) /\ cells_kind b2 = true
    /\ cells_int b2 = true.
Proof.
  apply (cells_stay_kinds demo_game).
  - reflexivity.
  - reflexivity.
  - apply valid_kind_intro. cbn. lia.
  - apply anchor_ok_small; cbn; lia.
Defined.

(** ** Normalising a shape *)

Ltac expose_char s H :=
  destruct s as [|? s]; [cbn [String.length] in H; lia |];
  cbn [String.length] in H.

Ltac frame_cases r c Hr Hc :=
  let Hr' := fresh in
  let Hc' := fresh in
  assert (Hr' : r = 0 \/ r = 1 \/ r = 2 \/ r = 3) by lia;
  assert (Hc' : c = 0 \/ c = 1 \/ c = 2 \/ c = 3) by lia;
  destruct Hr' as [->|[->|[->| ->]]], Hc' as [->|[->|[->| ->]]].

(** X18. Normalisation of a shape: for a shape of n <= 4 strings that
    have n characters at least, toPiece returns a piece of size 4 whose
    frame holds the shape in its top left corner, 1 for an X and 0 for any
    other character, and 0 in every cell outside the n x n corner. *)
Theorem toPiece_normalises (shape : list string) :
  shape_ok shape = true ->
  exists q,
    toPiece shape = Ok q /\ size q = 4
    /\ forall r c, 0 <= r < 4 -> 0 <= c < 4 ->
         cell q r c
         = if (r <? Z.of_nat (length shape)) && (c <? Z.of_nat (length shape))
           then (if is_X (char_at shape r c) then 1 else 0)
           else 0.
Proof.
  unfold shape_ok. rewrite andb_true_iff, Nat.leb_le. intros [Hn Hrows].
  destruct shape as [|s0 [|s1 [|s2 [|s3 [|s4 t]]]]];
    cbn [length forallb] in *;
    rewrite ?andb_true_iff, ?Nat.leb_le in Hrows; [| | | | | lia].
  - eexists. split; [reflexivity |]. split; [reflexivity |].
    intros r c Hr Hc. frame_cases r c Hr Hc; reflexivity.
  - destruct Hrows as [H0 _]. expose_char s0 H0.
    eexists. split; [reflexivity |]. split; [reflexivity |].
    intros r c Hr Hc. frame_cases r c Hr Hc; reflexivity.
  - destruct Hrows as (H0 & H1 & _).
    do 2 expose_char s0 H0. do 2 expose_char s1 H1.
    eexists. split; [reflexivity |]. split; [reflexivity |].
    intros r c Hr Hc. frame_cases r c Hr Hc; reflexivity.
  - destruct Hrows as (H0 & H1 & H2 & _).
    do 3 expose_char s0 H0. do 3 expose_char s1 H1. do 3 expose_char s2 H2.
    eexists. split; [reflexivity |]. split; [reflexivity |].
    intros r c Hr Hc. frame_cases r c Hr Hc; reflexivity.
  - destruct Hrows as (H0 & H1 & H2 & H3 & _).
    do 4 expose_char s0 H0. do 4 expose_char s1 H1.
    do 4 expose_char s2 H2. do 4 expose_char s3 H3.
    eexists. split; [reflexivity |]. split; [reflexivity |].
    intros r c Hr Hc. frame_cases r c Hr Hc; reflexivity.
Qed.

Lemma toPiece_normalises_witness :
  exists q,
    toPiece [".XX"; "XX."; "..."]%string = Ok q /\ size q = 4
    /\ forall r c, 0 <= r < 4 -> 0 <= c < 4 ->
         cell q r c
         = if (r <? Z.of_nat (length [".XX"; "XX."; "..."]%string))
              && (c <? Z.of_nat (length [".XX"; "XX."; "..."]%string))
           then (if is_X (char_at [".XX"; "XX."; "..."]%string r c) then 1 else 0)
           else 0.
Proof. apply (toPiece_normalises [".XX"; "XX."; "..."]%string). reflexivity. Defined.

Lemma for_each_reaches_fault {S : Type} (body : Z -> S -> res S) (e : fault)
      (i : Z) (rest : list Z) :
  (forall s, body i s = Fault e) ->
  (forall j s f, body j s = Fault f -> f = e) ->
  forall (pre : list Z) (s : S), for_each (pre ++ i :: rest) body s = Fault e.
Proof.
  intros Hi Hkind. induction pre as [|j pre IH]; intros s; cbn [app for_each].
  - now rewrite Hi.
  - destruct (body j s) as [s'|f] eqn:Hj; cbn [bind]; [apply IH |].
    now rewrite (Hkind _ _ _ Hj).
Qed.

Lemma vec_get_fault {A : Type} (v : list A) (i : Z) (f : fault) :
  vec_get v i = Fault f -> f = OutOfBounds.
Proof.
  unfold vec_get. destruct (0 <=? i); [| congruence].
  destruct (v !! Z.to_nat i); congruence.
Qed.

Lemma str_get_fault (s : string) (i : Z) (f : fault) :
  str_get s i = Fault f -> f = OutOfBounds.
Proof.
  unfold str_get. destruct (0 <=? i); [| congruence].
  destruct (String.get (Z.to_nat i) s); [congruence |].
  destruct (i =? Z.of_nat (String.length s)); congruence.
Qed.

Lemma get4_fault {A : Type} (a : arr4 A) (i : Z) (f : fault) :
  get4 a i = Fault f -> f = OutOfBounds.
Proof.
  destruct a as [[[a0 a1] a2] a3]. cbn [get4].
  destruct i as [|[[|[]|]|[|[]|]|]|]; congruence.
Qed.

Lemma set4_fault {A : Type} (a : arr4 A) (i : Z) (v : A) (f : fault) :
  set4 a i v = Fault f -> f = OutOfBounds.
Proof.
  destruct a as [[[a0 a1] a2] a3]. cbn [set4].
  destruct i as [|[[|[]|]|[|[]|]|]|]; congruence.
Qed.

Lemma cell_set_fault (p : Piece) (r c v : Z) (f : fault) :
  cell_set p r c v = Fault f -> f = OutOfBounds.
Proof.
  unfold cell_set. intros H.
  destruct (get4 (cells p) r) as [row|f1] eqn:H1; cbn [bind] in H;
    [| injection H as <-; eapply get4_fault; exact H1].
  destruct (set4 row c v) as [row'|f2] eqn:H2; cbn [bind] in H;
    [| injection H as <-; eapply set4_fault; exact H2].
  destruct (set4 (cells p) r row') as [cs|f3] eqn:H3; cbn [bind] in H;
    [discriminate | injection H as <-; eapply set4_fault; exact H3].
Qed.

Lemma cell_set_column_4 (p : Piece) (r v : Z) :
  cell_set p r 4 v = Fault OutOfBounds.
Proof.
  unfold cell_set.
  destruct (get4 (cells p) r) as [row|f] eqn:Hrow; cbn [bind].
  - now destruct row as [[[a0 a1] a2] a3].
  - now rewrite (get4_fault _ _ _ Hrow).
Qed.

Lemma first_row_faults (shape : list string) (p : Piece) :
  (4 < length shape)%nat -> size p = Z.of_nat (length shape) ->
  for_each (range (size p)) (fun c p =>
    line <- vec_get shape 0 ;;
    ch <- str_get line c ;;
    cell_set p 0 c (if is_X ch then 1 else 0)) p = Fault OutOfBounds.
Proof.
  intros Hn Hsize.
  assert (Hrange : exists rest, range (size p) = [0; 1; 2; 3] ++ 4 :: rest).
  { rewrite Hsize. unfold range. rewrite Nat2Z.id.
    destruct (length shape) as [|[|[|[|[|k]]]]]; try lia.
    eexists. reflexivity. }
  destruct Hrange as [rest ->].
  apply for_each_reaches_fault.
  - intros s.
    destruct (vec_get shape 0) as [line|f] eqn:Hl; cbn [bind];
      [| now rewrite (vec_get_fault _ _ _ Hl)].
    destruct (str_get line 4) as [ch|f] eqn:Hc; cbn [bind];
      [| now rewrite (str_get_fault _ _ _ Hc)].
    apply cell_set_column_4.
  - intros j s f.
    destruct (vec_get shape 0) as [line|f1] eqn:Hl; cbn [bind];
      [| intros [= <-]; eapply vec_get_fault; exact Hl].
    destruct (str_get line j) as [ch|f2] eqn:Hc; cbn [bind];
      [| intros [= <-]; eapply str_get_fault; exact Hc].
    apply cell_set_fault.
Qed.

(** X19. A shape of more than 4 strings is outside what toPiece can take:
    the first row of its first loop runs into column 4 of the 4x4 array at
    the latest, an access out of bounds. *)
Theorem toPiece_too_tall (shape : list string) :
  (4 < length shape)%nat -> toPiece shape = Fault OutOfBounds.
Proof.
  intros Hn. unfold toPiece.
  assert (Hrange : exists rest, range (Z.of_nat (length shape)) = 0 :: rest).
  { unfold range. rewrite Nat2Z.id.
    destruct (length shape) as [|k]; [lia |]. eexists. reflexivity. }
  destruct Hrange as [rest Hrange].
  cbv zeta. unfold with_size at 1 2. cbn [size cells].
  rewrite Hrange at 1. cbn [for_each].
  rewrite first_row_faults; [reflexivity | exact Hn | reflexivity].
Qed.

Lemma toPiece_too_tall_witness :
  toPiece ["X...."; "X...."; "X...."; "X...."; "X...."]%string
  = Fault OutOfBounds.
Proof.
  apply (toPiece_too_tall ["X...."; "X...."; "X...."; "X...."; "X...."]%string).
  cbn. lia.
Defined.
